(** * nina_helper: a shallow embedding of the NinaPro helper functions

    The development follows [src/nina_helper/nina_helper.py]: the numpy
    primitives the module relies on, the repetition segmenter shared by the
    [import_*] functions, the stacking of the recordings and the importers,
    the index lookup [get_idxs], the window extractor [get_windows], the
    split generators and [normalise_emg]; then the unrefined importers and
    [to_categorical].

    Conventions.  The code is read as Python 3 ([/] is true division and
    [round] rounds halves to even) over numpy before version 2, whose integer
    arrays wrap around silently.  A numpy integer array is a [list Z], with
    the wrap-around written out where the code stores into an array: that of
    [int8] for the label streams the module builds, that of the files'
    integer type for the labels it shifts in place.  The label vectors of a
    [.mat] file are columns, given by their cells.
    Python exceptions are the [Raise] outcomes of the [result] type.  The
    signal is a list of rows of rationals (floating-point rounding is not
    modelled), and [rest_length_cap] is an integer number of seconds, as its
    docstring says. *)

From Stdlib Require Import ZArith QArith Lia.
From stdpp Require Import base tactics option list sorting numbers gmap.

Local Open Scope Z_scope.

(** ** Exceptions and results *)

Inductive exn : Type :=
| IndexError
| ValueError
| TypeError.

Inductive result (A : Type) : Type :=
| Ok (a : A)
| Raise (e : exn).

Arguments Ok {A} a.
Arguments Raise {A} e.

Definition rbind {A B : Type} (m : result A) (k : A -> result B) : result B :=
  match m with
  | Ok a => k a
  | Raise e => Raise e
  end.

#[global] Instance result_ret : MRet result := fun A a => Ok a.
#[global] Instance result_bind : MBind result := fun A B k m => rbind m k.

Definition is_ok {A : Type} (r : result A) : bool :=
  match r with Ok _ => true | Raise _ => false end.

(** ** numpy and Python primitives *)

Module Np.

(** Position of index [i] in an array of [n] cells: negative indices count
    from the end, anything outside [-n, n) is an [IndexError]. *)
Definition norm_index (n : nat) (i : Z) : result nat :=
  if decide (0 <= i < Z.of_nat n) then Ok (Z.to_nat i)
  else if decide (- Z.of_nat n <= i < 0) then Ok (Z.to_nat (i + Z.of_nat n))
  else Raise IndexError.

(** [a[i]] *)
Definition get {A : Type} (a : list A) (i : Z) : result A :=
  k ← norm_index (length a) i;
  match a !! k with
  | Some x => Ok x
  | None => Raise IndexError
  end.

(** [a[i] = v] *)
Definition set {A : Type} (a : list A) (i : Z) (v : A) : result (list A) :=
  k ← norm_index (length a) i;
  Ok (<[k := v]> a).

(** Bound of a slice: negative bounds count from the end, and the
    result is clipped to [0, n]. *)
Definition slice_bound (n : nat) (i : Z) : nat :=
  if decide (i < 0) then Z.to_nat (Z.max (i + Z.of_nat n) 0)
  else Z.to_nat (Z.min i (Z.of_nat n)).

(** [a[lo:hi] = v] for a scalar [v]; never raises. *)
Definition slice_fill {A : Type} (a : list A) (lo hi : Z) (v : A) : list A :=
  let s := slice_bound (length a) lo in
  let e := slice_bound (length a) hi in
  if decide (s < e)%nat
  then take s a ++ replicate (e - s) v ++ drop e a
  else a.

(** [a[lo:hi]] *)
Definition slice {A : Type} (a : list A) (lo hi : Z) : list A :=
  let s := slice_bound (length a) lo in
  let e := slice_bound (length a) hi in
  drop s (take e a).

(** Cast to [int8]: two's complement wrap-around. *)
Definition wrap8 (z : Z) : Z := (z + 128) `mod` 256 - 128.

(** [int(round(x / 2))]: Python 3 rounds halves to the even neighbour. *)
Definition round_half (x : Z) : Z :=
  let q := x `div` 2 in
  if Z.even x then q else if Z.even q then q else q + 1.

(** [np.diff] on an [int8] array: differences wrap in the array's type. *)
Fixpoint diff (a : list Z) : list Z :=
  match a with
  | x :: ((y :: _) as t) => wrap8 (y - x) :: diff t
  | _ => []
  end.

(** [np.where(a)[0]]: positions of the nonzero cells, counted from [i]. *)
Fixpoint nonzero_from (i : Z) (a : list Z) : list Z :=
  match a with
  | [] => []
  | x :: t =>
      if decide (x = 0) then nonzero_from (i + 1) t
      else i :: nonzero_from (i + 1) t
  end.

Definition nonzero (a : list Z) : list Z := nonzero_from 0 a.

(** [np.where(a == x)[0]] *)
Definition where_eq (a : list Z) (x : Z) : list Z :=
  nonzero (map (fun y => if decide (y = x) then 1 else 0) a).

(** [np.unique]: the distinct values in ascending order. *)
Definition unique (a : list Z) : list Z := remove_dups (merge_sort Z.le a).

(** Python's builtin [max]; a [ValueError] on an empty sequence. *)
Definition py_max (a : list Z) : result Z :=
  match a with
  | [] => Raise ValueError
  | x :: t => Ok (foldl Z.max x t)
  end.

(** [range(n)] *)
Definition range (n : Z) : list Z := map Z.of_nat (seq 0 (Z.to_nat n)).

(** [range(start, stop, step)]: Python's own length formula, the [k]-th
    element being [start + k * step]; a zero step is a [ValueError]. *)
Definition range3 (start stop step : Z) : result (list Z) :=
  if decide (step = 0) then Raise ValueError
  else
    let len :=
      if decide (0 < step) then (stop - start + step - 1) `div` step
      else (start - stop - step - 1) `div` (- step) in
    Ok (map (fun k => start + Z.of_nat k * step) (seq 0 (Z.to_nat len))).

End Np.

(** ** The repetition segmenter

    [import_db1], [import_db2], [import_db3] and both branches of
    [import_subject] run the same block after loading their files; it is
    embedded once, as [segment], with the sampling rate [fs] as a parameter. *)

Module Seg.

(** The variables the loop updates. *)
Record state : Type := State {
  st_rep : list Z;
  st_rep_regions : list Z;
  st_last_end_idx : Z;
  st_nb_capped : Z;
  st_cur_rep : Z
}.

(** The dictionary the importers return. *)
Record output : Type := Output {
  emg : list (list Q);
  rep : list Z;
  move : list Z;
  rep_regions : list Z;
  nb_capped : Z
}.

(** [np.where(np.diff(move))[0]] *)
Definition move_regions (move : list Z) : list Z := Np.nonzero (Np.diff move).

(** One pass of [for i in range(nb_reps - 1)].  The cells written by
    [rep[...] = cur_rep] are [int8], hence the cast. *)
Definition body (fs cap nb_unique_reps : Z) (mr : list Z) (i : Z) (st : state)
  : result state :=
  rr ← Np.set (st_rep_regions st) (2 * i) (st_last_end_idx st);
  a ← Np.get mr (2 * (i + 1) - 1);
  b ← Np.get mr (2 * (i + 1));
  let midpoint_idx := Np.round_half (a + b) + 1 in
  let trailing_rest_samps := midpoint_idx - a in
  st' ←
    (if decide (trailing_rest_samps <= cap * fs) then
       (rr' ← Np.set rr (2 * i + 1) (midpoint_idx - 1);
        Ok (State
              (Np.slice_fill (st_rep st) (st_last_end_idx st) midpoint_idx
                 (Np.wrap8 (st_cur_rep st)))
              rr' midpoint_idx (st_nb_capped st) (st_cur_rep st)))
     else
       (let rep_end_idx := a + cap * fs in
        rr' ← Np.set rr (2 * i + 1) (rep_end_idx - 1);
        Ok (State
              (Np.slice_fill (st_rep st) (st_last_end_idx st) rep_end_idx
                 (Np.wrap8 (st_cur_rep st)))
              rr' (b - cap * fs) (st_nb_capped st + 2) (st_cur_rep st))));
  let cur_rep := st_cur_rep st' + 1 in
  Ok (State (st_rep st') (st_rep_regions st') (st_last_end_idx st')
        (st_nb_capped st')
        (if decide (cur_rep > nb_unique_reps) then 1 else cur_rep)).

Fixpoint loop (fs cap nb_unique_reps : Z) (mr : list Z) (idxs : list Z) (st : state)
  : result state :=
  match idxs with
  | [] => Ok st
  | i :: idxs' =>
      st' ← body fs cap nb_unique_reps mr i st;
      loop fs cap nb_unique_reps mr idxs' st'
  end.

(** The block from "Label repetitions using new block style" to the
    [return]: [emg] is the stacked signal, [rep0] the raw repetition
    stream, [move] the remapped movement stream after its [int8] cast and
    [cap] the integer [rest_length_cap]. *)
Definition segment (fs : Z) (emg : list (list Q)) (rep0 move : list Z) (cap : Z)
  : result output :=
  let mr := move_regions move in
  let rep_regions := replicate (length mr) 0 in
  let nb_reps := Np.round_half (Z.of_nat (length mr)) in
  t0 ← Np.get mr 0;
  let last_end_idx := Np.round_half t0 in
  let nb_unique_reps := Z.of_nat (length (Np.unique rep0)) - 1 in
  let rep := replicate (length rep0) 0 in
  st ← loop fs cap nb_unique_reps mr (Np.range (nb_reps - 1))
         (State rep rep_regions last_end_idx 0 1);
  tl ← Np.get mr (-1);
  let end_idx := Np.round_half (Z.of_nat (length emg) + tl) in
  let rep' := Np.slice_fill (st_rep st) (st_last_end_idx st) end_idx
                (Np.wrap8 (st_cur_rep st)) in
  rr1 ← Np.set (st_rep_regions st) (-2) (st_last_end_idx st);
  rr2 ← Np.set rr1 (-1) (end_idx - 1);
  Ok (Output emg rep' move rr2 (st_nb_capped st)).

End Seg.

(** ** Stacking the recordings

    The importers stack the [emg] arrays of the three files, and
    [import_db2_acc] their [acc] arrays: the first array goes through
    [np.squeeze], the others are stacked under it by [np.vstack]. *)

Module Stack.

(** A 2-dimensional array as [sio.loadmat] returns it: its rows, and its
    number of columns, which an array without rows still has. *)
Record array2 : Type := Array2 {
  cols : nat;
  rows : list (list Q)
}.

(** Every row has [cols] cells. *)
Definition wf (a : array2) : Prop :=
  Forall (fun r => length r = cols a) (rows a).

(** What [np.squeeze] leaves of a 2-dimensional array. *)
Inductive squeezed : Type :=
| Sq0 (x : Q)
| Sq1 (l : list Q)
| Sq2 (a : array2).

(** [np.squeeze(a)]: the axes of length 1 are dropped. *)
Definition squeeze (a : array2) : squeezed :=
  match rows a, cols a with
  | [r], 1%nat => match r with x :: _ => Sq0 x | [] => Sq1 [] end
  | [r], _ => Sq1 r
  | _, 1%nat => Sq1 (concat (rows a))
  | _, _ => Sq2 a
  end.

(** [np.atleast_2d], which [np.vstack] applies to each of its arguments:
    a 1-dimensional array becomes a single row. *)
Definition atleast_2d (s : squeezed) : array2 :=
  match s with
  | Sq0 x => Array2 1 [[x]]
  | Sq1 l => Array2 (length l) [l]
  | Sq2 a => a
  end.

(** [np.vstack((a, b))] on 2-dimensional arrays: a [ValueError] unless
    the column counts agree. *)
Definition vstack (a b : array2) : result array2 :=
  if decide (cols a = cols b) then Ok (Array2 (cols a) (rows a ++ rows b))
  else Raise ValueError.

(** [import_db2_acc]: the arguments are the [acc] arrays of the three
    files. *)
Definition import_db2_acc (acc1 acc2 acc3 : array2) : result array2 :=
  let acc := squeeze acc1 in
  acc ← vstack (atleast_2d acc) acc2;
  vstack acc acc3.

End Stack.

(** ** The importers

    A [.mat] file is the record of the variables the importers read from it
    ([sio.loadmat]); reading the file itself is outside the model.  The
    label vectors of the three files of a subject are integer arrays of one
    type [dt], a parameter of the importers that compute with them. *)

Module Importers.

(** The integer types a file may store its labels in. *)
Inductive dtype : Type :=
| Int8 | UInt8 | Int16 | UInt16 | Int32 | UInt32 | Int64.

Definition dtype_min (dt : dtype) : Z :=
  match dt with
  | Int8 => -128
  | Int16 => -32768
  | Int32 => -2147483648
  | Int64 => -9223372036854775808
  | UInt8 | UInt16 | UInt32 => 0
  end.

Definition dtype_max (dt : dtype) : Z :=
  match dt with
  | Int8 => 127
  | UInt8 => 255
  | Int16 => 32767
  | UInt16 => 65535
  | Int32 => 2147483647
  | UInt32 => 4294967295
  | Int64 => 9223372036854775807
  end.

(** What an array of type [dt] holds once [z] is stored in it by array
    arithmetic or from a numpy scalar: the value of its low bits. *)
Definition wrap (dt : dtype) (z : Z) : Z :=
  (z - dtype_min dt) `mod` (dtype_max dt - dtype_min dt + 1) + dtype_min dt.

Record mat_file : Type := MatFile {
  mf_emg : Stack.array2;
  mf_rerepetition : list Z;
  mf_restimulus : list Z;
  mf_repetition : list Z;
  mf_stimulus : list Z
}.

(** [max(move)] on the labels of the first file: [np.squeeze] makes a
    single sample a 0-dimensional array, over which [max] cannot iterate. *)
Definition py_max_squeezed (move : list Z) : result Z :=
  match move with
  | [_] => Raise TypeError
  | _ => Np.py_max move
  end.

(** [move_tmp[move_tmp != 0] += m], the sum being stored in [move_tmp],
    an array of type [dt]. *)
Definition offset_nonzero (dt : dtype) (m : Z) (move_tmp : list Z) : list Z :=
  map (fun x => if decide (x ≠ 0) then wrap dt (x + m) else x) move_tmp.

(** [a[np.where(a == old)] = new] *)
Definition replace_eq (old new : Z) (a : list Z) : list Z :=
  map (fun x => if decide (x = old) then new else x) a.

(** The nine successive replacements of the force-exercise labels
    1, 2, 4, 6, 8, 9, 16, 32, 40 by [base + 1 .. base + 9]. *)
Definition remap_force (base : Z) (a : list Z) : list Z :=
  replace_eq 40 (base + 9) (replace_eq 32 (base + 8) (replace_eq 16 (base + 7)
    (replace_eq 9 (base + 6) (replace_eq 8 (base + 5) (replace_eq 6 (base + 4)
      (replace_eq 4 (base + 3) (replace_eq 2 (base + 2)
        (replace_eq 1 (base + 1) a)))))))).

(** The same replacements in [import_db3], where the new labels depend on
    the data: [last_mov + k] is stored in an array of type [dt]. *)
Definition remap_force_in (dt : dtype) (last_mov : Z) (a : list Z) : list Z :=
  replace_eq 40 (wrap dt (last_mov + 9)) (replace_eq 32 (wrap dt (last_mov + 8))
    (replace_eq 16 (wrap dt (last_mov + 7)) (replace_eq 9 (wrap dt (last_mov + 6))
      (replace_eq 8 (wrap dt (last_mov + 5)) (replace_eq 6 (wrap dt (last_mov + 4))
        (replace_eq 4 (wrap dt (last_mov + 3)) (replace_eq 2 (wrap dt (last_mov + 2))
          (replace_eq 1 (wrap dt (last_mov + 1)) a)))))))).

(** The lines of the importers that build [emg]: [np.squeeze] on the array
    of the first file, [np.vstack] for the two others. *)
Definition stack_emg (e1 e2 e3 : mat_file) : result Stack.array2 :=
  let emg := Stack.squeeze (mf_emg e1) in
  emg ← Stack.vstack (Stack.atleast_2d emg) (mf_emg e2);
  Stack.vstack emg (mf_emg e3).

(** Label remapper of [import_db1]: the lines that build [move], up to the
    [int8] cast. *)
Definition remap_db1 (dt : dtype) (e1 e2 e3 : mat_file) : result (list Z) :=
  let move := mf_restimulus e1 in
  m1 ← py_max_squeezed move;
  let move := move ++ offset_nonzero dt m1 (mf_restimulus e2) in
  m2 ← Np.py_max move;
  Ok (move ++ offset_nonzero dt m2 (mf_restimulus e3)).

(** [import_db1], file by file as the code goes; the signal handed to the
    segmenter, and returned, is given by its rows. *)
Definition import_db1 (dt : dtype) (e1 e2 e3 : mat_file) (rest_length_cap : Z)
  : result Seg.output :=
  let emg := Stack.squeeze (mf_emg e1) in
  let rep := mf_rerepetition e1 in
  let move := mf_restimulus e1 in
  emg ← Stack.vstack (Stack.atleast_2d emg) (mf_emg e2);
  let rep := rep ++ mf_rerepetition e2 in
  m1 ← py_max_squeezed move;
  let move := move ++ offset_nonzero dt m1 (mf_restimulus e2) in
  emg ← Stack.vstack emg (mf_emg e3);
  let rep := rep ++ mf_rerepetition e3 in
  m2 ← Np.py_max move;
  let move := move ++ offset_nonzero dt m2 (mf_restimulus e3) in
  let move := map Np.wrap8 move in
  Seg.segment 100 (Stack.rows emg) rep move rest_length_cap.

(** [import_db2]; the labels 41 to 49 fit every type of [dtype]. *)
Definition import_db2 (e1 e2 e3 : mat_file) (rest_length_cap : Z)
  : result Seg.output :=
  let emg := Stack.squeeze (mf_emg e1) in
  let rep := mf_rerepetition e1 in
  let move := mf_restimulus e1 in
  emg ← Stack.vstack (Stack.atleast_2d emg) (mf_emg e2);
  let rep := rep ++ mf_rerepetition e2 in
  let move := move ++ mf_restimulus e2 in
  emg ← Stack.vstack emg (mf_emg e3);
  rep3 ← Np.set (mf_repetition e3) (-1) 0;
  let rep := rep ++ rep3 in
  stim ← Np.set (mf_stimulus e3) (-1) 0;
  let move := move ++ remap_force 40 stim in
  let move := map Np.wrap8 move in
  Seg.segment 2000 (Stack.rows emg) rep move rest_length_cap.

Definition import_db3 (dt : dtype) (e1 e2 e3 : mat_file) (rest_length_cap : Z)
  : result Seg.output :=
  let emg := Stack.squeeze (mf_emg e1) in
  let rep := mf_rerepetition e1 in
  let move := mf_restimulus e1 in
  emg ← Stack.vstack (Stack.atleast_2d emg) (mf_emg e2);
  let rep := rep ++ mf_rerepetition e2 in
  let move := move ++ mf_restimulus e2 in
  last_mov ← Np.py_max move;
  emg ← Stack.vstack emg (mf_emg e3);
  let rep := rep ++ mf_rerepetition e3 in
  let move := move ++ remap_force_in dt last_mov (mf_restimulus e3) in
  let move := map Np.wrap8 move in
  Seg.segment 2000 (Stack.rows emg) rep move rest_length_cap.

Definition import_subject (dt : dtype) (e1 e2 e3 : mat_file) (db : Z)
    (rest_length_cap : Z) : result Seg.output :=
  if decide (db = 1) then import_db1 dt e1 e2 e3 rest_length_cap
  else if decide (db = 2) then import_db2 e1 e2 e3 rest_length_cap
  else Raise ValueError.

End Importers.

(** ** Index lookup *)

Module Lookup.

(** What [np.squeeze] leaves of a [(1, k)] array: a 0-dimensional array
    when [k = 1], a 1-dimensional one otherwise. *)
Inductive ndarray : Type :=
| Arr0 (z : Z)
| Arr1 (l : list Z).

Definition squeeze (l : list Z) : ndarray :=
  match l with
  | [z] => Arr0 z
  | _ => Arr1 l
  end.

(** The cells in order ([np.ravel]). *)
Definition ravel (a : ndarray) : list Z :=
  match a with
  | Arr0 z => [z]
  | Arr1 l => l
  end.

(** [get_idxs(in_array, to_find)] on a 1-dimensional [in_array];
    [np.concatenate] raises [ValueError] on an empty list of arrays. *)
Definition get_idxs (in_array to_find : list Z) : result ndarray :=
  let targets := map (Np.where_eq in_array) to_find in
  match targets with
  | [] => Raise ValueError
  | _ => Ok (squeeze (concat targets))
  end.

(** [a[idx]] for a 1-dimensional integer index array [idx]. *)
Fixpoint take_idxs {A : Type} (a : list A) (idx : list Z) : result (list A) :=
  match idx with
  | [] => Ok []
  | i :: idx' =>
      x ← Np.get a i;
      xs ← take_idxs a idx';
      Ok (x :: xs)
  end.

End Lookup.

(** ** Window extraction *)

Module Win.

Import Lookup.

(** The window end positions [get_windows] settles on, up to the line
    [targets = targets[move_targets]].  An empty [range] makes
    [np.array] a float array, which cannot index.  On a 0-dimensional
    [targets] the movement lookup runs on the single label, and indexing
    [targets] by its result then fails. *)
Definition window_targets (which_reps : list Z) (window_len window_inc : Z)
    (nb_obs : Z) (movements repetitons : list Z) (which_moves : option (list Z))
  : result ndarray :=
  possible_targets ← Np.range3 (window_len - 1) nb_obs window_inc;
  match possible_targets with
  | [] => Raise IndexError
  | _ =>
      sel ← take_idxs repetitons possible_targets;
      targets ← get_idxs sel which_reps;
      let targets :=
        match targets with
        | Arr0 t => Arr0 ((window_len - 1) + t * window_inc)
        | Arr1 ts => Arr1 (map (fun t => (window_len - 1) + t * window_inc) ts)
        end in
      match which_moves with
      | None => Ok targets
      | Some which_moves =>
          match targets with
          | Arr0 t =>
              msel ← Np.get movements t;
              _ ← get_idxs [msel] which_moves;
              Raise IndexError
          | Arr1 ts =>
              msel ← take_idxs movements ts;
              move_targets ← get_idxs msel which_moves;
              match move_targets with
              | Arr0 k => t ← Np.get ts k; Ok (Arr0 t)
              | Arr1 ks => ts' ← take_idxs ts ks; Ok (Arr1 ts')
              end
          end
      end
  end.

(** [X_data[i, :, :, 0] = rows]: the rows must number [window_len], a
    single row being broadcast. *)
Definition assign_window (window_len : Z) (rows : list (list Q))
  : result (list (list Q)) :=
  if decide (Z.of_nat (length rows) = window_len) then Ok rows
  else match rows with
       | [r] => Ok (replicate (Z.to_nat window_len) r)
       | _ => Raise ValueError
       end.

(** The body of [for i, win_end in enumerate(targets)]. *)
Definition window_at (window_len : Z) (emg : list (list Q))
    (movements repetitons : list Z) (win_end : Z)
  : result (list (list Q) * Z * Z) :=
  let win_start := win_end - (window_len - 1) in
  x ← assign_window window_len (Np.slice emg win_start (win_end + 1));
  y ← Np.get movements win_end;
  r ← Np.get repetitons win_end;
  Ok (x, Np.wrap8 y, Np.wrap8 r).

Fixpoint windows_at (window_len : Z) (emg : list (list Q))
    (movements repetitons : list Z) (targets : list Z)
  : result (list (list (list Q)) * list Z * list Z) :=
  match targets with
  | [] => Ok ([], [], [])
  | win_end :: targets' =>
      w ← window_at window_len emg movements repetitons win_end;
      ws ← windows_at window_len emg movements repetitons targets';
      Ok (w.1.1 :: ws.1.1, w.1.2 :: ws.1.2, w.2 :: ws.2)
  end.

(** [get_windows]; the [dtype] conversion of the samples is not modelled.
    [targets.shape[0]] is an [IndexError] on a 0-dimensional array and
    [np.zeros] a [ValueError] on a negative dimension. *)
Definition get_windows (which_reps : list Z) (window_len window_inc : Z)
    (emg : list (list Q)) (movements repetitons : list Z)
    (which_moves : option (list Z))
  : result (list (list (list Q)) * list Z * list Z) :=
  targets ← window_targets which_reps window_len window_inc
              (Z.of_nat (length emg)) movements repetitons which_moves;
  match targets with
  | Arr0 _ => Raise IndexError
  | Arr1 ts =>
      if decide (window_len < 0) then Raise ValueError
      else windows_at window_len emg movements repetitons ts
  end.

End Win.

(** ** Split generators

    [np.random.randint] is an oracle: the generators take the list of the
    indices it returns.  The outcome is [None] when that list does not
    describe an execution (it runs out, or holds an index [randint] cannot
    return for the current pool size). *)

Module Split.

(** [itertools.combinations(l, r)] *)
Fixpoint combinations {A : Type} (l : list A) (r : nat) : list (list A) :=
  match r, l with
  | O, _ => [[]]
  | S _, [] => []
  | S r', x :: t => map (cons x) (combinations t r') ++ combinations t r
  end.

(** [np.zeros((rows, cols), dtype=int)] *)
Definition zeros2 (rows cols : Z) : result (list (list Z)) :=
  if decide (rows < 0 ∨ cols < 0) then Raise ValueError
  else Ok (replicate (Z.to_nat rows) (replicate (Z.to_nat cols) 0)).

(** The value written by [table[i, :] = v] into a row of [width] cells: [v]
    itself, or its single cell broadcast. *)
Definition broadcast_row (width : nat) (v : list Z) : result (list Z) :=
  if decide (length v = width) then Ok v
  else match v with
       | [x] => Ok (replicate width x)
       | _ => Raise ValueError
       end.

(** [table[i, :] = v] *)
Definition set_row (table : list (list Z)) (width : nat) (i : Z) (v : list Z)
  : result (list (list Z)) :=
  k ← Np.norm_index (length table) i;
  row ← broadcast_row width v;
  Ok (<[k := row]> table).

(** The three lines building [all_combos]: [combinations] rejects a
    negative [r], and [reshape(-1, 0)] cannot infer the row count. *)
Definition all_combos (rep_ids : list Z) (nb_test : Z) : result (list (list Z)) :=
  if decide (nb_test < 0) then Raise ValueError
  else if decide (nb_test = 0) then Raise ValueError
  else Ok (combinations rep_ids (Z.to_nat nb_test)).

(** [np.where(np.all(all_combos == base, axis=1))[0][0]] *)
Definition find_base (combos : list (list Z)) (base_row : list Z) : result nat :=
  match list_find (fun row => row = base_row) combos with
  | Some (k, _) => Ok k
  | None => Raise IndexError
  end.

(** [np.setdiff1d(rep_ids, row)] *)
Definition setdiff1d (rep_ids row : list Z) : list Z :=
  filter (fun x => x ∉ row) (Np.unique rep_ids).

(** The counts of [np.unique(rows, return_counts=True)]. *)
Definition unique_counts (rows : list (list Z)) : list Z :=
  let flat := concat rows in
  map (fun v => Z.of_nat (length (filter (fun x => x = v) flat))) (Np.unique flat).

Record state : Type := State {
  st_all_combos : list (list Z);
  st_test_reps : list (list Z);
  st_cur_split : Z;
  st_reset_counter : Z
}.

(** The [if reset_counter >= 10 or all_combos.shape[0] == 0] block;
    [fresh] is the zeroed test table with [base] in row 0 when given and
    [first] the fold to resume from. *)
Definition maybe_reset (all_combos_copy fresh : list (list Z)) (first : Z)
    (st : state) : state :=
  if decide (st_reset_counter st >= 10 ∨ st_all_combos st = []) then
    State all_combos_copy fresh first 0
  else st.

(** The loop body from [test_reps[cur_split, :] = all_combos[randomIndex, :]]
    on, [combo] being the row drawn. *)
Definition draw_step (nb_test : Z) (st : state) (randomIndex : nat)
    (combo : list Z) : result state :=
  test_reps ← set_row (st_test_reps st) (Z.to_nat nb_test) (st_cur_split st) combo;
  let all_combos := delete randomIndex (st_all_combos st) in
  let counts := unique_counts (take (Z.to_nat (st_cur_split st + 1)) test_reps) in
  m ← Np.py_max counts;
  if decide (m > nb_test) then
    test_reps ← set_row test_reps (Z.to_nat nb_test) (st_cur_split st)
                  (replicate (Z.to_nat nb_test) 0);
    Ok (State all_combos test_reps (st_cur_split st) (st_reset_counter st + 1))
  else
    Ok (State all_combos test_reps (st_cur_split st + 1) 0).

(** The [while cur_split < nb_splits] loop; [randint(0, 0)] is a
    [ValueError]. *)
Fixpoint balanced_loop (draws : list nat) (nb_splits nb_test : Z)
    (all_combos_copy fresh : list (list Z)) (first : Z) (st : state)
  : option (result state) :=
  if decide (st_cur_split st < nb_splits) then
    let st := maybe_reset all_combos_copy fresh first st in
    match st_all_combos st with
    | [] => Some (Raise ValueError)
    | _ =>
        match draws with
        | [] => None
        | randomIndex :: draws' =>
            match st_all_combos st !! randomIndex with
            | None => None
            | Some combo =>
                match draw_step nb_test st randomIndex combo with
                | Raise e => Some (Raise e)
                | Ok st' =>
                    balanced_loop draws' nb_splits nb_test all_combos_copy fresh
                      first st'
                end
            end
        end
    end
  else Some (Ok st).

(** [for i in range(nb_splits): train_reps[i, :] = np.setdiff1d(...)] *)
Fixpoint fill_train (rep_ids : list Z) (width : nat) (test_reps : list (list Z))
    (idxs : list Z) (train_reps : list (list Z)) : result (list (list Z)) :=
  match idxs with
  | [] => Ok train_reps
  | i :: idxs' =>
      row ← Np.get test_reps i;
      train_reps ← set_row train_reps width i (setdiff1d rep_ids row);
      fill_train rep_ids width test_reps idxs' train_reps
  end.

Definition lift {A : Type} (r : result A) (k : A -> option (result (list (list Z) * list (list Z))))
  : option (result (list (list Z) * list (list Z))) :=
  match r with
  | Ok a => k a
  | Raise e => Some (Raise e)
  end.

Definition gen_split_balanced (draws : list nat) (rep_ids : list Z) (nb_test : Z)
    (base : option (list Z))
  : option (result (list (list Z) * list (list Z))) :=
  let nb_reps := Z.of_nat (length rep_ids) in
  let nb_splits := nb_reps in
  lift (zeros2 nb_splits (nb_reps - nb_test)) (fun train_reps =>
  lift (zeros2 nb_splits nb_test) (fun test_reps =>
  lift (all_combos rep_ids nb_test) (fun combos =>
  lift (match base with
        | Some base =>
            test_reps ← set_row test_reps (Z.to_nat nb_test) 0 base;
            row ← Np.get test_reps 0;
            k ← find_base combos row;
            Ok (delete k combos, test_reps, 1)
        | None => Ok (combos, test_reps, 0)
        end) (fun '(combos, test_reps, cur_split) =>
  match balanced_loop draws nb_splits nb_test combos test_reps cur_split
          (State combos test_reps cur_split 0) with
  | None => None
  | Some r =>
      lift r (fun st =>
      lift (fill_train rep_ids (Z.to_nat (nb_reps - nb_test)) (st_test_reps st)
              (Np.range nb_splits) train_reps) (fun train_reps =>
      Some (Ok (train_reps, st_test_reps st))))
  end)))).

(** The body of [for i in range(cur_split, nb_splits)] in
    [gen_split_rand]; the state is (pool, train table, test table). *)
Fixpoint rand_loop (draws : list nat) (rep_ids : list Z) (nb_test : Z)
    (width : nat) (idxs : list Z)
    (st : list (list Z) * list (list Z) * list (list Z))
  : option (result (list (list Z) * list (list Z))) :=
  match idxs with
  | [] => Some (Ok (st.1.2, st.2))
  | i :: idxs' =>
      match st.1.1 with
      | [] => Some (Raise ValueError)
      | _ =>
          match draws with
          | [] => None
          | rand_idx :: draws' =>
              match st.1.1 !! rand_idx with
              | None => None
              | Some combo =>
                  lift (test_reps ← set_row st.2 (Z.to_nat nb_test) i combo;
                        row ← Np.get test_reps i;
                        train_reps ← set_row st.1.2 width i (setdiff1d rep_ids row);
                        Ok (delete rand_idx st.1.1, train_reps, test_reps))
                    (rand_loop draws' rep_ids nb_test width idxs')
              end
          end
      end
  end.

Definition gen_split_rand (draws : list nat) (rep_ids : list Z)
    (nb_test nb_splits : Z) (base : option (list Z))
  : option (result (list (list Z) * list (list Z))) :=
  let nb_reps := Z.of_nat (length rep_ids) in
  let width := Z.to_nat (nb_reps - nb_test) in
  lift (all_combos rep_ids nb_test) (fun combos =>
  lift (zeros2 nb_splits (nb_reps - nb_test)) (fun train_reps =>
  lift (zeros2 nb_splits nb_test) (fun test_reps =>
  lift (match base with
        | Some base =>
            test_reps ← set_row test_reps (Z.to_nat nb_test) 0 base;
            row ← Np.get test_reps 0;
            train_reps ← set_row train_reps width 0 (setdiff1d rep_ids row);
            k ← find_base combos row;
            Ok (delete k combos, train_reps, test_reps, 1)
        | None => Ok (combos, train_reps, test_reps, 0)
        end) (fun '(combos, train_reps, test_reps, cur_split) =>
  rand_loop draws rep_ids nb_test width
    (map (fun k => cur_split + Z.of_nat k)
       (seq 0 (Z.to_nat (nb_splits - cur_split))))
    (combos, train_reps, test_reps))))).

End Split.

(** ** Normalisation

    Arrays live in a heap, so that what [normalise_emg] does to the
    caller's buffer can be stated.  [StandardScaler] is scikit-learn's:
    [fit] computes the column means and (population) standard deviations,
    a zero deviation being replaced by 1, and [transform] scales a float
    array in place when the scaler was built with [copy=False], and into a
    fresh array otherwise.  Samples are rationals; square roots are taken to
    12 decimal digits. *)

Module Norm.

Import Lookup.

Definition matrix : Type := list (list Q).
Definition ref : Type := nat.
Definition heap : Type := gmap nat (list (list Q)).

Definition Qsqrt (q : Q) : Q :=
  let s := 1000000000000%positive in
  Qred (Qmake (Z.sqrt (Qnum q * Z.pos (Qden q) * Z.pos s * Z.pos s)) (Qden q * s)).

Record scaler : Type := Scaler {
  sc_copy : bool;
  sc_mean : list Q;
  sc_scale : list Q
}.

Definition col_sums (X : matrix) : list Q :=
  match X with
  | [] => []
  | r :: _ => foldr (zip_with Qplus) (replicate (length r) 0%Q) X
  end.

Definition col_means (X : matrix) : list Q :=
  map (fun t => Qred (t / inject_Z (Z.of_nat (length X)))%Q) (col_sums X).

Definition sq_dev (mean row : list Q) : list Q :=
  zip_with (fun x m => ((x - m) * (x - m))%Q) row mean.

(** [StandardScaler(with_mean=True, with_std=True, copy=copy).fit(X)];
    an array without rows is a [ValueError]. *)
Definition fit (copy : bool) (X : matrix) : result scaler :=
  match X with
  | [] => Raise ValueError
  | _ =>
      let mean := col_means X in
      let var := col_means (map (sq_dev mean) X) in
      let scale := map (fun v => let d := Qsqrt v in
                                 if Qeq_bool d 0 then 1%Q else d) var in
      Ok (Scaler copy mean scale)
  end.

Definition scale_row (sc : scaler) (row : list Q) : list Q :=
  zip_with (fun xm d => Qred (xm / d)%Q)
    (zip_with (fun x m => (x - m)%Q) row (sc_mean sc)) (sc_scale sc).

Definition scale_matrix (sc : scaler) (X : matrix) : matrix :=
  map (scale_row sc) X.

(** [scaler.transform(X)] on the array at [r]: the reference returned and
    the heap afterwards. *)
Definition transform (sc : scaler) (h : heap) (r : ref) : ref * heap :=
  let Y := scale_matrix sc (h !!! r) in
  if sc_copy sc then
    let r' := fresh (dom h) in (r', <[r' := Y]> h)
  else (r, <[r := Y]> h).

(** [normalise_emg]: [emg] is the reference the caller passes.  Indexing
    [emg] by a 0-dimensional [train_targets] yields a single row, which
    [fit] rejects; the movement filter fails on such a [train_targets] as
    it does in [get_windows]. *)
Definition normalise_emg (h : heap) (emg : ref) (reps train_reps : list Z)
    (movements which_moves : option (list Z)) : result (ref * heap) :=
  train_targets ← get_idxs reps train_reps;
  train_targets ←
    match which_moves, movements with
    | Some which_moves, Some movements =>
        match train_targets with
        | Arr0 t =>
            msel ← Np.get movements t;
            _ ← get_idxs [msel] which_moves;
            Raise IndexError
        | Arr1 ts =>
            msel ← take_idxs movements ts;
            move_targets ← get_idxs msel which_moves;
            match move_targets with
            | Arr0 k => t ← Np.get ts k; Ok (Arr0 t)
            | Arr1 ks => ts' ← take_idxs ts ks; Ok (Arr1 ts')
            end
        end
    | _, _ => Ok train_targets
    end;
  match train_targets with
  | Arr0 _ => Raise ValueError
  | Arr1 ts =>
      X ← take_idxs (h !!! emg) ts;
      sc ← fit false X;
      Ok (transform sc h emg)
  end.

End Norm.

(** ** Specification-level notions *)

Module Spec.

(** The rows [(start, end)] of a flat boundary table. *)
Fixpoint rows (t : list Z) : list (Z * Z) :=
  match t with
  | s :: e :: t' => (s, e) :: rows t'
  | _ => []
  end.

(** The rests between two movements: the pairs
    [(move_regions[2i+1], move_regions[2i+2])]. *)
Definition rests (mr : list Z) : list (Z * Z) := rows (tail mr).

(** The flat table of a list of rows. *)
Fixpoint flat (rs : list (Z * Z)) : list Z :=
  match rs with
  | [] => []
  | (s, e) :: rs' => s :: e :: flat rs'
  end.

(** The segmenter's test on a rest [(a, b)] against [c = cap * fs]. *)
Definition over_cap (c : Z) (ab : Z * Z) : Prop :=
  c < Np.round_half (ab.1 + ab.2) + 1 - ab.1.

#[global] Instance over_cap_dec c ab : Decision (over_cap c ab).
Proof. unfold over_cap. apply _. Defined.

(** Samples a capped rest leaves between two blocks. *)
Definition trunc_gap (c : Z) (ab : Z * Z) : Z :=
  if decide (over_cap c ab) then ab.2 - ab.1 - 2 * c else 0.

(** The blocks closed while walking the rests from cursor [s], and the
    cursor left for the last block. *)
Fixpoint walk (c s : Z) (evs : list (Z * Z)) : list (Z * Z) * Z :=
  match evs with
  | [] => ([], s)
  | ab :: evs' =>
      if decide (over_cap c ab) then
        let r := walk c (ab.2 - c) evs' in ((s, ab.1 + c - 1) :: r.1, r.2)
      else
        let m := Np.round_half (ab.1 + ab.2) + 1 in
        let r := walk c m evs' in ((s, m - 1) :: r.1, r.2)
  end.

Definition sum_list (l : list Z) : Z := foldr Z.add 0 l.

(** The total length of the blocks of a boundary table. *)
Definition block_length_sum (t : list Z) : Z :=
  sum_list (map (fun se => se.2 - se.1 + 1) (rows t)).

(** Transitions in ascending order after [p]: each rest [(a, b)] starts
    after the previous transition and ends after it starts. *)
Fixpoint chain (p : Z) (evs : list (Z * Z)) : Prop :=
  match evs with
  | [] => True
  | ab :: evs' => p < ab.1 ∧ ab.1 < ab.2 ∧ chain ab.2 evs'
  end.

(** The last transition of such a chain. *)
Fixpoint chain_end (p : Z) (evs : list (Z * Z)) : Z :=
  match evs with
  | [] => p
  | ab :: evs' => chain_end ab.2 evs'
  end.

(** The samples before the first block: those below
    [int(round(move_regions[0] / 2))]. *)
Definition lead_gap (mr : list Z) : Z := Np.round_half (mr !!! 0%nat).

(** The last boundary,
    [int(round((emg.shape[0] + move_regions[-1]) / 2))]. *)
Definition end_idx (n : Z) (mr : list Z) : Z :=
  Np.round_half (n + mr !!! (length mr - 1)%nat).

(** The samples after the last block. *)
Definition tail_gap (n : Z) (mr : list Z) : Z := n - end_idx n mr.

(** Loop invariant: the labels written never exceed
    [max 1 nb_unique_reps]. *)
Definition labels_bounded (nb_unique_reps : Z) (st : Seg.state) : Prop :=
  Forall (fun x => x <= Z.max 1 nb_unique_reps) (Seg.st_rep st) ∧
  1 <= Seg.st_cur_rep st <= Z.max 1 nb_unique_reps.

(** The number of distinct nonzero values of the raw repetition stream. *)
Definition cycle_length (rep0 : list Z) : Z :=
  Z.of_nat (length (filter (fun x => x ≠ 0) (Np.unique rep0))).

(** A movement stream whose transitions pair up, with a signal of the
    same length and a non-negative cap. *)
Definition valid_input (fs : Z) (emg : list (list Q)) (move : list Z) (cap : Z)
  : Prop :=
  length emg = length move ∧
  (∃ k : nat, length (Seg.move_regions move) = (2 * S k)%nat) ∧
  0 <= cap * fs.

(** The number of samples carrying a repetition index. *)
Definition assigned (rep : list Z) : Z :=
  Z.of_nat (length (filter (fun x => x ≠ 0) rep)).

(** No capped rest is shorter than twice the cap. *)
Definition caps_fit (c : Z) (evs : list (Z * Z)) : Prop :=
  Forall (fun ab => over_cap c ab -> 2 * c <= ab.2 - ab.1) evs.

(** A rest-move-rest stream of [int8] labels: it starts and ends at rest,
    holds a movement, and a label only changes from or to rest. *)
Definition rest_move_rest (move : list Z) : Prop :=
  head move = Some 0 ∧ last move = Some 0 ∧
  (∃ x, x ∈ move ∧ x ≠ 0) ∧
  Forall (fun x => -128 <= x <= 127) move ∧
  ∀ (i : nat) x y, move !! i = Some x -> move !! S i = Some y -> x ≠ y ->
                   x = 0 ∨ y = 0.

(** *** Window extraction *)

(** The label a stream carries at position [e]. *)
Definition label_at (a : list Z) (e : Z) : Z := a !!! Z.to_nat e.

(** Candidate window end positions: [L - 1 + k * S] for [k = 0, 1, ...]
    while the position is below [n]. *)
Definition candidates (L S n : Z) : list Z :=
  map (fun k => (L - 1) + Z.of_nat k * S)
    (seq 0 (Z.to_nat ((n - (L - 1) + S - 1) `div` S))).

(** The positions of [l], grouped by the value [key] gives them, the groups
    in the order of [vals] and each group in the order of [l]. *)
Definition grouped (key : Z -> Z) (vals l : list Z) : list Z :=
  concat (map (fun v => filter (fun e => key e = v) l) vals).

(** The end positions of the windows [get_windows] returns, in its order. *)
Definition window_ends (which_reps : list Z) (L S n : Z)
    (movements repetitons : list Z) (which_moves : option (list Z)) : list Z :=
  let ends := grouped (label_at repetitons) which_reps (candidates L S n) in
  match which_moves with
  | None => ends
  | Some which_moves => grouped (label_at movements) which_moves ends
  end.

(** A candidate is retained when its repetition label, and its movement
    label if movements are filtered, are among those asked for. *)
Definition retained (which_reps movements repetitons : list Z)
    (which_moves : option (list Z)) (e : Z) : Prop :=
  label_at repetitons e ∈ which_reps ∧
  match which_moves with
  | None => True
  | Some which_moves => label_at movements e ∈ which_moves
  end.

#[global] Instance retained_dec which_reps movements repetitons which_moves e :
  Decision (retained which_reps movements repetitons which_moves e).
Proof. unfold retained. destruct which_moves; apply _. Defined.


(** *** Normalisation *)

(** The positions of the training rows: the positions of [reps] holding a
    repetition of [train_reps], grouped by repetition in the order of
    [train_reps]; when [movements] and [which_moves] are both given, those
    among them whose movement is in [which_moves], grouped by movement in
    the order of [which_moves]. *)
Definition train_targets (reps train_reps : list Z)
    (movements which_moves : option (list Z)) : list Z :=
  let ts :=
    grouped (label_at reps) train_reps (Np.range (Z.of_nat (length reps))) in
  match which_moves, movements with
  | Some which_moves, Some movements => grouped (label_at movements) which_moves ts
  | _, _ => ts
  end.

(** *** Split generation *)

(** How many times [v] occurs in [flat]. *)
Definition occurrences (v : Z) (flat : list Z) : Z :=
  Z.of_nat (length (filter (fun x => x = v) flat)).

(** Invariant of the balanced loop: the folds completed so far are
    combinations, and no value occurs in them more than [nb_test] times. *)
Definition split_inv (combos : list (list Z)) (nb_splits nb_test first : Z)
    (st : Split.state) : Prop :=
  length (Split.st_test_reps st) = Z.to_nat nb_splits ∧
  0 <= first <= Split.st_cur_split st ∧
  Split.st_cur_split st <= nb_splits ∧
  (∀ row, row ∈ Split.st_all_combos st -> row ∈ combos) ∧
  (∀ row, row ∈ take (Z.to_nat (Split.st_cur_split st)) (Split.st_test_reps st) ->
          row ∈ combos) ∧
  (∀ v, occurrences v
          (concat (take (Z.to_nat (Split.st_cur_split st)) (Split.st_test_reps st)))
        <= nb_test).

End Spec.

(** ** Sample inputs *)

Module Ex.

(** A one-channel signal of [n] samples. *)
Definition emg_of (n : nat) : list (list Q) :=
  map (fun k => [inject_Z (Z.of_nat k)]) (seq 0 n).

(** One movement between two rests. *)
Definition move10 : list Z := [0; 0; 0; 0; 1; 1; 0; 0; 0; 0].

(** Two movements; the rest between them is 4 samples long. *)
Definition move12 : list Z := [0; 0; 1; 1; 0; 0; 0; 0; 2; 2; 0; 0].

(** Two movements separated by 300 samples (3 s at 100 Hz) of rest. *)
Definition move340 : list Z :=
  replicate 10 0 ++ replicate 10 1 ++ replicate 300 0 ++ replicate 10 2
    ++ replicate 10 0.

(** Two movements separated by 199 samples of rest. *)
Definition move240 : list Z :=
  replicate 11 0 ++ replicate 10 1 ++ replicate 199 0 ++ replicate 10 2
    ++ replicate 10 0.

(** A two-channel signal of [n] samples. *)
Definition emg2_of (n : nat) : list (list Q) :=
  map (fun k => [inject_Z (Z.of_nat k); inject_Z (- Z.of_nat k)]) (seq 0 n).

(** An exercise file of four samples on two channels, with raw movement
    labels [0, a, b, 0]; the repetition stream marks the movement samples. *)
Definition file_of (a b : Z) : Importers.mat_file :=
  Importers.MatFile (Stack.Array2 2 (emg2_of 4)) [0; 1; 1; 0] [0; a; b; 0]
    [0; 1; 1; 0] [0; a; b; 0].

(** An exercise file of a single sample on two channels. *)
Definition file_one_sample : Importers.mat_file :=
  Importers.MatFile (Stack.Array2 2 (emg2_of 1)) [0] [0] [0] [0].

(** An exercise file of four samples on one channel. *)
Definition file1 : Importers.mat_file :=
  Importers.MatFile (Stack.Array2 1 (emg_of 4)) [0; 1; 1; 0] [0; 1; 1; 0]
    [0; 1; 1; 0] [0; 1; 1; 0].

(** The caller's heap: one buffer, at reference 0, holding a two-sample
    one-channel signal. *)
Definition heap0 : gmap nat (list (list Q)) := {[ 0%nat := [[1%Q]; [3%Q]] ]}.

(** The same heap once the buffer is z-scored (mean 2, deviation 1). *)
Definition heap0_scaled : gmap nat (list (list Q)) :=
  {[ 0%nat := [[(-1)%Q]; [1%Q]] ]}.

End Ex.

(** ** The unrefined importers

    [import_db1_unrefined] and [import_db2_unrefined] read the [repetition]
    and [stimulus] variables of the files and load no signal; their copy of
    the segmenter's block takes the last boundary from the length of the
    repetition stream, where the importers above take it from the signal. *)

Module Unrefined.

Import Importers.

(** The dictionary the unrefined importers return. *)
Record output : Type := Output {
  rep : list Z;
  move : list Z;
  rep_regions : list Z;
  nb_capped : Z
}.

(** The block from "Label repetitions using new block style" to the
    [return], as [import_db1_unrefined] and [import_db2_unrefined] have it:
    [end_idx] is computed from [rep.shape[0]], [rep] being by then the
    zeroed array the loop has filled. *)
Definition segment (fs : Z) (rep0 move : list Z) (cap : Z) : result output :=
  let mr := Seg.move_regions move in
  let rep_regions := replicate (length mr) 0 in
  let nb_reps := Np.round_half (Z.of_nat (length mr)) in
  t0 ← Np.get mr 0;
  let last_end_idx := Np.round_half t0 in
  let nb_unique_reps := Z.of_nat (length (Np.unique rep0)) - 1 in
  let rep := replicate (length rep0) 0 in
  st ← Seg.loop fs cap nb_unique_reps mr (Np.range (nb_reps - 1))
         (Seg.State rep rep_regions last_end_idx 0 1);
  tl ← Np.get mr (-1);
  let end_idx := Np.round_half (Z.of_nat (length (Seg.st_rep st)) + tl) in
  let rep' := Np.slice_fill (Seg.st_rep st) (Seg.st_last_end_idx st) end_idx
                (Np.wrap8 (Seg.st_cur_rep st)) in
  rr1 ← Np.set (Seg.st_rep_regions st) (-2) (Seg.st_last_end_idx st);
  rr2 ← Np.set rr1 (-1) (end_idx - 1);
  Ok (Output rep' move rr2 (Seg.st_nb_capped st)).

Definition import_db1_unrefined (dt : dtype) (e1 e2 e3 : mat_file)
    (rest_length_cap : Z) : result output :=
  let rep := mf_repetition e1 ++ mf_repetition e2 ++ mf_repetition e3 in
  let move := mf_stimulus e1 in
  m1 ← py_max_squeezed move;
  let move := move ++ offset_nonzero dt m1 (mf_stimulus e2) in
  m2 ← Np.py_max move;
  let move := move ++ offset_nonzero dt m2 (mf_stimulus e3) in
  let move := map Np.wrap8 move in
  segment 100 rep move rest_length_cap.

Definition import_db2_unrefined (e1 e2 e3 : mat_file) (rest_length_cap : Z)
  : result output :=
  let move := mf_stimulus e1 ++ mf_stimulus e2 in
  rep3 ← Np.set (mf_repetition e3) (-1) 0;
  let rep := mf_repetition e1 ++ mf_repetition e2 ++ rep3 in
  stim ← Np.set (mf_stimulus e3) (-1) 0;
  let move := move ++ remap_force 40 stim in
  let move := map Np.wrap8 move in
  segment 2000 rep move rest_length_cap.

End Unrefined.

(** ** One-hot encoding *)

Module Cat.

(** [np.zeros((n, nb_classes))] *)
Definition zeros (n nb_classes : Z) : result (list (list Q)) :=
  if decide (n < 0 ∨ nb_classes < 0) then Raise ValueError
  else Ok (replicate (Z.to_nat n) (replicate (Z.to_nat nb_classes) 0%Q)).

(** [categorical[i, k] = 1] *)
Definition set_cell (categorical : list (list Q)) (i k : Z)
  : result (list (list Q)) :=
  row ← Np.get categorical i;
  row ← Np.set row k 1%Q;
  Np.set categorical i row.

(** [categorical[np.arange(n), y] = 1]: the cells [(i, y[i])] are set. *)
Fixpoint set_cells (categorical : list (list Q)) (cells : list (Z * Z))
  : result (list (list Q)) :=
  match cells with
  | [] => Ok categorical
  | (i, k) :: cells' =>
      categorical ← set_cell categorical i k;
      set_cells categorical cells'
  end.

(** [to_categorical(y, nb_classes)]: [y] is the class vector once
    flattened, and [nb_classes = None] the default.  [not nb_classes] also
    holds of 0, and [np.max] of an empty vector is a [ValueError]. *)
Definition to_categorical (y : list Z) (nb_classes : option Z)
  : result (list (list Q)) :=
  nb_classes ←
    match nb_classes with
    | Some nb =>
        if decide (nb = 0) then (m ← Np.py_max y; Ok (m + 1)) else Ok nb
    | None => m ← Np.py_max y; Ok (m + 1)
    end;
  let n := Z.of_nat (length y) in
  categorical ← zeros n nb_classes;
  set_cells categorical (zip (Np.range n) y).

End Cat.

(** ** Notions used to state the properties below *)

Module Notions.

(** The id the force exercise of raw label [x] gets above [base]. *)
Definition force_label (base x : Z) : Z :=
  if decide (x = 1) then base + 1
  else if decide (x = 2) then base + 2
  else if decide (x = 4) then base + 3
  else if decide (x = 6) then base + 4
  else if decide (x = 8) then base + 5
  else if decide (x = 9) then base + 6
  else if decide (x = 16) then base + 7
  else if decide (x = 32) then base + 8
  else if decide (x = 40) then base + 9
  else x.

(** What [a[np.where(a == old)] = new] does to one cell. *)
Definition replace_val (old new x : Z) : Z :=
  if decide (x = old) then new else x.

(** The row of [nb] cells holding 1 at position [j] and 0 elsewhere. *)
Definition unit_row (nb j : nat) : list Q :=
  map (fun c => if decide (c = j) then 1%Q else 0%Q) (seq 0 nb).

(** The class a binary row encodes: the position of its first 1, which is
    what [np.argmax] returns on a row of zeros and ones holding a 1. *)
Definition decode (row : list Q) : option Z :=
  (fun p => Z.of_nat p.1) <$> list_find (fun q => Qeq_bool q 1 = true) row.

(** The repetition index of the [j]-th block. *)
Definition block_label (nb_unique_reps : Z) (j : nat) : Z :=
  if decide (1 <= nb_unique_reps) then Z.of_nat j `mod` nb_unique_reps + 1
  else 1.

(** The index following [l] in the cycle: [cur_rep += 1] and the reset. *)
Definition next_label (nb_unique_reps l : Z) : Z :=
  if decide (l + 1 > nb_unique_reps) then 1 else l + 1.

(** The label stream from position [hi] on, once the blocks [rows] are
    filled in turn, the first with index [l]: zeros up to a block, the
    block's index (as an [int8]) throughout it. *)
Fixpoint paint (nb_unique_reps hi l : Z) (rows : list (Z * Z)) : list Z :=
  match rows with
  | [] => []
  | se :: rows' =>
      replicate (Z.to_nat (se.1 - hi)) 0
        ++ replicate (Z.to_nat (se.2 + 1 - se.1)) (Np.wrap8 l)
        ++ paint nb_unique_reps (se.2 + 1) (next_label nb_unique_reps l) rows'
  end.

(** Blocks in ascending order from [hi] on, none empty, none overlapping. *)
Fixpoint ordered (hi : Z) (rows : list (Z * Z)) : Prop :=
  match rows with
  | [] => True
  | se :: rows' => hi <= se.1 ∧ se.1 <= se.2 ∧ ordered (se.2 + 1) rows'
  end.

(** Invariant of the balanced loop: the pool holds no row twice, the folds
    completed are distinct and none of them is left in the pool, and the
    folds before [first] are those of the table [fresh] the loop resets
    to. *)
Definition distinct_inv (fresh : list (list Z)) (first : Z) (st : Split.state)
  : Prop :=
  let done_rows :=
    take (Z.to_nat (Split.st_cur_split st)) (Split.st_test_reps st) in
  NoDup (Split.st_all_combos st) ∧ NoDup done_rows ∧
  (∀ row, row ∈ done_rows -> row ∉ Split.st_all_combos st) ∧
  take (Z.to_nat first) (Split.st_test_reps st) = take (Z.to_nat first) fresh.

(** Forgetting the signal of an importer's result. *)
Definition unrefined (o : Seg.output) : Unrefined.output :=
  Unrefined.Output (Seg.rep o) (Seg.move o) (Seg.rep_regions o) (Seg.nb_capped o).

End Notions.

(** * Properties *)

(** ** numpy primitives *)

Section np_lemmas.

Lemma norm_index_nonneg (n : nat) (i : Z) :
  0 <= i < Z.of_nat n -> Np.norm_index n i = Ok (Z.to_nat i).
Proof. intros H. unfold Np.norm_index. by rewrite decide_True. Qed.

Lemma norm_index_neg (n : nat) (i : Z) :
  - Z.of_nat n <= i < 0 -> Np.norm_index n i = Ok (Z.to_nat (i + Z.of_nat n)).
Proof.
  intros H. unfold Np.norm_index.
  rewrite decide_False by lia. by rewrite decide_True.
Qed.

Lemma get_nat {A : Type} (a : list A) (k : nat) (x : A) :
  a !! k = Some x -> Np.get a (Z.of_nat k) = Ok x.
Proof.
  intros H. unfold Np.get.
  rewrite norm_index_nonneg by (apply lookup_lt_Some in H; lia).
  cbn. rewrite Nat2Z.id. by rewrite H.
Qed.

Lemma get_Ok_lookup {A : Type} (a : list A) (i : Z) (x : A) :
  Np.get a i = Ok x -> ∃ k, Np.norm_index (length a) i = Ok k ∧ a !! k = Some x.
Proof.
  unfold Np.get. destruct (Np.norm_index (length a) i) as [k|] eqn:E; cbn; [|done].
  destruct (a !! k) eqn:E'; [|done]. intros [= <-]. eauto.
Qed.

Lemma set_nat {A : Type} (a : list A) (k : nat) (v : A) :
  (k < length a)%nat -> Np.set a (Z.of_nat k) v = Ok (<[k := v]> a).
Proof.
  intros H. unfold Np.set. rewrite norm_index_nonneg by lia.
  cbn. by rewrite Nat2Z.id.
Qed.

Lemma round_half_bounds (x : Z) :
  x - 1 <= 2 * Np.round_half x <= x + 1.
Proof.
  unfold Np.round_half. cbv zeta.
  pose proof (Z.div_mod x 2 ltac:(lia)) as Hdm.
  rewrite Zmod_even in Hdm.
  destruct (Z.even x); destruct (Z.even (x `div` 2)); lia.
Qed.

Lemma round_half_even (x : Z) : Np.round_half (2 * x) = x.
Proof.
  unfold Np.round_half. cbv zeta. rewrite Z.even_mul. cbn [Z.even orb].
  rewrite (Z.mul_comm 2 x), Z.div_mul by lia. done.
Qed.

Lemma wrap8_range (z : Z) : -128 <= Np.wrap8 z <= 127.
Proof.
  unfold Np.wrap8. pose proof (Z.mod_pos_bound (z + 128) 256 ltac:(lia)). lia.
Qed.

Lemma wrap8_id (z : Z) : -128 <= z <= 127 -> Np.wrap8 z = z.
Proof. intros H. unfold Np.wrap8. rewrite Z.mod_small by lia. lia. Qed.

Lemma wrap8_le (z : Z) : -128 <= z -> Np.wrap8 z <= z.
Proof.
  intros H. unfold Np.wrap8.
  pose proof (Z.mod_le (z + 128) 256 ltac:(lia) ltac:(lia)). lia.
Qed.

Lemma length_diff (a : list Z) : length (Np.diff a) = (length a - 1)%nat.
Proof.
  induction a as [|x [|y t] IH]; [done..|].
  change (Np.diff (x :: y :: t)) with (Np.wrap8 (y - x) :: Np.diff (y :: t)).
  cbn [length] in *. lia.
Qed.

Lemma nonzero_from_bounds (i : Z) (a : list Z) :
  Forall (fun x => i <= x < i + Z.of_nat (length a)) (Np.nonzero_from i a).
Proof.
  revert i. induction a as [|x t IH]; intros i;
    cbn [Np.nonzero_from length]; [constructor|].
  specialize (IH (i + 1)).
  case_decide.
  - eapply Forall_impl; [exact IH|]. intros y Hy; cbn beta in *. lia.
  - constructor; [lia|]. eapply Forall_impl; [exact IH|].
    intros y Hy; cbn beta in *. lia.
Qed.

Lemma nonzero_from_sorted (i : Z) (a : list Z) :
  StronglySorted Z.lt (Np.nonzero_from i a).
Proof.
  revert i. induction a as [|x t IH]; intros i;
    cbn [Np.nonzero_from]; [constructor|].
  case_decide; [apply IH|].
  constructor; [apply IH|].
  eapply Forall_impl; [apply nonzero_from_bounds|].
  intros y Hy; cbn beta in *. lia.
Qed.

Lemma move_regions_sorted (move : list Z) :
  StronglySorted Z.lt (Seg.move_regions move).
Proof. apply nonzero_from_sorted. Qed.

Lemma move_regions_bounds (move : list Z) :
  Forall (fun x => 0 <= x <= Z.of_nat (length move) - 2) (Seg.move_regions move).
Proof.
  unfold Seg.move_regions, Np.nonzero.
  eapply Forall_impl; [apply nonzero_from_bounds|].
  intros x Hx; cbn beta in *. rewrite length_diff in Hx. lia.
Qed.

End np_lemmas.

(** ** The repetition segmenter *)

Section segmenter.

Context (fs cap nb_unique_reps : Z) (mr : list Z).

Local Abbreviation body := (Seg.body fs cap nb_unique_reps mr).
Local Abbreviation loop := (Seg.loop fs cap nb_unique_reps mr).

Lemma get_nonneg {A : Type} (a : list A) (i : Z) (x : A) :
  0 <= i -> Np.get a i = Ok x -> a !! Z.to_nat i = Some x.
Proof.
  intros Hi H. apply get_Ok_lookup in H as (k & Hk & Hx).
  unfold Np.norm_index in Hk. repeat case_decide; simplify_eq; [done|lia].
Qed.

Lemma set_nonneg {A : Type} (a a' : list A) (i : Z) (v : A) :
  0 <= i -> Np.set a i v = Ok a' ->
  (Z.to_nat i < length a)%nat ∧ a' = <[Z.to_nat i := v]> a.
Proof.
  intros Hi. unfold Np.set, Np.norm_index.
  repeat case_decide; cbn; intros; simplify_eq; [split; [lia|done]|lia].
Qed.

Lemma rows_lookup (t : list Z) (i : nat) (a b : Z) :
  Spec.rows t !! i = Some (a, b) <->
  t !! (2 * i)%nat = Some a ∧ t !! (2 * i + 1)%nat = Some b.
Proof.
  revert t. induction i as [|i IH]; intros [|s [|e t]];
    cbn [Spec.rows].
  1,2,4,5: rewrite ?lookup_nil; cbn; split; [intros [=]|intros [[=] [=]]].
  - cbn. split; [intros [= -> ->]|intros [[= ->] [= ->]]]; done.
  - replace (2 * S i)%nat with (S (S (2 * i))) by lia.
    replace (S (S (2 * i)) + 1)%nat with (S (S (2 * i + 1))) by lia.
    cbn [lookup list_lookup]. apply IH.
Qed.

Lemma rests_lookup (i : nat) (a b : Z) :
  Spec.rests mr !! i = Some (a, b) <->
  mr !! (2 * i + 1)%nat = Some a ∧ mr !! (2 * i + 2)%nat = Some b.
Proof.
  unfold Spec.rests. rewrite rows_lookup.
  destruct mr as [|t0 t]; cbn [tail].
  - rewrite !lookup_nil. split; [intros [[=] _]|intros [[=] _]].
  - replace (2 * i + 2)%nat with (S (2 * i + 1)) by lia.
    replace (2 * i + 1)%nat with (S (2 * i)) at 2 by lia. done.
Qed.

(** What one pass of the loop does, read off [Seg.body]. *)
Lemma body_Ok (i : nat) (st st' : Seg.state) :
  body (Z.of_nat i) st = Ok st' ->
  ∃ a b,
    Spec.rests mr !! i = Some (a, b) ∧
    (2 * i + 1 < length (Seg.st_rep_regions st))%nat ∧
    let m := Np.round_half (a + b) + 1 in
    let next := if decide (Seg.st_cur_rep st + 1 > nb_unique_reps)
                then 1 else Seg.st_cur_rep st + 1 in
    if decide (Spec.over_cap (cap * fs) (a, b)) then
      st' = Seg.State
              (Np.slice_fill (Seg.st_rep st) (Seg.st_last_end_idx st)
                 (a + cap * fs) (Np.wrap8 (Seg.st_cur_rep st)))
              (<[(2 * i + 1)%nat := a + cap * fs - 1]>
                 (<[(2 * i)%nat := Seg.st_last_end_idx st]> (Seg.st_rep_regions st)))
              (b - cap * fs) (Seg.st_nb_capped st + 2) next
    else
      st' = Seg.State
              (Np.slice_fill (Seg.st_rep st) (Seg.st_last_end_idx st) m
                 (Np.wrap8 (Seg.st_cur_rep st)))
              (<[(2 * i + 1)%nat := m - 1]>
                 (<[(2 * i)%nat := Seg.st_last_end_idx st]> (Seg.st_rep_regions st)))
              m (Seg.st_nb_capped st) next.
Proof.
  unfold Seg.body. intros H.
  destruct (Np.set _ _ _) as [rr|] eqn:Hrr; cbn in H; [|done].
  destruct (Np.get mr (2 * (Z.of_nat i + 1) - 1)) as [a|] eqn:Ha; cbn in H; [|done].
  destruct (Np.get mr (2 * (Z.of_nat i + 1))) as [b|] eqn:Hb; cbn in H; [|done].
  apply get_nonneg in Ha; [|lia]. apply get_nonneg in Hb; [|lia].
  apply set_nonneg in Hrr as [Hlen ->]; [|lia].
  replace (Z.to_nat (2 * (Z.of_nat i + 1) - 1)) with (2 * i + 1)%nat in Ha by lia.
  replace (Z.to_nat (2 * (Z.of_nat i + 1))) with (2 * i + 2)%nat in Hb by lia.
  replace (Z.to_nat (2 * Z.of_nat i)) with (2 * i)%nat in * by lia.
  exists a, b. split; [by apply rests_lookup|].
  cbv zeta. unfold Spec.over_cap; cbn [fst snd].
  case_decide as Hcap.
  - rewrite decide_False by lia.
    destruct (Np.set _ _ _) as [rr'|] eqn:Hrr'; cbn in H; [|done].
    apply set_nonneg in Hrr' as [Hlen' ->]; [|lia].
    rewrite length_insert in Hlen'.
    replace (Z.to_nat (2 * Z.of_nat i + 1)) with (2 * i + 1)%nat in * by lia.
    split; [done|]. by simplify_eq.
  - rewrite decide_True by lia.
    destruct (Np.set _ _ _) as [rr'|] eqn:Hrr'; cbn in H; [|done].
    apply set_nonneg in Hrr' as [Hlen' ->]; [|lia].
    rewrite length_insert in Hlen'.
    replace (Z.to_nat (2 * Z.of_nat i + 1)) with (2 * i + 1)%nat in * by lia.
    split; [done|]. by simplify_eq.
Qed.

Lemma body_run (i : nat) (st : Seg.state) (a b : Z) :
  Spec.rests mr !! i = Some (a, b) ->
  (2 * i + 1 < length (Seg.st_rep_regions st))%nat ->
  let m := Np.round_half (a + b) + 1 in
  let next := if decide (Seg.st_cur_rep st + 1 > nb_unique_reps)
              then 1 else Seg.st_cur_rep st + 1 in
  body (Z.of_nat i) st =
    Ok (if decide (Spec.over_cap (cap * fs) (a, b)) then
          Seg.State
            (Np.slice_fill (Seg.st_rep st) (Seg.st_last_end_idx st)
               (a + cap * fs) (Np.wrap8 (Seg.st_cur_rep st)))
            (<[(2 * i + 1)%nat := a + cap * fs - 1]>
               (<[(2 * i)%nat := Seg.st_last_end_idx st]> (Seg.st_rep_regions st)))
            (b - cap * fs) (Seg.st_nb_capped st + 2) next
        else
          Seg.State
            (Np.slice_fill (Seg.st_rep st) (Seg.st_last_end_idx st) m
               (Np.wrap8 (Seg.st_cur_rep st)))
            (<[(2 * i + 1)%nat := m - 1]>
               (<[(2 * i)%nat := Seg.st_last_end_idx st]> (Seg.st_rep_regions st)))
            m (Seg.st_nb_capped st) next).
Proof.
  intros Hab Hlen. apply rests_lookup in Hab as [Ha Hb]. cbv zeta.
  unfold Seg.body.
  replace (2 * Z.of_nat i) with (Z.of_nat (2 * i)) by lia.
  rewrite set_nat by lia. cbn [mbind result_bind rbind].
  replace (2 * (Z.of_nat i + 1) - 1) with (Z.of_nat (2 * i + 1)) by lia.
  rewrite (get_nat _ _ _ Ha). cbn [mbind result_bind rbind].
  replace (2 * (Z.of_nat i + 1)) with (Z.of_nat (2 * i + 2)) by lia.
  rewrite (get_nat _ _ _ Hb). cbn [mbind result_bind rbind].
  replace (Z.of_nat (2 * i) + 1) with (Z.of_nat (2 * i + 1)) by lia.
  unfold Spec.over_cap; cbn [fst snd].
  case_decide.
  - rewrite decide_False by lia.
    rewrite set_nat by (rewrite length_insert; lia). done.
  - rewrite decide_True by lia.
    rewrite set_nat by (rewrite length_insert; lia). done.
Qed.

(** The counter after [n] passes from index [i]. *)
Lemma loop_nb_capped (n i : nat) (st st' : Seg.state) :
  loop (map Z.of_nat (seq i n)) st = Ok st' ->
  Seg.st_nb_capped st' =
    Seg.st_nb_capped st +
    2 * Z.of_nat (length (filter (Spec.over_cap (cap * fs))
                            (take n (drop i (Spec.rests mr))))).
Proof.
  revert i st. induction n as [|n IH]; intros i st H.
  - cbn in H. simplify_eq. rewrite take_0. cbn. lia.
  - cbn [seq map Seg.loop] in H.
    destruct (body (Z.of_nat i) st) as [st1|] eqn:Hb; cbn in H; [|done].
    apply IH in H. apply body_Ok in Hb as (a & b & Hab & _ & Hst).
    cbv zeta in Hst.
    rewrite (drop_S _ _ _ Hab). cbn [take]. rewrite filter_cons.
    case_decide; subst st1; cbn in H |- *; lia.
Qed.

Local Abbreviation labels_bounded := (Spec.labels_bounded nb_unique_reps).

Lemma Forall_slice_fill {A : Type} (P : A -> Prop) (a : list A) (lo hi : Z) (v : A) :
  Forall P a -> P v -> Forall P (Np.slice_fill a lo hi v).
Proof.
  intros Ha Hv. unfold Np.slice_fill. cbv zeta. case_decide; [|done].
  rewrite !Forall_app. split_and!.
  - by apply Forall_take.
  - by apply Forall_replicate.
  - by apply Forall_drop.
Qed.

Lemma body_labels_bounded (i : nat) (st st' : Seg.state) :
  labels_bounded st -> body (Z.of_nat i) st = Ok st' -> labels_bounded st'.
Proof.
  intros [Hrep Hcur] Hb. apply body_Ok in Hb as (a & b & _ & _ & Hst).
  cbv zeta in Hst.
  assert (Np.wrap8 (Seg.st_cur_rep st) <= Z.max 1 nb_unique_reps) as Hw.
  { pose proof (wrap8_le (Seg.st_cur_rep st)). lia. }
  case_decide; subst st'; (split; cbn; [by apply Forall_slice_fill|]);
    case_decide; lia.
Qed.

Lemma loop_labels_bounded (n i : nat) (st st' : Seg.state) :
  labels_bounded st -> loop (map Z.of_nat (seq i n)) st = Ok st' ->
  labels_bounded st'.
Proof.
  revert i st. induction n as [|n IH]; intros i st Hst H.
  - cbn in H. by simplify_eq.
  - cbn [seq map Seg.loop] in H.
    destruct (body (Z.of_nat i) st) as [st1|] eqn:Hb; cbn in H; [|done].
    eapply IH; [|exact H]. by eapply body_labels_bounded.
Qed.

Lemma insert_two (pre rest : list Z) (x y s e : Z) (i : nat) :
  length pre = (2 * i)%nat ->
  <[(2 * i + 1)%nat := e]> (<[(2 * i)%nat := s]> (pre ++ x :: y :: rest)) =
  (pre ++ [s; e]) ++ rest.
Proof.
  intros Hlen.
  rewrite insert_app_r_alt by lia. rewrite insert_app_r_alt by lia.
  replace (2 * i - length pre)%nat with 0%nat by lia.
  replace (2 * i + 1 - length pre)%nat with 1%nat by lia.
  cbn. by rewrite <- app_assoc.
Qed.

(** The loop computes [Spec.walk]: started on a table [pre ++ rest] with
    [2 * i] cells done, it appends the blocks of the rests it walks. *)
Lemma loop_walk (evs : list (Z * Z)) (i : nat) (st : Seg.state) (pre rest : list Z) :
  Seg.st_rep_regions st = pre ++ rest ->
  length pre = (2 * i)%nat ->
  (2 * length evs <= length rest)%nat ->
  (forall j ab, evs !! j = Some ab -> Spec.rests mr !! (i + j)%nat = Some ab) ->
  ∃ st',
    loop (map Z.of_nat (seq i (length evs))) st = Ok st' ∧
    Seg.st_rep_regions st' =
      pre ++ Spec.flat (Spec.walk (cap * fs) (Seg.st_last_end_idx st) evs).1
          ++ drop (2 * length evs) rest ∧
    Seg.st_last_end_idx st' = (Spec.walk (cap * fs) (Seg.st_last_end_idx st) evs).2.
Proof.
  revert i st pre rest.
  induction evs as [|[a b] evs IH]; intros i st pre rest Hrr Hpre Hlen Hev.
  - exists st. cbn. by rewrite drop_0.
  - destruct rest as [|x [|y rest]]; cbn [length] in Hlen; [lia..|].
    assert (Spec.rests mr !! i = Some (a, b)) as Hab.
    { rewrite <- (Nat.add_0_r i). by apply Hev. }
    assert (forall j ab, evs !! j = Some ab ->
                         Spec.rests mr !! (S i + j)%nat = Some ab) as Hev'.
    { intros j ab Hj. replace (S i + j)%nat with (i + S j)%nat by lia.
      by apply Hev. }
    pose proof (body_run i st a b Hab) as Hrun. cbv zeta in Hrun.
    rewrite Hrr in Hrun. rewrite !insert_two in Hrun by done.
    specialize (Hrun ltac:(rewrite length_app; cbn; lia)).
    cbn [length seq map Seg.loop]. rewrite Hrun.
    cbn [mbind result_bind rbind Spec.walk].
    case_decide as Hcap; cbn [fst snd] in *.
    + match goal with |- context [loop _ ?s1] =>
        destruct (IH (S i) s1 (pre ++ [Seg.st_last_end_idx st; a + cap * fs - 1]) rest)
          as (st' & Hl & Hr & Hc)
      end; [done | rewrite length_app; cbn; lia | lia | done |].
      exists st'. split; [exact Hl|]. cbn [Seg.st_last_end_idx] in *.
      split; [|exact Hc]. rewrite Hr.
      replace (2 * S (length evs))%nat with (S (S (2 * length evs))) by lia.
      cbn [Spec.flat fst snd drop]. rewrite <- !app_assoc. reflexivity.
    + match goal with |- context [loop _ ?s1] =>
        destruct (IH (S i) s1
                    (pre ++ [Seg.st_last_end_idx st; Np.round_half (a + b) + 1 - 1])
                    rest)
          as (st' & Hl & Hr & Hc)
      end; [done | rewrite length_app; cbn; lia | lia | done |].
      exists st'. split; [exact Hl|]. cbn [Seg.st_last_end_idx] in *.
      split; [|exact Hc]. rewrite Hr.
      replace (2 * S (length evs))%nat with (S (S (2 * length evs))) by lia.
      cbn [Spec.flat fst snd drop]. rewrite <- !app_assoc. reflexivity.
Qed.

Lemma rows_flat_app (rs : list (Z * Z)) (t : list Z) :
  Spec.rows (Spec.flat rs ++ t) = rs ++ Spec.rows t.
Proof. induction rs as [|[s e] rs IH]; cbn; [done|]. by rewrite IH. Qed.

Lemma length_flat (rs : list (Z * Z)) :
  length (Spec.flat rs) = (2 * length rs)%nat.
Proof. induction rs as [|[s e] rs IH]; cbn; [done|]. rewrite IH. lia. Qed.

Lemma length_rows_odd (t : list Z) (k : nat) :
  length t = (2 * k + 1)%nat -> length (Spec.rows t) = k.
Proof.
  revert t. induction k as [|k IH]; intros [|s [|e t]] Hlen; cbn in *; try lia.
  f_equal. apply IH. lia.
Qed.

Lemma length_walk (c s : Z) (evs : list (Z * Z)) :
  length (Spec.walk c s evs).1 = length evs.
Proof.
  revert s. induction evs as [|ab evs IH]; intros s; cbn; [done|].
  case_decide; cbn; by rewrite IH.
Qed.

End segmenter.

(** ** Properties of the walk over the rests *)

Section walk.

Context (c : Z) (Hc : 0 <= c).

Lemma sorted_chain (p : Z) (t : list Z) :
  StronglySorted Z.lt (p :: t) -> Spec.chain p (Spec.rows t).
Proof.
  remember (length t) as n eqn:Hn. revert p t Hn.
  induction (lt_wf n) as [n _ IH]; intros p [|a [|b t]] Hn Hs; cbn; [done..|].
  apply StronglySorted_inv in Hs as [Hs Hp].
  apply StronglySorted_inv in Hs as [Hs Ha].
  apply Forall_cons in Hp as [Hpa _]. apply Forall_cons in Ha as [Hab _].
  split_and!; [done..|].
  eapply (IH (length t)); [cbn in Hn; lia | done | done].
Qed.

Lemma chain_end_ge (p : Z) (evs : list (Z * Z)) :
  Spec.chain p evs -> p <= Spec.chain_end p evs.
Proof.
  revert p. induction evs as [|[a b] evs IH]; intros p; cbn; [lia|].
  intros (? & ? & Hch). specialize (IH _ Hch). lia.
Qed.

Lemma sorted_chain_end (k : nat) (p tl : Z) (t : list Z) :
  StronglySorted Z.lt (p :: t) -> length t = (2 * k + 1)%nat ->
  t !! (2 * k)%nat = Some tl ->
  Spec.chain_end p (Spec.rows t) < tl.
Proof.
  revert p t. induction k as [|k IH]; intros p [|a [|b t]] Hs Hlen Htl;
    cbn in Hlen; try lia.
  - cbn in *. simplify_eq. apply StronglySorted_inv in Hs as [_ Hp].
    by apply Forall_cons in Hp as [? _].
  - apply StronglySorted_inv in Hs as [Hs _].
    apply StronglySorted_inv in Hs as [Hs _].
    cbn [Spec.rows Spec.chain_end snd]. apply IH; [done|lia|].
    replace (2 * S k)%nat with (S (S (2 * k))) in Htl by lia. done.
Qed.

Lemma sum_list_cons (x : Z) (l : list Z) :
  Spec.sum_list (x :: l) = x + Spec.sum_list l.
Proof. reflexivity. Qed.

Lemma sum_list_app (l1 l2 : list Z) :
  Spec.sum_list (l1 ++ l2) = Spec.sum_list l1 + Spec.sum_list l2.
Proof.
  induction l1 as [|x l1 IH]; [done|].
  cbn [app]. rewrite !sum_list_cons, IH. lia.
Qed.

(** Block lengths telescope: what the walk assigns is the distance
    covered minus the samples skipped at capped rests. *)
Lemma walk_sum (s : Z) (evs : list (Z * Z)) :
  Spec.sum_list (map (fun se => se.2 - se.1 + 1) (Spec.walk c s evs).1) =
  (Spec.walk c s evs).2 - s - Spec.sum_list (map (Spec.trunc_gap c) evs).
Proof.
  revert s. induction evs as [|[a b] evs IH]; intros s; [cbn; lia|].
  cbn [Spec.walk map]. rewrite sum_list_cons. unfold Spec.trunc_gap at 1.
  case_decide; cbn [fst snd map]; rewrite sum_list_cons, IH; cbn [fst snd]; lia.
Qed.

(** Every block the walk closes is non-empty, and the cursor stays at or
    before the sample following the last transition seen. *)
Lemma walk_rows (p s : Z) (evs : list (Z * Z)) :
  Spec.chain p evs -> s <= p + 1 -> (c <= 1 -> s <= p) ->
  Forall (fun se => se.1 <= se.2) (Spec.walk c s evs).1 ∧
  (Spec.walk c s evs).2 <= Spec.chain_end p evs + 1 ∧
  (c <= 1 -> (Spec.walk c s evs).2 <= Spec.chain_end p evs).
Proof.
  revert p s. induction evs as [|[a b] evs IH]; intros p s Hch Hs Hs1; cbn.
  { split_and!; [constructor|done..]. }
  destruct Hch as (Hpa & Hab & Hch); cbn [fst snd] in *.
  pose proof (round_half_bounds (a + b)) as Hr.
  unfold Spec.over_cap; cbn [fst snd].
  case_decide as Hcap; cbn [fst snd].
  - destruct (IH b (b - c) Hch ltac:(lia) ltac:(lia)) as (H1 & H2 & H3).
    split_and!; [|done..]. constructor; [cbn; lia|done].
  - destruct (IH b (Np.round_half (a + b) + 1) Hch ltac:(lia) ltac:(lia))
      as (H1 & H2 & H3).
    split_and!; [|done..]. constructor; [cbn; lia|done].
Qed.

(** Block starts, followed by the final cursor, ascend strictly. *)
Lemma walk_starts (p s : Z) (evs : list (Z * Z)) :
  Spec.chain p evs -> s <= p + 1 -> (c <= 1 -> s <= p) ->
  let st := map fst (Spec.walk c s evs).1 ++ [(Spec.walk c s evs).2] in
  StronglySorted Z.lt st ∧ Forall (fun x => s <= x) st.
Proof.
  revert p s. induction evs as [|[a b] evs IH]; intros p s Hch Hs Hs1; cbn.
  { split; repeat constructor. lia. }
  destruct Hch as (Hpa & Hab & Hch); cbn [fst snd] in *.
  pose proof (round_half_bounds (a + b)) as Hr.
  unfold Spec.over_cap; cbn [fst snd].
  case_decide as Hcap; cbn [fst snd map app].
  - destruct (IH b (b - c) Hch ltac:(lia) ltac:(lia)) as (H1 & H2).
    cbv zeta in H1, H2.
    assert (s < b - c) by lia.
    split; constructor; try done; try lia;
      (eapply Forall_impl; [exact H2|]); intros x Hx; cbn beta in *; lia.
  - destruct (IH b (Np.round_half (a + b) + 1) Hch ltac:(lia) ltac:(lia))
      as (H1 & H2).
    cbv zeta in H1, H2.
    split; constructor; try done; try lia;
      (eapply Forall_impl; [exact H2|]); intros x Hx; cbn beta in *; lia.
Qed.

Lemma walk_head (s : Z) (evs : list (Z * Z)) :
  (map fst (Spec.walk c s evs).1 ++ [(Spec.walk c s evs).2]) !! 0%nat = Some s.
Proof. destruct evs as [|ab evs]; cbn; [done|]. by case_decide. Qed.

(** Between a block and the start of the next one lie exactly the
    samples its rest was truncated by. *)
Lemma walk_links (s : Z) (evs : list (Z * Z)) (i : nat) (se ab : Z * Z) (n : Z) :
  (Spec.walk c s evs).1 !! i = Some se ->
  evs !! i = Some ab ->
  (map fst (Spec.walk c s evs).1 ++ [(Spec.walk c s evs).2]) !! S i = Some n ->
  n - se.2 - 1 = Spec.trunc_gap c ab.
Proof.
  revert s i. induction evs as [|[a b] evs IH]; intros s i; [done|].
  cbn [Spec.walk]. destruct i as [|i].
  - intros H1 [= <-]. revert H1. unfold Spec.trunc_gap.
    destruct (decide (Spec.over_cap c (a, b))) as [Hcap|Hcap];
      cbn [fst snd map app]; intros [= <-]; cbn [fst snd];
      rewrite lookup_cons, walk_head; intros [= <-]; lia.
  - destruct (decide (Spec.over_cap c (a, b))) as [Hcap|Hcap];
      cbn [fst snd map app]; intros H1 H2 H3; eapply IH; eauto.
Qed.

End walk.

Section segment_valid.

Context (fs : Z) (emg : list (list Q)) (rep0 move : list Z) (cap : Z).

Local Abbreviation mr := (Seg.move_regions move).

Local Abbreviation end_idx := (Spec.end_idx (Z.of_nat (length emg)) mr).

(** On a stream whose transitions pair up the segmenter returns, and its
    boundary table is the one [Spec.walk] computes. *)
Lemma segment_paired (k : nat) :
  length mr = (2 * S k)%nat ->
  let w := Spec.walk (cap * fs) (Spec.lead_gap mr) (Spec.rests mr) in
  ∃ o,
    Seg.segment fs emg rep0 move cap = Ok o ∧
    Spec.rows (Seg.rep_regions o) = w.1 ++ [(w.2, end_idx - 1)] ∧
    Seg.emg o = emg ∧ Seg.move o = move.
Proof.
  intros Hlen w. unfold Seg.segment. cbv zeta. fold mr.
  destruct (lookup_lt_is_Some_2 mr 0) as [t0 Ht0]; [lia|].
  destruct (lookup_lt_is_Some_2 mr (length mr - 1)) as [tl Htl]; [lia|].
  change (Np.get mr 0) with (Np.get mr (Z.of_nat 0)).
  rewrite (get_nat _ 0 _ Ht0). cbn [mbind result_bind rbind].
  rewrite Hlen. replace (Z.of_nat (2 * S k)) with (2 * Z.of_nat (S k)) by lia.
  rewrite round_half_even.
  unfold Np.range. replace (Z.to_nat (Z.of_nat (S k) - 1)) with k by lia.
  assert (length (Spec.rests mr) = k) as Hk.
  { apply length_rows_odd. destruct mr; cbn in *; lia. }
  edestruct (loop_walk fs cap (Z.of_nat (length (Np.unique rep0)) - 1) mr
               (Spec.rests mr) 0
               (Seg.State (replicate (length rep0) 0) (replicate (2 * S k) 0)
                  (Np.round_half t0) 0 1)
               [] (replicate (2 * S k) 0))
    as (st & Hl & Hr & Hc); [reflexivity | done | | done |].
  { rewrite length_replicate. lia. }
  rewrite Hk in Hl. rewrite Hl. cbn [mbind result_bind rbind].
  cbn [Seg.st_last_end_idx] in Hr, Hc.
  assert (Np.round_half t0 = Spec.lead_gap mr) as Hlead.
  { unfold Spec.lead_gap. by rewrite (list_lookup_total_correct _ _ _ Ht0). }
  rewrite Hlead in Hr, Hc. fold w in Hr, Hc.
  assert (Np.get mr (-1) = Ok tl) as ->.
  { unfold Np.get. rewrite norm_index_neg by lia. cbn.
    replace (Z.to_nat (-1 + Z.of_nat (length mr))) with (length mr - 1)%nat by lia.
    by rewrite Htl. }
  cbn [mbind result_bind rbind].
  rewrite Hk, drop_replicate in Hr.
  replace (2 * S k - 2 * k)%nat with 2%nat in Hr by lia. cbn [replicate app] in Hr.
  assert (length (Spec.flat w.1) = (2 * k)%nat) as Hfl.
  { rewrite length_flat. unfold w. by rewrite length_walk, Hk. }
  rewrite Hr. unfold Np.set.
  rewrite norm_index_neg by (rewrite length_app, Hfl; cbn; lia).
  cbn [mbind result_bind rbind].
  rewrite length_insert.
  rewrite norm_index_neg by (rewrite length_app, Hfl; cbn; lia).
  cbn [mbind result_bind rbind].
  eexists. split; [reflexivity|]. cbn [Seg.rep_regions Seg.emg Seg.move].
  split; [|done].
  rewrite length_app, Hfl. cbn [length].
  replace (Z.to_nat (-2 + Z.of_nat (2 * k + 2))) with (2 * k + 0)%nat by lia.
  replace (Z.to_nat (-1 + Z.of_nat (2 * k + 2))) with (2 * k + 1)%nat by lia.
  rewrite <- Hfl.
  rewrite (insert_app_r (Spec.flat w.1) [0; 0] 0).
  rewrite (insert_app_r (Spec.flat w.1) _ 1).
  cbn. rewrite rows_flat_app. cbn.
  rewrite Hc. unfold Spec.end_idx.
  by rewrite (list_lookup_total_correct _ _ _ Htl).
Qed.

End segment_valid.

(** ** Assigned samples *)

Section fills.

Lemma wrap8_nonzero (z : Z) : 1 <= z <= 255 -> Np.wrap8 z ≠ 0.
Proof.
  intros Hz. unfold Np.wrap8. destruct (decide (z <= 127)).
  - rewrite Z.mod_small by lia. lia.
  - replace (z + 128) with (z - 128 + 1 * 256) by lia.
    rewrite Z.mod_add, Z.mod_small by lia. lia.
Qed.

Lemma assigned_app (l1 l2 : list Z) :
  Spec.assigned (l1 ++ l2) = Spec.assigned l1 + Spec.assigned l2.
Proof. unfold Spec.assigned. rewrite filter_app, length_app. lia. Qed.

Lemma assigned_zeros (k : nat) : Spec.assigned (replicate k 0) = 0.
Proof.
  unfold Spec.assigned. induction k as [|k IH]; [done|].
  cbn [replicate]. by rewrite filter_cons_False by (intros H; by apply H).
Qed.

Lemma assigned_fill (k : nat) (v : Z) :
  v ≠ 0 -> Spec.assigned (replicate k v) = Z.of_nat k.
Proof.
  intros Hv. unfold Spec.assigned. induction k as [|k IH]; [done|].
  cbn [replicate]. rewrite filter_cons_True by done. cbn [length]. lia.
Qed.

(** Filling [s, e) of an array whose cells from [hi <= s] on are zero. *)
Lemma slice_fill_zeros (N : nat) (pre : list Z) (hi : nat) (s e v : Z) :
  length pre = hi -> Z.of_nat hi <= s -> s < e -> e <= Z.of_nat N ->
  Np.slice_fill (pre ++ replicate (N - hi) 0) s e v =
  (pre ++ replicate (Z.to_nat s - hi) 0 ++ replicate (Z.to_nat (e - s)) v)
    ++ replicate (N - Z.to_nat e) 0.
Proof.
  intros Hpre Hs He HN. unfold Np.slice_fill, Np.slice_bound. cbv zeta.
  rewrite length_app, length_replicate, Hpre.
  rewrite (decide_False (P := s < 0)), (decide_False (P := e < 0)) by lia.
  replace (Z.to_nat (Z.min s (Z.of_nat (hi + (N - hi))))) with (Z.to_nat s) by lia.
  replace (Z.to_nat (Z.min e (Z.of_nat (hi + (N - hi))))) with (Z.to_nat e) by lia.
  rewrite decide_True by lia.
  rewrite take_app_ge, drop_app_ge by lia.
  rewrite take_replicate, drop_replicate, Hpre.
  rewrite <- !app_assoc.
  replace ((Z.to_nat s - hi) `min` (N - hi))%nat with (Z.to_nat s - hi)%nat by lia.
  replace (Z.to_nat e - Z.to_nat s)%nat with (Z.to_nat (e - s)) by lia.
  replace (N - hi - (Z.to_nat e - hi))%nat with (N - Z.to_nat e)%nat by lia.
  done.
Qed.

End fills.

Section assigned.

Context (fs cap nb_unique_reps : Z) (mr : list Z).
Context (N : nat).
Context (Hc : 0 <= cap * fs) (Hnu : Z.max 1 nb_unique_reps <= 255).

Local Abbreviation c := (cap * fs).

(** The samples the loop labels are those of the blocks it closes. *)
Lemma loop_assigned (evs : list (Z * Z)) (i : nat) (st st' : Seg.state)
    (p : Z) (pre : list Z) (hi : nat) :
  Seg.loop fs cap nb_unique_reps mr (map Z.of_nat (seq i (length evs))) st = Ok st' ->
  (forall j ab, evs !! j = Some ab -> Spec.rests mr !! (i + j)%nat = Some ab) ->
  Spec.chain p evs -> Spec.caps_fit c evs ->
  Spec.chain_end p evs <= Z.of_nat N - 2 ->
  1 <= Seg.st_cur_rep st <= Z.max 1 nb_unique_reps ->
  Seg.st_last_end_idx st <= p + 1 -> (c <= 1 -> Seg.st_last_end_idx st <= p) ->
  Seg.st_rep st = pre ++ replicate (N - hi) 0 -> length pre = hi ->
  Z.of_nat hi <= Seg.st_last_end_idx st ->
  ∃ pre' hi',
    Seg.st_rep st' = pre' ++ replicate (N - hi') 0 ∧ length pre' = hi' ∧
    Z.of_nat hi' <= Seg.st_last_end_idx st' ∧
    1 <= Seg.st_cur_rep st' <= Z.max 1 nb_unique_reps ∧
    Spec.assigned pre' =
      Spec.assigned pre
      + Spec.sum_list (map (fun se => se.2 - se.1 + 1)
                         (Spec.walk c (Seg.st_last_end_idx st) evs).1).
Proof.
  revert i st p pre hi.
  induction evs as [|[a b] evs IH];
    intros i st p pre hi Hl Hev Hch Hfit Hend Hcur Hs Hs1 Hrep Hpre Hhi.
  - cbn in Hl. simplify_eq. exists pre, (length pre). cbn.
    split_and!; try done; lia.
  - cbn [length seq map Seg.loop] in Hl.
    destruct (Seg.body fs cap nb_unique_reps mr (Z.of_nat i) st) as [st1|] eqn:Hb;
      cbn in Hl; [|done].
    assert (Spec.rests mr !! i = Some (a, b)) as Hab.
    { rewrite <- (Nat.add_0_r i). by apply Hev. }
    apply body_Ok in Hb as (a' & b' & Hab' & _ & Hst). cbv zeta in Hst.
    rewrite Hab in Hab'. injection Hab' as <- <-.
    destruct Hch as (Hpa & Hlt & Hch); cbn [fst snd] in *.
    apply Forall_cons in Hfit as [Hfit1 Hfit]. cbn [fst snd] in Hfit1.
    pose proof (round_half_bounds (a + b)) as Hr.
    cbn [Spec.chain_end snd] in Hend.
    assert (b <= Z.of_nat N - 2) as HbN
      by (pose proof (chain_end_ge b evs Hch); lia).
    assert (Np.wrap8 (Seg.st_cur_rep st) ≠ 0) as Hv by (apply wrap8_nonzero; lia).
    assert (forall j ab, evs !! j = Some ab ->
                         Spec.rests mr !! (S i + j)%nat = Some ab) as Hev'.
    { intros j ab Hj. replace (S i + j)%nat with (i + S j)%nat by lia.
      by apply Hev. }
    cbn [Spec.walk]. unfold Spec.over_cap in *; cbn [fst snd] in *.
    destruct (decide (c < Np.round_half (a + b) + 1 - a)) as [Hcap|Hcap];
      subst st1; cbn [fst snd map].
    + specialize (Hfit1 Hcap).
      rewrite Hrep, (slice_fill_zeros N pre hi) in Hl by lia.
      match type of Hl with
      | Seg.loop _ _ _ _ _ ?s1 = _ =>
          destruct (IH (S i) s1 b
                      (pre ++ replicate (Z.to_nat (Seg.st_last_end_idx st) - hi) 0
                           ++ replicate (Z.to_nat (a + c - Seg.st_last_end_idx st))
                                (Np.wrap8 (Seg.st_cur_rep st)))
                      (Z.to_nat (a + c)) Hl Hev' Hch Hfit Hend
                      ltac:(cbn; case_decide; lia) ltac:(cbn; lia) ltac:(cbn; lia)
                      ltac:(reflexivity)
                      ltac:(rewrite !length_app, !length_replicate; lia)
                      ltac:(cbn; lia))
            as (pre' & hi' & H1 & H2 & H3 & H4 & H5)
      end.
      exists pre', hi'. do 4 (split; [done|]).
      cbn [Seg.st_last_end_idx] in H5.
      rewrite H5, sum_list_cons, !assigned_app, assigned_zeros, assigned_fill by done.
      cbn [fst snd]. lia.
    + rewrite Hrep, (slice_fill_zeros N pre hi) in Hl by lia.
      match type of Hl with
      | Seg.loop _ _ _ _ _ ?s1 = _ =>
          destruct (IH (S i) s1 b
                      (pre ++ replicate (Z.to_nat (Seg.st_last_end_idx st) - hi) 0
                           ++ replicate (Z.to_nat (Np.round_half (a + b) + 1
                                                   - Seg.st_last_end_idx st))
                                (Np.wrap8 (Seg.st_cur_rep st)))
                      (Z.to_nat (Np.round_half (a + b) + 1)) Hl Hev' Hch Hfit Hend
                      ltac:(cbn; case_decide; lia) ltac:(cbn; lia) ltac:(cbn; lia)
                      ltac:(reflexivity)
                      ltac:(rewrite !length_app, !length_replicate; lia)
                      ltac:(cbn; lia))
            as (pre' & hi' & H1 & H2 & H3 & H4 & H5)
      end.
      exists pre', hi'. do 4 (split; [done|]).
      cbn [Seg.st_last_end_idx] in H5.
      rewrite H5, sum_list_cons, !assigned_app, assigned_zeros, assigned_fill by done.
      cbn [fst snd]. lia.
Qed.

End assigned.

(** ** Rest-move-rest streams have paired transitions *)

Section paired.

Lemma wrap8_diff_zero (x y : Z) :
  -128 <= x <= 127 -> -128 <= y <= 127 -> Np.wrap8 (y - x) = 0 <-> x = y.
Proof.
  intros Hx Hy. unfold Np.wrap8. split; [|intros ->; by rewrite Z.sub_diag].
  intros H.
  pose proof (Z.div_mod (y - x + 128) 256 ltac:(lia)) as Hdm.
  assert ((y - x + 128) `div` 256 = 0); [|lia].
  destruct (decide (0 <= y - x + 128)).
  - apply Z.div_small_iff; [lia|]. destruct (decide (y - x + 128 < 256)); [lia|].
    pose proof (Z.div_le_lower_bound (y - x + 128) 256 1 ltac:(lia) ltac:(lia)).
    pose proof (Z.div_lt_upper_bound (y - x + 128) 256 2 ltac:(lia) ltac:(lia)).
    lia.
  - pose proof (Z.div_lt_upper_bound (y - x + 128) 256 0 ltac:(lia) ltac:(lia)).
    pose proof (Z.div_le_lower_bound (y - x + 128) 256 (-1) ltac:(lia) ltac:(lia)).
    lia.
Qed.

(** The number of transitions is even exactly when the stream ends in the
    state (rest or movement) it starts in. *)
Lemma transitions_parity (i : Z) (x : Z) (l : list Z) :
  Forall (fun z => -128 <= z <= 127) (x :: l) ->
  (∀ (j : nat) u v, (x :: l) !! j = Some u -> (x :: l) !! S j = Some v -> u ≠ v ->
                    u = 0 ∨ v = 0) ->
  Nat.even (length (Np.nonzero_from i (Np.diff (x :: l)))) =
  bool_decide (x = 0 <-> default x (last l) = 0).
Proof.
  revert i x. induction l as [|y l IH]; intros i x Hr Hadj.
  - cbn. symmetry. by apply bool_decide_eq_true.
  - change (Np.diff (x :: y :: l)) with (Np.wrap8 (y - x) :: Np.diff (y :: l)).
    cbn [Np.nonzero_from].
    apply Forall_cons in Hr as [Hx Hr]. pose proof Hr as [Hy _]%Forall_cons.
    assert (default x (last (y :: l)) = default y (last l)) as ->.
    { rewrite last_cons. by destruct (last l). }
    specialize (IH (i + 1) y Hr
                  ltac:(intros j u v Hu Hv; by apply (Hadj (S j)))).
    destruct (decide (Np.wrap8 (y - x) = 0)) as [Hd|Hd].
    + apply wrap8_diff_zero in Hd as ->; done.
    + assert (x ≠ y) as Hxy by (intros ->; apply Hd, wrap8_diff_zero; done).
      cbn [length]. rewrite Nat.even_succ, <- Nat.negb_even, IH.
      destruct (Hadj 0%nat x y eq_refl eq_refl Hxy) as [->| ->];
        repeat case_bool_decide; cbn; try done; exfalso; intuition congruence.
Qed.

Lemma no_transition_constant (i : Z) (x : Z) (l : list Z) :
  Forall (fun z => -128 <= z <= 127) (x :: l) ->
  Np.nonzero_from i (Np.diff (x :: l)) = [] ->
  ∀ z, z ∈ x :: l -> z = x.
Proof.
  revert i x. induction l as [|y l IH]; intros i x Hr Hnil z Hz.
  - by apply list_elem_of_singleton in Hz.
  - change (Np.diff (x :: y :: l)) with (Np.wrap8 (y - x) :: Np.diff (y :: l)) in Hnil.
    cbn [Np.nonzero_from] in Hnil.
    apply Forall_cons in Hr as [Hx Hr]. pose proof Hr as [Hy _]%Forall_cons.
    destruct (decide (Np.wrap8 (y - x) = 0)) as [Hd|Hd]; [|done].
    apply wrap8_diff_zero in Hd as ->; [|done..].
    apply elem_of_cons in Hz as [->|Hz]; [done|]. by eapply IH.
Qed.

(** A rest-move-rest stream is a valid input of the segmenter. *)
Lemma rest_move_rest_paired (move : list Z) :
  Spec.rest_move_rest move ->
  ∃ k : nat, length (Seg.move_regions move) = (2 * S k)%nat.
Proof.
  intros (Hh & Hl & (z & Hz & Hz0) & Hr & Hadj).
  destruct move as [|x l]; [done|]. cbn in Hh. simplify_eq.
  pose proof (transitions_parity 0 0 l Hr Hadj) as Hp.
  fold (Np.nonzero (Np.diff (0 :: l))) in Hp. fold (Seg.move_regions (0 :: l)) in Hp.
  assert (default 0 (last l) = 0) as Hlast.
  { rewrite last_cons in Hl. destruct (last l); by simplify_eq. }
  rewrite bool_decide_eq_true_2 in Hp by (by rewrite Hlast).
  apply Nat.even_spec in Hp as [k Hk].
  destruct k as [|k]; [|exists k; lia].
  exfalso. apply Hz0.
  apply (no_transition_constant 0 0 l Hr); [|done].
  apply length_zero_iff_nil. unfold Seg.move_regions, Np.nonzero in Hk. lia.
Qed.

Lemma rest_move_rest_valid (fs : Z) (emg : list (list Q)) (move : list Z) (cap : Z) :
  Spec.rest_move_rest move -> length emg = length move -> 0 <= cap * fs ->
  Spec.valid_input fs emg move cap.
Proof.
  intros Hm Hn Hc. split_and!; [done| |done]. by apply rest_move_rest_paired.
Qed.

End paired.

(** ** The segmenter on valid inputs *)

Section segmenter_claims.

Context (fs : Z) (emg : list (list Q)) (rep0 move : list Z) (cap : Z).

Local Abbreviation mr := (Seg.move_regions move).
Local Abbreviation n := (Z.of_nat (length emg)).

Lemma segment_Ok (o : Seg.output) :
  Seg.segment fs emg rep0 move cap = Ok o ->
  ∃ t0 st,
    Np.get mr 0 = Ok t0 ∧
    Seg.loop fs cap (Z.of_nat (length (Np.unique rep0)) - 1) mr
      (Np.range (Np.round_half (Z.of_nat (length mr)) - 1))
      (Seg.State (replicate (length rep0) 0) (replicate (length mr) 0)
         (Np.round_half t0) 0 1) = Ok st ∧
    Seg.nb_capped o = Seg.st_nb_capped st ∧
    Seg.move o = move ∧
    Seg.rep o =
      Np.slice_fill (Seg.st_rep st) (Seg.st_last_end_idx st)
        (Spec.end_idx n mr) (Np.wrap8 (Seg.st_cur_rep st)).
Proof.
  unfold Seg.segment. cbv zeta. intros H.
  destruct (Np.get mr 0) as [t0|] eqn:Ht0; cbn in H; [|done].
  destruct (Seg.loop _ _ _ _ _ _) as [st|] eqn:Hl; cbn in H; [|done].
  destruct (Np.get mr (-1)) as [tl|] eqn:Htl; cbn in H; [|done].
  destruct (Np.set _ (-2) _) as [rr1|] eqn:H1; cbn in H; [|done].
  destruct (Np.set rr1 (-1) _) as [rr2|] eqn:H2; cbn in H; [|done].
  simplify_eq. exists t0, st. do 4 (split; [done|]). cbn.
  unfold Spec.end_idx. do 3 f_equal.
  apply get_Ok_lookup in Htl as (k & Hk & Hx).
  unfold Np.norm_index in Hk. repeat case_decide; simplify_eq; try lia.
  replace (Z.to_nat (-1 + Z.of_nat (length mr))) with (length mr - 1)%nat in Hx by lia.
  by rewrite (list_lookup_total_correct _ _ _ Hx).
Qed.

Lemma valid_input_chain (k : nat) :
  length mr = (2 * S k)%nat ->
  length emg = length move ->
  let t0 := mr !!! 0%nat in
  let tl := mr !!! (length mr - 1)%nat in
  0 <= t0 ∧ Spec.chain t0 (Spec.rests mr) ∧
  Spec.chain_end t0 (Spec.rests mr) < tl ∧ tl <= n - 2.
Proof.
  intros Hlen Hn. cbv zeta.
  pose proof (move_regions_sorted move) as Hs.
  pose proof (move_regions_bounds move) as Hb.
  destruct mr as [|t0 t] eqn:Hmr; cbn [length] in Hlen; [lia|].
  destruct (lookup_lt_is_Some_2 t (2 * k)) as [tl Htl]; [lia|].
  replace (length (t0 :: t) - 1)%nat with (length t) by (cbn; lia).
  assert ((t0 :: t) !! length t = Some tl) as Htl'.
  { replace (length t) with (S (2 * k)) by lia. done. }
  rewrite (list_lookup_total_correct _ _ _ Htl').
  cbn [lookup_total list_lookup_total]. unfold Spec.rests. cbn [tail].
  split_and!.
  - apply Forall_cons in Hb as [? _]. lia.
  - by apply sorted_chain.
  - eapply sorted_chain_end; [done| |done]. lia.
  - rewrite Forall_forall in Hb. rewrite Hn.
    apply Hb. eapply list_elem_of_lookup_2. exact Htl'.
Qed.

(** On a valid input whose capped rests are at least twice the cap long,
    the samples given a repetition index are exactly those of the blocks. *)
Lemma segment_assigned (k : nat) (o : Seg.output) :
  length mr = (2 * S k)%nat ->
  length emg = length move -> length rep0 = length emg ->
  0 <= cap * fs ->
  Z.of_nat (length (Np.unique rep0)) <= 256 ->
  Spec.caps_fit (cap * fs) (Spec.rests mr) ->
  Seg.segment fs emg rep0 move cap = Ok o ->
  Spec.assigned (Seg.rep o) = Spec.block_length_sum (Seg.rep_regions o).
Proof.
  intros Hlen Hn Hrep Hc Hu Hfit Ho.
  destruct (segment_paired fs emg rep0 move cap k Hlen) as (o' & Ho' & Hrows & _).
  rewrite Ho in Ho'. injection Ho' as <-.
  destruct (valid_input_chain k Hlen Hn) as (Ht0 & Hch & Hend & Htl).
  apply segment_Ok in Ho as (t0 & st & Hg & Hl & _ & _ & Hr).
  apply get_nonneg in Hg; [|lia]. change (Z.to_nat 0) with 0%nat in Hg.
  rewrite (list_lookup_total_correct _ _ _ Hg) in Ht0, Hch, Hend.
  assert (length (Spec.rests mr) = k) as Hk.
  { apply length_rows_odd. destruct mr; cbn in *; lia. }
  rewrite Hlen in Hl.
  replace (Z.of_nat (2 * S k)) with (2 * Z.of_nat (S k)) in Hl by lia.
  rewrite round_half_even in Hl. unfold Np.range in Hl.
  replace (Z.to_nat (Z.of_nat (S k) - 1)) with (length (Spec.rests mr)) in Hl by lia.
  pose proof (round_half_bounds t0) as Hr0.
  destruct (loop_walk fs cap (Z.of_nat (length (Np.unique rep0)) - 1) mr
              (Spec.rests mr) 0
              (Seg.State (replicate (length rep0) 0) (replicate (2 * S k) 0)
                 (Np.round_half t0) 0 1)
              [] (replicate (2 * S k) 0))
    as (st1 & Hl1 & _ & Hcur); [reflexivity|done| |done|].
  { rewrite length_replicate. lia. }
  rewrite Hl in Hl1. injection Hl1 as <-. cbn [Seg.st_last_end_idx] in Hcur.
  destruct (walk_rows (cap * fs) Hc t0 (Np.round_half t0) (Spec.rests mr) Hch
              ltac:(lia) ltac:(lia)) as (_ & Hw & _).
  assert (Z.max 1 (Z.of_nat (length (Np.unique rep0)) - 1) <= 255) as Hnu by lia.
  destruct (loop_assigned fs cap (Z.of_nat (length (Np.unique rep0)) - 1) mr
              (length rep0) Hc Hnu (Spec.rests mr) 0 _ st t0 [] 0%nat Hl)
    as (pre' & hi' & H1 & H2 & H3 & H4 & H5);
    [done|done|done|lia|cbn; lia|cbn; lia|cbn; lia| |done|cbn; lia|].
  { cbn. by rewrite Nat.sub_0_r. }
  cbn [Seg.st_last_end_idx] in H5.
  pose proof (round_half_bounds (Z.of_nat (length emg) + mr !!! (length mr - 1)%nat))
    as Hre.
  rewrite Hr, H1. unfold Spec.end_idx in *.
  rewrite (slice_fill_zeros (length rep0) pre' hi') by lia.
  rewrite !assigned_app, !assigned_zeros, assigned_fill by (apply wrap8_nonzero; lia).
  rewrite H5, Hcur. unfold Spec.block_length_sum.
  rewrite Hrows, map_app, sum_list_app. unfold Spec.lead_gap.
  rewrite (list_lookup_total_correct _ _ _ Hg). cbn. unfold Spec.end_idx.
  change (Spec.assigned []) with 0. lia.
Qed.

End segmenter_claims.

(** C3.  Whenever the segmenter returns, its truncation counter is even:
    it is twice the number of rests, among those the loop visits, that
    exceed the cap. *)
Theorem nb_capped_even (fs : Z) (emg : list (list Q)) (rep0 move : list Z)
    (cap : Z) (o : Seg.output) :
  Seg.segment fs emg rep0 move cap = Ok o ->
  Z.even (Seg.nb_capped o) = true ∧
  Seg.nb_capped o =
    2 * Z.of_nat
          (length
             (filter (Spec.over_cap (cap * fs))
                (take (Z.to_nat (Np.round_half
                                   (Z.of_nat (length (Seg.move_regions move))) - 1))
                   (Spec.rests (Seg.move_regions move))))).
Proof.
  intros H. apply segment_Ok in H as (t0 & st & _ & Hl & Hnb & _ & _).
  apply loop_nb_capped in Hl. cbn in Hl. rewrite drop_0 in Hl.
  rewrite Hnb, Hl. split; [|lia].
  rewrite Z.add_0_l, Z.even_mul. done.
Qed.

Lemma nb_capped_even_witness :
  Z.even 2 = true ∧
  2 = 2 * Z.of_nat
          (length
             (filter (Spec.over_cap (1 * 100))
                (take (Z.to_nat (Np.round_half
                                   (Z.of_nat (length (Seg.move_regions Ex.move340))) - 1))
                   (Spec.rests (Seg.move_regions Ex.move340))))).
Proof.
  apply (nb_capped_even 100 (Ex.emg_of 340) Ex.move340 Ex.move340 1
           (Seg.Output (Ex.emg_of 340)
              (replicate 4 0 ++ replicate 115 1 ++ replicate 100 0
                 ++ replicate 115 2 ++ replicate 6 0)
              Ex.move340 [4; 118; 219; 333] 2)).
  vm_compute. reflexivity.
Defined.

(** C4 (as amended).  On a valid input the boundary table holds one row per
    block; every row is a non-empty range, the starts ascend strictly, and a
    row starts right after the previous one ends unless the rest between
    them exceeded the cap, in which case the samples of that rest beyond
    twice the cap lie between the two rows (stated for rests at least
    twice the cap long). *)
Theorem boundary_rows_ordered (fs : Z) (emg : list (list Q)) (rep0 move : list Z)
    (cap : Z) :
  Spec.valid_input fs emg move cap ->
  ∃ o,
    Seg.segment fs emg rep0 move cap = Ok o ∧
    let rs := Spec.rows (Seg.rep_regions o) in
    (2 * length rs = length (Seg.move_regions move))%nat ∧
    Forall (fun se => se.1 <= se.2) rs ∧
    StronglySorted Z.lt (map fst rs) ∧
    ∀ i se se',
      rs !! i = Some se -> rs !! S i = Some se' ->
      ∃ ab,
        Spec.rests (Seg.move_regions move) !! i = Some ab ∧
        (¬ Spec.over_cap (cap * fs) ab -> se'.1 = se.2 + 1) ∧
        (Spec.over_cap (cap * fs) ab -> 2 * (cap * fs) <= ab.2 - ab.1 ->
         se'.1 = se.2 + 1 + (ab.2 - ab.1 - 2 * (cap * fs))).
Proof.
  intros (Hn & [k Hk] & Hc).
  destruct (segment_paired fs emg rep0 move cap k Hk) as (o & Ho & Hrows & _).
  destruct (valid_input_chain emg move k Hk Hn) as (Ht0 & Hch & Hend & Htl).
  set (mr := Seg.move_regions move) in *.
  set (t0 := mr !!! 0%nat) in *. set (tl := mr !!! (length mr - 1)%nat) in *.
  set (c := cap * fs) in *.
  set (w := Spec.walk c (Spec.lead_gap mr) (Spec.rests mr)) in *.
  assert (Spec.lead_gap mr <= t0) as Hlead.
  { unfold Spec.lead_gap. fold t0. pose proof (round_half_bounds t0). lia. }
  assert (length (Spec.rests mr) = k) as Hlk.
  { apply length_rows_odd. destruct mr; cbn in *; lia. }
  destruct (walk_rows c Hc t0 (Spec.lead_gap mr) (Spec.rests mr) Hch
              ltac:(lia) ltac:(lia)) as (Hrs & Hw & _).
  destruct (walk_starts c Hc t0 (Spec.lead_gap mr) (Spec.rests mr) Hch
              ltac:(lia) ltac:(lia)) as (Hss & _).
  fold w in Hrs, Hw, Hss.
  exists o. split; [done|]. cbv zeta. rewrite Hrows.
  split_and!.
  - rewrite length_app. unfold w. rewrite length_walk, Hlk, Hk. cbn. lia.
  - apply Forall_app. split; [done|]. constructor; [|constructor].
    cbn. unfold Spec.end_idx. fold mr tl.
    pose proof (round_half_bounds (Z.of_nat (length emg) + tl)). lia.
  - by rewrite map_app.
  - intros i se se' Hi HSi.
    assert (i < length w.1)%nat as Hlt.
    { apply lookup_lt_Some in HSi. rewrite length_app in HSi. cbn in HSi. lia. }
    rewrite lookup_app_l in Hi by done.
    destruct (lookup_lt_is_Some_2 (Spec.rests mr) i) as [ab Hab].
    { unfold w in Hlt. by rewrite length_walk in Hlt. }
    exists ab. split; [done|].
    assert ((map fst w.1 ++ [w.2]) !! S i = Some se'.1) as Hnext.
    { change [w.2] with (map fst [(w.2, Spec.end_idx (Z.of_nat (length emg)) mr - 1)]).
      rewrite <- map_app, list_lookup_fmap, HSi. done. }
    pose proof (walk_links c (Spec.lead_gap mr) (Spec.rests mr) i se ab se'.1
                  Hi Hab Hnext) as Hlink.
    unfold Spec.trunc_gap in Hlink.
    case_decide; split; intros; try done; lia.
Qed.

Lemma boundary_rows_ordered_witness :
  ∃ o,
    Seg.segment 100 (Ex.emg_of 340) Ex.move340 Ex.move340 1 = Ok o ∧
    let rs := Spec.rows (Seg.rep_regions o) in
    (2 * length rs = length (Seg.move_regions Ex.move340))%nat ∧
    Forall (fun se => se.1 <= se.2) rs ∧
    StronglySorted Z.lt (map fst rs) ∧
    ∀ i se se',
      rs !! i = Some se -> rs !! S i = Some se' ->
      ∃ ab,
        Spec.rests (Seg.move_regions Ex.move340) !! i = Some ab ∧
        (¬ Spec.over_cap (1 * 100) ab -> se'.1 = se.2 + 1) ∧
        (Spec.over_cap (1 * 100) ab -> 2 * (1 * 100) <= ab.2 - ab.1 ->
         se'.1 = se.2 + 1 + (ab.2 - ab.1 - 2 * (1 * 100))).
Proof.
  apply (boundary_rows_ordered 100 (Ex.emg_of 340) Ex.move340 Ex.move340 1).
  split; [vm_compute; reflexivity|].
  split; [exists 1%nat; vm_compute; reflexivity | lia].
Defined.

(** C4 as stated fails: with a cap of 1 s at 100 Hz, a rest of 300 samples
    leaves the first block ending at 118 and the second starting at 219. *)
Lemma boundary_rows_not_contiguous :
  ¬ (∀ o,
       Seg.segment 100 (Ex.emg_of 340) Ex.move340 Ex.move340 1 = Ok o ->
       ∀ i se se',
         Spec.rows (Seg.rep_regions o) !! i = Some se ->
         Spec.rows (Seg.rep_regions o) !! S i = Some se' ->
         se'.1 = se.2 + 1).
Proof.
  intros H.
  pose proof (H _ ltac:(vm_compute; reflexivity) 0%nat (4, 118) (219, 333)
                ltac:(reflexivity) ltac:(reflexivity)) as H'.
  cbn in H'. discriminate H'.
Qed.

(** The off-by-one behind C4's overlap: a rest of 199 samples is capped at
    100 on either side, so the first block ends on sample 119 and the second
    starts on it. *)
Remark capped_blocks_share_a_sample :
  (o ← Seg.segment 100 (Ex.emg_of 240) Ex.move240 Ex.move240 1;
   Ok (Spec.rows (Seg.rep_regions o))) = Ok [(5, 119); (119, 233)].
Proof. vm_compute. reflexivity. Qed.

(** ** Repetition indices *)

Section cycle.

Lemma elem_of_unique (x : Z) (a : list Z) : x ∈ Np.unique a <-> x ∈ a.
Proof.
  unfold Np.unique. rewrite elem_of_remove_dups.
  by rewrite (merge_sort_Permutation Z.le a).
Qed.

Lemma NoDup_unique (a : list Z) : NoDup (Np.unique a).
Proof. apply NoDup_remove_dups. Qed.

Lemma filter_nonzero_id (u : list Z) :
  0 ∉ u -> filter (fun x => x ≠ 0) u = u.
Proof.
  induction u as [|x u IH]; intros H0; [done|].
  apply not_elem_of_cons in H0 as [Hx H0].
  rewrite filter_cons_True by done. by rewrite IH.
Qed.

Lemma length_filter_nonzero (u : list Z) :
  NoDup u ->
  Z.of_nat (length u) <= Z.of_nat (length (filter (fun x => x ≠ 0) u)) + 1 ∧
  (0 ∈ u ->
   Z.of_nat (length u) = Z.of_nat (length (filter (fun x => x ≠ 0) u)) + 1).
Proof.
  induction u as [|x u IH]; intros Hnd.
  - split; [cbn; lia|]. intros H. by apply elem_of_nil in H.
  - apply NoDup_cons in Hnd as [Hx Hnd]. destruct (IH Hnd) as [IH1 IH2].
    destruct (decide (x = 0)) as [->|Hx0].
    + rewrite filter_cons_False by (intros H; by apply H).
      rewrite filter_nonzero_id by done. cbn [length]. lia.
    + rewrite filter_cons_True by done. cbn [length]. split; [lia|].
      intros [?|H0]%elem_of_cons; [congruence|]. specialize (IH2 H0). lia.
Qed.

(** The loop's wrap threshold never exceeds the cycle length, and equals
    it when the raw stream holds the rest value 0. *)
Lemma nb_unique_reps_cycle (rep0 : list Z) :
  Z.of_nat (length (Np.unique rep0)) - 1 <= Spec.cycle_length rep0 ∧
  (0 ∈ rep0 -> Z.of_nat (length (Np.unique rep0)) - 1 = Spec.cycle_length rep0).
Proof.
  unfold Spec.cycle_length.
  destruct (length_filter_nonzero (Np.unique rep0) (NoDup_unique rep0)) as [H1 H2].
  split; [lia|]. intros H0. apply elem_of_unique in H0. specialize (H2 H0). lia.
Qed.

Context (fs cap m : Z) (mr : list Z).

Lemma loop_cur_rep (k i : nat) (st st' : Seg.state) :
  1 <= Seg.st_cur_rep st <= m ->
  Seg.loop fs cap m mr (map Z.of_nat (seq i k)) st = Ok st' ->
  Seg.st_cur_rep st' = (Seg.st_cur_rep st - 1 + Z.of_nat k) `mod` m + 1.
Proof.
  revert i st. induction k as [|k IH]; intros i st Hcur H.
  - cbn in H. simplify_eq. rewrite Z.add_0_r, Z.mod_small by lia. lia.
  - cbn [seq map Seg.loop] in H.
    destruct (Seg.body fs cap m mr (Z.of_nat i) st) as [st1|] eqn:Hb;
      cbn in H; [|done].
    apply body_Ok in Hb as (a & b & _ & _ & Hst). cbv zeta in Hst.
    assert (Seg.st_cur_rep st1 =
            if decide (Seg.st_cur_rep st + 1 > m) then 1 else Seg.st_cur_rep st + 1)
      as Hc1 by (case_decide; by subst st1).
    assert (1 <= Seg.st_cur_rep st1 <= m) as Hr1 by (case_decide; lia).
    rewrite (IH _ _ Hr1 H). f_equal.
    replace (Seg.st_cur_rep st - 1 + Z.of_nat (S k))
      with (Seg.st_cur_rep st + Z.of_nat k) by lia.
    rewrite Hc1. case_decide.
    + assert (Seg.st_cur_rep st = m) as -> by lia.
      replace (1 - 1 + Z.of_nat k) with (Z.of_nat k) by lia.
      rewrite <- (Z.add_mod_idemp_l m) by lia.
      rewrite Z.mod_same by lia. done.
    + f_equal. lia.
Qed.

End cycle.

(** C5 (as amended).  When the raw repetition stream holds at least one
    nonzero value, no sample of the derived stream carries an index greater
    than the cycle length; when it also holds the rest value 0, the index
    the loop assigns after [i] blocks is [i mod cycle_length + 1], that is
    1..cycle_length and then 1 again. *)
Theorem rep_labels_within_cycle (fs : Z) (emg : list (list Q)) (rep0 move : list Z)
    (cap : Z) (o : Seg.output) :
  1 <= Spec.cycle_length rep0 ->
  Seg.segment fs emg rep0 move cap = Ok o ->
  Forall (fun x => x <= Spec.cycle_length rep0) (Seg.rep o) ∧
  (0 ∈ rep0 ->
   ∀ (i : nat) st0 st,
     Seg.st_cur_rep st0 = 1 ->
     Seg.loop fs cap (Z.of_nat (length (Np.unique rep0)) - 1)
       (Seg.move_regions move) (Np.range (Z.of_nat i)) st0 = Ok st ->
     Seg.st_cur_rep st = Z.of_nat i `mod` Spec.cycle_length rep0 + 1).
Proof.
  intros Hcyc H. destruct (nb_unique_reps_cycle rep0) as [Hle Heq]. split.
  - apply segment_Ok in H as (t0 & st & _ & Hl & _ & _ & ->).
    eapply loop_labels_bounded in Hl as [Hrep Hcur].
    + apply Forall_slice_fill.
      * eapply Forall_impl; [exact Hrep|]. intros x Hx; cbn beta in *. lia.
      * pose proof (wrap8_le (Seg.st_cur_rep st)). lia.
    + split; cbn; [|lia]. apply Forall_replicate. lia.
  - intros H0 i st0 st Hst0 Hl. specialize (Heq H0).
    unfold Np.range in Hl. rewrite Nat2Z.id in Hl.
    apply loop_cur_rep in Hl; [|lia].
    rewrite Hl, Hst0, Heq. f_equal.
Qed.

Lemma rep_labels_within_cycle_witness :
  Forall (fun x => x <= Spec.cycle_length Ex.move12)
    (replicate 6 1 ++ replicate 4 2 ++ replicate 2 0) ∧
  (0 ∈ Ex.move12 ->
   ∀ (i : nat) st0 st,
     Seg.st_cur_rep st0 = 1 ->
     Seg.loop 100 999 (Z.of_nat (length (Np.unique Ex.move12)) - 1)
       (Seg.move_regions Ex.move12) (Np.range (Z.of_nat i)) st0 = Ok st ->
     Seg.st_cur_rep st = Z.of_nat i `mod` Spec.cycle_length Ex.move12 + 1).
Proof.
  apply (rep_labels_within_cycle 100 (Ex.emg_of 12) Ex.move12 Ex.move12 999
           (Seg.Output (Ex.emg_of 12)
              (replicate 6 1 ++ replicate 4 2 ++ replicate 2 0)
              Ex.move12 [0; 5; 6; 9] 0)).
  - vm_compute. discriminate.
  - vm_compute. reflexivity.
Defined.

(** C5 as stated fails: a raw repetition stream of zeros has cycle length 0,
    yet the block of the stream's one movement is labelled 1. *)
Lemma rep_label_exceeds_empty_cycle :
  ¬ (∀ o,
       Seg.segment 100 (Ex.emg_of 10) (replicate 10 0) Ex.move10 999 = Ok o ->
       Forall (fun x => x <= Spec.cycle_length (replicate 10 0)) (Seg.rep o)).
Proof.
  intros H.
  pose proof (H _ ltac:(vm_compute; reflexivity)) as H'.
  rewrite Forall_forall in H'. specialize (H' 1).
  assert (1 <= Spec.cycle_length (replicate 10 0)) as Hle.
  { apply H'. vm_compute. do 2 right. left. }
  vm_compute in Hle. by apply Hle.
Qed.

(** ** Index lookup *)

Section lookup.

Lemma ravel_squeeze (l : list Z) : Lookup.ravel (Lookup.squeeze l) = l.
Proof. by destruct l as [|x [|y l]]. Qed.

Lemma elem_of_concat {A : Type} (x : A) (ls : list (list A)) :
  x ∈ concat ls <-> ∃ l, x ∈ l ∧ l ∈ ls.
Proof.
  induction ls as [|l ls IH]; cbn.
  - split; [intros H; by apply elem_of_nil in H|].
    intros (l & _ & H). by apply elem_of_nil in H.
  - rewrite elem_of_app, IH. split.
    + intros [H|(l' & H1 & H2)]; [exists l|exists l']; split; try done;
        [left|by right].
    + intros (l' & H1 & [->|H2]%elem_of_cons); [by left|right; eauto].
Qed.

Lemma elem_of_map {A B : Type} (f : A -> B) (l : list A) (y : B) :
  y ∈ map f l <-> ∃ x, y = f x ∧ x ∈ l.
Proof. apply (list_elem_of_fmap f). Qed.

Lemma elem_of_nonzero_from (s i : Z) (a : list Z) :
  i ∈ Np.nonzero_from s a <->
  ∃ (k : nat) y, i = s + Z.of_nat k ∧ a !! k = Some y ∧ y ≠ 0.
Proof.
  revert s. induction a as [|x a IH]; intros s; cbn [Np.nonzero_from].
  - split; [intros H; by apply elem_of_nil in H|].
    intros (k & y & _ & H & _). by rewrite lookup_nil in H.
  - case_decide as Hx.
    + rewrite IH. split.
      * intros (k & y & -> & Hk & Hy). exists (S k), y. split_and!; [lia|done..].
      * intros (k & y & -> & Hk & Hy). destruct k as [|k]; cbn in Hk.
        { simplify_eq. }
        exists k, y. split_and!; [lia|done..].
    + rewrite elem_of_cons, IH. split.
      * intros [->|(k & y & -> & Hk & Hy)].
        { exists 0%nat, x. split_and!; [lia|done..]. }
        exists (S k), y. split_and!; [lia|done..].
      * intros (k & y & -> & Hk & Hy). destruct k as [|k]; cbn in Hk.
        { left. lia. }
        right. exists k, y. split_and!; [lia|done..].
Qed.

(** [where_eq a x] lists the positions holding [x], in ascending order. *)
Lemma elem_of_where_eq (a : list Z) (x i : Z) :
  i ∈ Np.where_eq a x <-> ∃ k : nat, i = Z.of_nat k ∧ a !! k = Some x.
Proof.
  unfold Np.where_eq, Np.nonzero. rewrite elem_of_nonzero_from. split.
  - intros (k & y & -> & Hk & Hy). exists k. split; [lia|].
    rewrite list_lookup_fmap in Hk.
    destruct (a !! k) as [z|]; cbn in Hk; [|done].
    case_decide; simplify_eq. done.
  - intros (k & -> & Hk). exists k, 1. split_and!; [lia| |done].
    rewrite list_lookup_fmap, Hk. cbn. by rewrite decide_True.
Qed.

Lemma where_eq_sorted (a : list Z) (x : Z) :
  StronglySorted Z.lt (Np.where_eq a x).
Proof. apply nonzero_from_sorted. Qed.

Lemma sorted_lt_NoDup (l : list Z) : StronglySorted Z.lt l -> NoDup l.
Proof.
  induction 1 as [|x l Hs IH Hx]; constructor; [|done].
  intros Hin. rewrite Forall_forall in Hx. specialize (Hx _ Hin). lia.
Qed.

Lemma NoDup_concat_map {A : Type} (f : A -> list Z) (xs : list A) :
  NoDup xs ->
  (∀ x, NoDup (f x)) ->
  (∀ x y i, x ≠ y -> i ∈ f x -> i ∈ f y -> False) ->
  NoDup (concat (map f xs)).
Proof.
  intros Hnd Hf Hdis. induction Hnd as [|x xs Hx Hnd IH]; cbn; [constructor|].
  apply NoDup_app. split_and!; [done| |done].
  intros i Hi Hc. apply elem_of_concat in Hc as (l & Hil & Hl).
  apply elem_of_map in Hl as (y & -> & Hy).
  apply (Hdis x y i); [|done..]. intros ->. done.
Qed.

Lemma get_idxs_Ok (a to_find : list Z) :
  to_find ≠ [] ->
  Lookup.get_idxs a to_find =
    Ok (Lookup.squeeze (concat (map (Np.where_eq a) to_find))).
Proof. intros H. unfold Lookup.get_idxs. by destruct to_find. Qed.

End lookup.

(** C10.  Looking up the unique values of a non-empty array returns every
    position of the array exactly once: the cells returned are a permutation
    of [0 .. len - 1], made of one group per value in the order of the
    values, each group holding the positions of its value in ascending
    order. *)
Theorem get_idxs_unique_permutation (in_array : list Z) :
  in_array ≠ [] ->
  ∃ r,
    Lookup.get_idxs in_array (Np.unique in_array) = Ok r ∧
    Lookup.ravel r ≡ₚ map Z.of_nat (seq 0 (length in_array)) ∧
    Lookup.ravel r = concat (map (Np.where_eq in_array) (Np.unique in_array)) ∧
    ∀ x,
      StronglySorted Z.lt (Np.where_eq in_array x) ∧
      ∀ i, i ∈ Np.where_eq in_array x <->
           ∃ k : nat, i = Z.of_nat k ∧ in_array !! k = Some x.
Proof.
  intros Hne.
  assert (Np.unique in_array ≠ []) as Hu.
  { destruct in_array as [|x a]; [done|]. intros Hnil.
    assert (x ∈ Np.unique (x :: a)) as Hx by (apply elem_of_unique; left).
    rewrite Hnil in Hx. by apply elem_of_nil in Hx. }
  eexists. split; [by apply get_idxs_Ok|]. rewrite ravel_squeeze.
  split_and!; [|done|].
  - apply NoDup_Permutation.
    + apply NoDup_concat_map.
      * apply NoDup_unique.
      * intros x. apply sorted_lt_NoDup, where_eq_sorted.
      * intros x y i Hxy Hx Hy.
        apply elem_of_where_eq in Hx as (k & -> & Hk).
        apply elem_of_where_eq in Hy as (k' & Hkk & Hk').
        apply Nat2Z.inj in Hkk as <-. congruence.
    + apply (NoDup_fmap_2 Z.of_nat), NoDup_seq.
    + intros i. rewrite elem_of_concat. split.
      * intros (l & Hil & Hl). apply elem_of_map in Hl as (x & -> & Hx).
        apply elem_of_where_eq in Hil as (k & -> & Hk).
        apply elem_of_map. exists k. split; [done|].
        apply elem_of_seq. apply lookup_lt_Some in Hk. lia.
      * intros (k & -> & Hk)%elem_of_map. apply elem_of_seq in Hk.
        destruct (lookup_lt_is_Some_2 in_array k) as [x Hx]; [lia|].
        exists (Np.where_eq in_array x). split.
        { apply elem_of_where_eq. eauto. }
        apply elem_of_map. exists x. split; [done|].
        apply elem_of_unique. by eapply list_elem_of_lookup_2.
  - intros x. split; [apply where_eq_sorted|]. intros i. apply elem_of_where_eq.
Qed.

Lemma get_idxs_unique_permutation_witness :
  ∃ r,
    Lookup.get_idxs [3; 1; 3; 2] (Np.unique [3; 1; 3; 2]) = Ok r ∧
    Lookup.ravel r ≡ₚ map Z.of_nat (seq 0 (length [3; 1; 3; 2])) ∧
    Lookup.ravel r = concat (map (Np.where_eq [3; 1; 3; 2]) (Np.unique [3; 1; 3; 2])) ∧
    ∀ x,
      StronglySorted Z.lt (Np.where_eq [3; 1; 3; 2] x) ∧
      ∀ i, i ∈ Np.where_eq [3; 1; 3; 2] x <->
           ∃ k : nat, i = Z.of_nat k ∧ [3; 1; 3; 2] !! k = Some x.
Proof.
  apply (get_idxs_unique_permutation [3; 1; 3; 2]). discriminate.
Defined.

(** ** Split generators: too many test repetitions *)

(** C7 (as amended).  When [nb_test] exceeds the number of repetition ids,
    both generators raise [ValueError] (from the allocation of the train
    table, whose width would be negative), whatever the random draws. *)
Theorem split_rejects_excess_nb_test (draws : list nat) (rep_ids : list Z)
    (nb_test nb_splits : Z) (base : option (list Z)) :
  Z.of_nat (length rep_ids) < nb_test ->
  Split.gen_split_balanced draws rep_ids nb_test base = Some (Raise ValueError) ∧
  Split.gen_split_rand draws rep_ids nb_test nb_splits base = Some (Raise ValueError).
Proof.
  intros H. split.
  - unfold Split.gen_split_balanced, Split.zeros2. cbv zeta.
    rewrite decide_True by lia. done.
  - unfold Split.gen_split_rand, Split.all_combos, Split.zeros2. cbv zeta.
    rewrite !decide_False by lia. cbn [Split.lift].
    rewrite decide_True by lia. done.
Qed.

Lemma split_rejects_excess_nb_test_witness :
  Split.gen_split_balanced [0%nat] [5; 6] 3 None = Some (Raise ValueError) ∧
  Split.gen_split_rand [0%nat] [5; 6] 3 2 None = Some (Raise ValueError).
Proof.
  apply (split_rejects_excess_nb_test [0%nat] [5; 6] 3 2 None). cbn. lia.
Defined.

(** C7 as stated fails: with a single repetition id and [nb_test = 1] the
    balanced generator returns the fold that tests on the id and trains on
    nothing. *)
Lemma split_accepts_all_ids_as_test :
  ¬ (∀ r, Split.gen_split_balanced [0%nat] [5] 1 None = Some r -> is_ok r = false).
Proof.
  intros H. specialize (H (Ok ([[]], [[5]])) eq_refl). discriminate H.
Qed.

(** The randomized generator does the same when asked for one fold. *)
Remark split_rand_accepts_all_ids_as_test :
  Split.gen_split_rand [0%nat] [5; 6] 2 1 None = Some (Ok ([[]], [[5; 6]])).
Proof. reflexivity. Qed.

(** ** Window extraction *)

Section windows.

Context (L S n : Z) (HL : 1 <= L) (HS : 1 <= S).







End windows.

Section grouping.

Lemma get_label_at (a : list Z) (e : Z) :
  0 <= e < Z.of_nat (length a) -> Np.get a e = Ok (Spec.label_at a e).
Proof.
  intros He. destruct (lookup_lt_is_Some_2 a (Z.to_nat e)) as [x Hx]; [lia|].
  unfold Spec.label_at. rewrite (list_lookup_total_correct _ _ _ Hx).
  rewrite <- (Z2Nat.id e) by lia. by apply get_nat.
Qed.

Lemma take_idxs_Ok (a idx : list Z) :
  Forall (fun e => 0 <= e < Z.of_nat (length a)) idx ->
  Lookup.take_idxs a idx = Ok (map (Spec.label_at a) idx).
Proof.
  induction 1 as [|e idx He _ IH]; cbn [Lookup.take_idxs map]; [done|].
  rewrite get_label_at by done. cbn [mbind result_bind rbind]. by rewrite IH.
Qed.


Lemma where_eq_range (a : list Z) (x : Z) :
  Forall (fun i => 0 <= i < Z.of_nat (length a)) (Np.where_eq a x).
Proof.
  apply Forall_forall. intros i (k & -> & Hk)%elem_of_where_eq.
  apply lookup_lt_Some in Hk. lia.
Qed.

(** Reading [l] at the positions where its keys equal [x] filters [l]. *)
Lemma where_eq_filter_from (key : Z -> Z) (x : Z) (pre l : list Z) :
  map (Spec.label_at (pre ++ l))
    (Np.nonzero_from (Z.of_nat (length pre))
       (map (fun y => if decide (y = x) then 1 else 0) (map key l)))
  = filter (fun e => key e = x) l.
Proof.
  revert pre. induction l as [|y l IH]; intros pre; [done|].
  cbn [map Np.nonzero_from].
  specialize (IH (pre ++ [y])). rewrite <- app_assoc in IH. cbn [app] in IH.
  rewrite length_app, Nat2Z.inj_add in IH. cbn [length] in IH.
  change (Z.of_nat 1) with 1 in IH.
  destruct (decide (key y = x)) as [Hy|Hy].
  - rewrite decide_False by lia. rewrite filter_cons_True by done.
    cbn [map]. rewrite IH. f_equal.
    unfold Spec.label_at. rewrite Nat2Z.id.
    apply list_lookup_total_correct. by rewrite list_lookup_middle.
  - rewrite decide_True by done. rewrite filter_cons_False by done. apply IH.
Qed.

Lemma where_eq_filter (key : Z -> Z) (x : Z) (l : list Z) :
  map (Spec.label_at l) (Np.where_eq (map key l) x) = filter (fun e => key e = x) l.
Proof. apply (where_eq_filter_from key x [] l). Qed.

Lemma map_concat_map {A B C : Type} (f : B -> C) (g : A -> list B) (l : list A) :
  map f (concat (map g l)) = concat (map (fun a => map f (g a)) l).
Proof. induction l as [|a l IH]; cbn; [done|]. by rewrite map_app, IH. Qed.

(** Reading [l] at the positions [get_idxs] finds for [vals] groups [l]. *)
Lemma idxs_grouped (key : Z -> Z) (vals l : list Z) :
  map (Spec.label_at l) (concat (map (Np.where_eq (map key l)) vals))
  = Spec.grouped key vals l.
Proof.
  rewrite map_concat_map. unfold Spec.grouped. f_equal.
  apply map_ext. intros v. apply where_eq_filter.
Qed.

Lemma idxs_range (a vals : list Z) :
  Forall (fun i => 0 <= i < Z.of_nat (length a))
    (concat (map (Np.where_eq a) vals)).
Proof.
  apply Forall_forall. intros i (l & Hil & (v & -> & _)%elem_of_map)%elem_of_concat.
  pose proof (where_eq_range a v) as H. rewrite Forall_forall in H. by apply H.
Qed.

Lemma elem_of_grouped (key : Z -> Z) (vals l : list Z) (e : Z) :
  e ∈ Spec.grouped key vals l <-> e ∈ l ∧ key e ∈ vals.
Proof.
  unfold Spec.grouped. rewrite elem_of_concat. split.
  - intros (g & Heg & (v & -> & Hv)%elem_of_map).
    apply list_elem_of_filter in Heg as [<- ?]. done.
  - intros [He Hk]. exists (filter (fun e' => key e' = key e) l). split.
    + by apply list_elem_of_filter.
    + apply elem_of_map. eauto.
Qed.

(** With distinct values, grouping only reorders the positions whose key
    is among the values. *)
Lemma grouped_Permutation (key : Z -> Z) (vals l : list Z) :
  NoDup vals ->
  Spec.grouped key vals l ≡ₚ filter (fun e => key e ∈ vals) l.
Proof.
  unfold Spec.grouped. induction 1 as [|v vals Hv Hnd IH]; cbn [map concat].
  - induction l as [|e l IHl]; [done|].
    rewrite filter_cons_False; [done|]. intros H. by apply elem_of_nil in H.
  - rewrite IH. clear IH. induction l as [|e l IHl]; [done|].
    destruct (decide (key e = v)) as [He|He].
    + rewrite (filter_cons_True (fun e => key e = v)) by done.
      rewrite (filter_cons_False (fun e => key e ∈ vals)) by (by rewrite He).
      rewrite (filter_cons_True (fun e => key e ∈ v :: vals)) by (rewrite He; left).
      cbn [app]. by rewrite IHl.
    + rewrite (filter_cons_False (fun e => key e = v)) by done.
      destruct (decide (key e ∈ vals)) as [Hin|Hin].
      * rewrite (filter_cons_True (fun e => key e ∈ vals)) by done.
        rewrite (filter_cons_True (fun e => key e ∈ v :: vals)) by (by right).
        rewrite <- Permutation_middle. by rewrite IHl.
      * rewrite (filter_cons_False (fun e => key e ∈ vals)) by done.
        rewrite (filter_cons_False (fun e => key e ∈ v :: vals)); [done|].
        intros [?|?]%elem_of_cons; done.
Qed.

End grouping.

Section get_windows.

Context (which_reps : list Z) (L S : Z) (emg : list (list Q))
  (movements repetitons : list Z).
Context (HL : 1 <= L) (HS : 1 <= S).
Context (Hmov : length movements = length emg) (Hrep : length repetitons = length emg).

Local Abbreviation n := (Z.of_nat (length emg)).
Local Abbreviation cands := (Spec.candidates L S n).








End get_windows.



(** The spec's example: windows of 5 samples every 2 samples on 12 samples
    of one repetition end at positions 4, 6, 8 and 10. *)
Remark window_ends_example :
  Spec.window_ends [1] 5 2 12 (replicate 12 1) (replicate 12 1) None = [4; 6; 8; 10].
Proof. reflexivity. Qed.


(** A single retained window is lost to [np.squeeze]: the index array
    becomes 0-dimensional and [targets.shape[0]] raises. *)
Remark get_windows_single_window :
  Win.get_windows [1] 5 2 (Ex.emg_of 6) (replicate 6 1) (replicate 6 1) None
  = Raise IndexError.
Proof. reflexivity. Qed.

(** ** Balanced splits *)

Section split_lemmas.

Lemma combinations_sublist (l : list Z) (r : nat) (row : list Z) :
  row ∈ Split.combinations l r -> row `sublist_of` l ∧ length row = r.
Proof.
  revert r row. induction l as [|x l IH]; intros [|r] row; cbn [Split.combinations].
  - intros ->%list_elem_of_singleton. split; [constructor|done].
  - intros H. by apply elem_of_nil in H.
  - intros ->%list_elem_of_singleton. split; [apply sublist_nil_l|done].
  - rewrite elem_of_app. intros [(t & -> & Ht)%elem_of_map|H].
    + apply IH in Ht as [Hs Hl]. split; [by apply sublist_skip|cbn; lia].
    + apply IH in H as [Hs Hl]. split; [by apply sublist_cons|done].
Qed.

Lemma foldl_max_ge (t : list Z) (x : Z) :
  x <= foldl Z.max x t ∧ Forall (fun y => y <= foldl Z.max x t) t.
Proof.
  revert x. induction t as [|y t IH]; intros x; cbn [foldl]; [split; [lia|constructor]|].
  destruct (IH (Z.max x y)) as [H1 H2]. split; [lia|].
  constructor; [lia|done].
Qed.

Lemma py_max_ge (l : list Z) (m : Z) :
  Np.py_max l = Ok m -> Forall (fun x => x <= m) l.
Proof.
  destruct l as [|x t]; cbn; [done|]. intros [= <-].
  destruct (foldl_max_ge t x). by constructor.
Qed.

Lemma occurrences_cons (v x : Z) (flat : list Z) :
  Spec.occurrences v (x :: flat) =
  (if decide (x = v) then 1 else 0) + Spec.occurrences v flat.
Proof.
  unfold Spec.occurrences. case_decide.
  - rewrite filter_cons_True by done. cbn [length]. lia.
  - rewrite filter_cons_False by done. lia.
Qed.

Lemma occurrences_not_in (v : Z) (flat : list Z) :
  v ∉ flat -> Spec.occurrences v flat = 0.
Proof.
  intros Hv. induction flat as [|x flat IH]; [done|].
  apply not_elem_of_cons in Hv as [Hx Hv].
  rewrite occurrences_cons, decide_False by done. rewrite IH by done. lia.
Qed.

Lemma occurrences_NoDup (v : Z) (l : list Z) :
  NoDup l -> Spec.occurrences v l <= 1.
Proof.
  induction 1 as [|x l Hx Hnd IH]; [done|].
  rewrite occurrences_cons. case_decide; [|lia].
  subst. rewrite occurrences_not_in by done. lia.
Qed.

(** The check [max(counts) > nb_test], read on occurrences. *)
Lemma unique_counts_bound (rows : list (list Z)) (m : Z) :
  Np.py_max (Split.unique_counts rows) = Ok m ->
  ∀ v, Spec.occurrences v (concat rows) <= Z.max m 0.
Proof.
  intros Hm v. apply py_max_ge in Hm. rewrite Forall_forall in Hm.
  destruct (decide (v ∈ concat rows)) as [Hv|Hv].
  - assert (Spec.occurrences v (concat rows) <= m); [|lia].
    apply Hm. unfold Split.unique_counts. cbv zeta.
    apply elem_of_map. exists v. split; [done|]. by apply elem_of_unique.
  - rewrite occurrences_not_in by done. lia.
Qed.

Lemma sum_list_map_add (f g : Z -> Z) (l : list Z) :
  Spec.sum_list (map (fun v => f v + g v) l) =
  Spec.sum_list (map f l) + Spec.sum_list (map g l).
Proof.
  induction l as [|v l IH]; [done|].
  cbn [map]. rewrite !sum_list_cons, IH. lia.
Qed.

(** Occurrences of the values of a duplicate-free list add up to the
    length of any list drawn from it. *)
Lemma sum_occurrences (ids flat : list Z) :
  NoDup ids -> (∀ x, x ∈ flat -> x ∈ ids) ->
  Spec.sum_list (map (fun v => Spec.occurrences v flat) ids) = Z.of_nat (length flat).
Proof.
  intros Hnd. induction flat as [|x flat IH]; intros Hin.
  - clear. induction ids as [|v ids IH]; [done|].
    cbn [map]. rewrite sum_list_cons, IH. done.
  - assert (Spec.sum_list (map (fun v => if decide (x = v) then 1 else 0) ids) = 1)
      as Hone.
    { assert (x ∈ ids) as Hx by (apply Hin; left). clear -Hnd Hx.
      induction Hnd as [|v ids Hv Hnd IH]; [by apply elem_of_nil in Hx|].
      cbn [map]. rewrite sum_list_cons.
      apply elem_of_cons in Hx as [->|Hx].
      - rewrite decide_True by done.
        assert (Spec.sum_list (map (fun v0 => if decide (v = v0) then 1 else 0) ids) = 0)
          as ->; [|done].
        clear -Hv. induction ids as [|w ids IH]; [done|].
        apply not_elem_of_cons in Hv as [Hw Hv].
        cbn [map]. rewrite sum_list_cons, decide_False by done. by rewrite IH.
      - rewrite decide_False by (intros ->; done). by rewrite IH. }
    specialize (IH ltac:(intros y Hy; apply Hin; by right)).
    rewrite (map_ext _ (fun v => (if decide (x = v) then 1 else 0)
                                 + Spec.occurrences v flat))
      by (intros v; apply occurrences_cons).
    rewrite sum_list_map_add, Hone, IH. cbn [length]. lia.
Qed.

Lemma sum_bounded_each (f : Z -> Z) (k : Z) (ids : list Z) :
  (∀ v, f v <= k) ->
  Spec.sum_list (map f ids) = Z.of_nat (length ids) * k ->
  ∀ v, v ∈ ids -> f v = k.
Proof.
  intros Hle.
  assert (∀ l, Spec.sum_list (map f l) <= Z.of_nat (length l) * k) as Hub.
  { induction l as [|w l IH]; [done|].
    cbn [map length]. rewrite sum_list_cons. specialize (Hle w). lia. }
  induction ids as [|w ids IH]; intros Hsum v Hv; [by apply elem_of_nil in Hv|].
  cbn [map length] in Hsum. rewrite sum_list_cons in Hsum.
  pose proof (Hle w). pose proof (Hub ids).
  apply elem_of_cons in Hv as [->|Hv]; [lia|]. apply IH; [lia|done].
Qed.

Lemma length_concat_rows (rows : list (list Z)) (k : nat) :
  (∀ row, row ∈ rows -> length row = k) ->
  length (concat rows) = (length rows * k)%nat.
Proof.
  induction rows as [|row rows IH]; intros H; [done|].
  cbn [concat length]. rewrite length_app.
  rewrite IH by (intros r Hr; apply H; by right).
  rewrite (H row) by left. lia.
Qed.

End split_lemmas.

Section balanced.

Context (combos : list (list Z)) (nb_splits nb_test first : Z).
Context (Hnb : 0 <= nb_test).
Context (Hrows : ∀ row, row ∈ combos -> length row = Z.to_nat nb_test).

Local Abbreviation inv := (Spec.split_inv combos nb_splits nb_test first).

Lemma set_row_Ok (table table' : list (list Z)) (width : nat) (i : Z) (v : list Z) :
  0 <= i -> length v = width ->
  Split.set_row table width i v = Ok table' ->
  (Z.to_nat i < length table)%nat ∧ table' = <[Z.to_nat i := v]> table.
Proof.
  intros Hi Hv. unfold Split.set_row, Split.broadcast_row, Np.norm_index.
  rewrite (decide_True (P := length v = width)) by done.
  repeat case_decide; cbn; intros; simplify_eq; [split; [lia|done]|lia].
Qed.

Lemma draw_step_inv (st st' : Split.state) (d : nat) (combo : list Z) :
  inv st -> Split.st_cur_split st < nb_splits ->
  Split.st_all_combos st !! d = Some combo ->
  Split.draw_step nb_test st d combo = Ok st' ->
  inv st'.
Proof.
  intros (Hlen & Hfirst & Hcur & Hpool & Hdone & Hocc) Hlt Hd H.
  assert (combo ∈ combos) as Hc by (eapply Hpool, list_elem_of_lookup_2, Hd).
  unfold Split.draw_step in H.
  destruct (Split.set_row _ _ _ combo) as [t1|] eqn:Ht1; cbn in H; [|done].
  apply set_row_Ok in Ht1 as [Hi ->]; [|lia|by apply Hrows].
  destruct (Np.py_max _) as [m|] eqn:Hm; cbn in H; [|done].
  set (k := Z.to_nat (Split.st_cur_split st)) in *.
  assert (∀ row, row ∈ Split.st_all_combos st ->
                 row ∈ combos) as Hpool' by done.
  case_decide as Hgt.
  - destruct (Split.set_row _ _ _ (replicate _ 0)) as [t2|] eqn:Ht2; cbn in H; [|done].
    apply set_row_Ok in Ht2 as [_ ->]; [|lia|by rewrite length_replicate].
    simplify_eq. fold k. unfold Spec.split_inv. cbn. fold k.
    rewrite !length_insert, !take_insert_ge by lia.
    split_and!; try done; try lia.
    intros row Hrow. by eapply Hpool, list_elem_of_delete_inv.
  - simplify_eq. unfold Spec.split_inv. cbn.
    replace (Z.to_nat (Split.st_cur_split st + 1)) with (S k) in * by lia.
    rewrite length_insert.
    assert (take (S k) (<[k := combo]> (Split.st_test_reps st))
            = take k (Split.st_test_reps st) ++ [combo]) as Htake.
    { rewrite (take_S_r _ _ combo) by (by apply list_lookup_insert_eq).
      by rewrite take_insert_ge by lia. }
    split_and!; try done; try lia.
    + intros row Hrow. by eapply Hpool, list_elem_of_delete_inv.
    + rewrite Htake. intros row [Hrow| ->%list_elem_of_singleton]%elem_of_app;
        [by apply Hdone|done].
    + intros v. pose proof (unique_counts_bound _ _ Hm v). lia.
Qed.

Lemma maybe_reset_inv (copy fresh : list (list Z)) (st : Split.state) :
  inv (Split.State copy fresh first 0) -> inv st ->
  inv (Split.maybe_reset copy fresh first st) ∧
  Split.st_cur_split (Split.maybe_reset copy fresh first st) <= Split.st_cur_split st.
Proof.
  intros Hf Hst. unfold Split.maybe_reset. case_decide; [|split; [done|lia]].
  split; [done|]. cbn. destruct Hst as (_ & ? & _). lia.
Qed.

(** When the loop returns, all [nb_splits] folds are in place. *)
Lemma balanced_loop_inv (draws : list nat) (copy fresh : list (list Z))
    (st st' : Split.state) :
  inv (Split.State copy fresh first 0) -> inv st ->
  Split.balanced_loop draws nb_splits nb_test copy fresh first st = Some (Ok st') ->
  inv st' ∧ Split.st_cur_split st' = nb_splits.
Proof.
  intros Hf. revert st.
  induction draws as [|d draws IH]; intros st Hst H; cbn [Split.balanced_loop] in H.
  - case_decide as Hlt.
    + destruct (Split.st_all_combos _); simplify_eq.
    + simplify_eq. split; [done|]. destruct Hst as (_ & _ & ? & _). lia.
  - case_decide as Hlt.
    + destruct (maybe_reset_inv copy fresh st Hf Hst) as [Hr Hle].
      set (st1 := Split.maybe_reset copy fresh first st) in *.
      destruct (Split.st_all_combos st1) as [|c0 pool] eqn:Hp; [simplify_eq|].
      rewrite <- Hp in H.
      destruct (Split.st_all_combos st1 !! d) as [combo|] eqn:Hd; [|done].
      destruct (Split.draw_step nb_test st1 d combo) as [st2|] eqn:Hs; [|simplify_eq].
      apply (IH st2); [|done]. eapply draw_step_inv; [done| |done..]. lia.
    + simplify_eq. split; [done|]. destruct Hst as (_ & _ & ? & _). lia.
Qed.

End balanced.

Section train.

Lemma elem_of_setdiff1d (ids row : list Z) (x : Z) :
  x ∈ Split.setdiff1d ids row <-> x ∈ ids ∧ x ∉ row.
Proof.
  unfold Split.setdiff1d. rewrite list_elem_of_filter, elem_of_unique. tauto.
Qed.

Lemma unique_NoDup_Permutation (ids : list Z) : NoDup ids -> Np.unique ids ≡ₚ ids.
Proof.
  intros Hnd. apply NoDup_Permutation; [apply NoDup_unique|done|].
  intros x. apply elem_of_unique.
Qed.

Lemma length_setdiff1d (ids row : list Z) :
  NoDup ids -> NoDup row -> (∀ x, x ∈ row -> x ∈ ids) ->
  (length (Split.setdiff1d ids row) + length row = length ids)%nat.
Proof.
  intros Hids Hrow Hsub. unfold Split.setdiff1d.
  rewrite (unique_NoDup_Permutation ids Hids).
  pose proof (filter_app_complement (fun x => x ∉ row) ids) as Hp.
  apply Permutation_length in Hp. rewrite length_app in Hp. rewrite <- Hp.
  f_equal.
  apply Permutation_length, NoDup_Permutation; [done|by apply NoDup_filter|].
  intros x. rewrite list_elem_of_filter. split.
  - intros Hx. split; [by intros H|by apply Hsub].
  - intros [Hx _]. by apply dec_stable.
Qed.

(** The train table after the filling loop: every row visited is the set
    difference of the ids and the fold's test row. *)
Lemma fill_train_rows (ids : list Z) (width : nat) (test : list (list Z))
    (cnt s : nat) (train train' : list (list Z)) :
  (∀ row, row ∈ test -> length (Split.setdiff1d ids row) = width) ->
  Split.fill_train ids width test (map Z.of_nat (seq s cnt)) train = Ok train' ->
  length train' = length train ∧
  ∀ i, train' !! i =
       if decide (s <= i < s + cnt)%nat
       then Split.setdiff1d ids <$> test !! i else train !! i.
Proof.
  intros Hw. revert s train.
  induction cnt as [|cnt IH]; intros s train H; cbn [seq map Split.fill_train] in H.
  - simplify_eq. split; [done|]. intros i. by rewrite decide_False by lia.
  - destruct (Np.get test (Z.of_nat s)) as [row|] eqn:Hrow; cbn in H; [|done].
    apply get_nonneg in Hrow; [|lia]. rewrite Nat2Z.id in Hrow.
    destruct (Split.set_row train width (Z.of_nat s) _) as [t1|] eqn:Ht1;
      cbn in H; [|done].
    apply set_row_Ok in Ht1 as [Hs ->];
      [|lia|by eapply Hw, list_elem_of_lookup_2].
    rewrite Nat2Z.id in *.
    apply IH in H as [Hlen Hi]. rewrite length_insert in Hlen.
    split; [done|]. intros i. rewrite Hi.
    destruct (decide (i = s)) as [->|Hne].
    + rewrite decide_False by lia. rewrite decide_True by lia.
      rewrite list_lookup_insert_eq by done. by rewrite Hrow.
    + rewrite list_lookup_insert_ne by done.
      repeat case_decide; try done; lia.
Qed.

End train.

Section balanced_claim.

Context (rep_ids : list Z) (nb_test : Z).
Context (Hnd : NoDup rep_ids) (Hnb : 1 <= nb_test).

Local Abbreviation n := (Z.of_nat (length rep_ids)).
Local Abbreviation combos := (Split.combinations rep_ids (Z.to_nat nb_test)).
Local Abbreviation zeros :=
  (replicate (Z.to_nat n) (replicate (Z.to_nat nb_test) 0)).

Lemma combos_rows (row : list Z) :
  row ∈ combos ->
  length row = Z.to_nat nb_test ∧ NoDup row ∧ ∀ x, x ∈ row -> x ∈ rep_ids.
Proof.
  intros [Hs Hl]%combinations_sublist. split_and!; [done| |].
  - by eapply sublist_NoDup.
  - intros x Hx. by eapply elem_of_sublist.
Qed.

(** The state the loop starts from, and resets to, satisfies the
    invariant. *)
Lemma init_inv (base : option (list Z)) (pool fresh : list (list Z)) (first : Z) :
  match base with
  | Some base =>
      test_reps ← Split.set_row zeros (Z.to_nat nb_test) 0 base;
      row ← Np.get test_reps 0;
      k ← Split.find_base combos row;
      Ok (delete k combos, test_reps, 1)
  | None => Ok (combos, zeros, 0)
  end = Ok (pool, fresh, first) ->
  Spec.split_inv combos n nb_test first (Split.State pool fresh first 0).
Proof.
  destruct base as [b|]; intros H.
  - unfold Split.set_row in H.
    destruct (Np.norm_index _ 0) as [k0|] eqn:Hk0; cbn in H; [|done].
    assert (k0 = 0%nat ∧ 0 < n) as [-> Hn].
    { unfold Np.norm_index in Hk0. rewrite length_replicate in Hk0.
      repeat case_decide; simplify_eq; lia. }
    destruct (Split.broadcast_row _ b) as [r0|]; cbn in H; [|done].
    destruct (Z.to_nat n) as [|m] eqn:Hm; [lia|]. cbn [replicate] in H.
    cbn in H.
    pose proof (get_nat (r0 :: replicate m (replicate (Z.to_nat nb_test) 0)) 0 r0
                  eq_refl) as Hg.
    change (Z.of_nat 0) with 0 in Hg. rewrite Hg in H. cbn in H.
    destruct (Split.find_base combos r0) as [k|] eqn:Hk; cbn in H; [|done].
    simplify_eq. unfold Split.find_base in Hk.
    destruct (list_find _ combos) as [[k' r']|] eqn:Hfind; simplify_eq.
    apply list_find_Some in Hfind as (Hk & -> & _).
    assert (r0 ∈ combos) as Hr0 by (by eapply list_elem_of_lookup_2).
    unfold Spec.split_inv. cbn.
    split_and!; try done; try lia.
    + rewrite length_replicate. lia.
    + intros row Hrow. by eapply list_elem_of_delete_inv.
    + intros row ->%list_elem_of_singleton. done.
    + intros v. change (Z.to_nat 1) with 1%nat. cbn [take concat].
      rewrite app_nil_r.
      destruct (combos_rows r0 Hr0) as (_ & Hndr & _).
      pose proof (occurrences_NoDup v r0 Hndr). lia.
  - simplify_eq. unfold Spec.split_inv. cbn.
    split_and!; try done; try lia.
    + by rewrite length_replicate.
    + intros row Hrow. by apply elem_of_nil in Hrow.
    + intros v. change (Z.to_nat 0) with 0%nat. rewrite take_0.
      rewrite occurrences_not_in by apply not_elem_of_nil. lia.
Qed.

End balanced_claim.

(** C2.  For distinct repetition ids and [nb_test] below their number,
    whenever the balanced generator returns it returns as many folds as
    there are ids; every id is a test member of exactly [nb_test] folds, and
    in every fold the train row and the test row are disjoint and together
    hold all the ids. *)
Theorem balanced_split_exact (draws : list nat) (rep_ids : list Z) (nb_test : Z)
    (base : option (list Z)) (train test : list (list Z)) :
  NoDup rep_ids ->
  nb_test < Z.of_nat (length rep_ids) ->
  Split.gen_split_balanced draws rep_ids nb_test base = Some (Ok (train, test)) ->
  length test = length rep_ids ∧
  length train = length rep_ids ∧
  (∀ id, id ∈ rep_ids -> Spec.occurrences id (concat test) = nb_test) ∧
  ∀ i tr te,
    train !! i = Some tr -> test !! i = Some te ->
    (∀ x, x ∈ tr -> x ∉ te) ∧ (∀ x, x ∈ rep_ids <-> x ∈ tr ∨ x ∈ te).
Proof.
  intros Hnd Hlt H. unfold Split.gen_split_balanced in H. cbv zeta in H.
  set (n := Z.of_nat (length rep_ids)) in *.
  unfold Split.zeros2, Split.all_combos in H.
  rewrite decide_False in H by lia. cbn [Split.lift] in H.
  destruct (decide (n < 0 ∨ nb_test < 0)) as [|Hnb0]; [done|]. cbn [Split.lift] in H.
  rewrite decide_False in H by lia.
  destruct (decide (nb_test = 0)) as [|Hnb1]; [done|]. cbn [Split.lift] in H.
  assert (1 <= nb_test) as Hnb by lia.
  set (combos := Split.combinations rep_ids (Z.to_nat nb_test)) in *.
  match type of H with
  | Split.lift ?m _ = _ => destruct m as [[[pool fresh] first]|] eqn:Hinit
  end; [|done].
  cbn [Split.lift] in H.
  apply (init_inv rep_ids nb_test Hnd Hnb) in Hinit. fold n combos in Hinit.
  destruct (Split.balanced_loop _ _ _ _ _ _ _) as [[st|]|] eqn:Hloop; [|done..].
  cbn [Split.lift] in H.
  destruct (Split.fill_train _ _ _ _ _) as [tr|] eqn:Hfill; [|done].
  cbn [Split.lift] in H. simplify_eq.
  assert (∀ row, row ∈ combos -> length row = Z.to_nat nb_test) as Hrows.
  { intros row Hrow. by destruct (combos_rows rep_ids nb_test Hnd row Hrow). }
  apply (balanced_loop_inv combos n nb_test first ltac:(lia) Hrows) in Hloop
    as [(Hlen & _ & _ & _ & Hdone & Hocc) Hcur]; [|done..].
  rewrite Hcur in Hdone, Hocc.
  rewrite take_ge in Hdone, Hocc by lia.
  set (test := Split.st_test_reps st) in *.
  assert (∀ row, row ∈ test ->
                 length (Split.setdiff1d rep_ids row) = Z.to_nat (n - nb_test))
    as Hwidth.
  { intros row Hrow. destruct (combos_rows rep_ids nb_test Hnd row (Hdone row Hrow))
      as (Hl & Hndr & Hsub).
    pose proof (length_setdiff1d rep_ids row Hnd Hndr Hsub). lia. }
  unfold Np.range in Hfill.
  apply (fill_train_rows rep_ids _ test _ 0 _ _ Hwidth) in Hfill as [Hlt' Hrows'].
  rewrite length_replicate in Hlt'.
  split_and!; [lia|lia| |].
  - intros id Hid.
    apply (sum_bounded_each (fun v => Spec.occurrences v (concat test)) nb_test
             rep_ids); [done| |done].
    rewrite sum_occurrences; [|done|].
    + rewrite (length_concat_rows test (Z.to_nat nb_test)) by (intros; by apply Hrows, Hdone).
      lia.
    + intros x (row & Hx & Hrow)%elem_of_concat.
      destruct (combos_rows rep_ids nb_test Hnd row (Hdone row Hrow)) as (_ & _ & Hsub).
      by apply Hsub.
  - intros i tr' te Htr Hte. rewrite Hrows' in Htr.
    assert (i < length test)%nat as Hi by (by eapply lookup_lt_Some).
    rewrite decide_True in Htr by lia. rewrite Hte in Htr. cbn in Htr. simplify_eq.
    destruct (combos_rows rep_ids nb_test Hnd te) as (_ & _ & Hsub).
    { by eapply Hdone, list_elem_of_lookup_2. }
    split.
    + intros x Hx. by apply elem_of_setdiff1d in Hx as [_ ?].
    + intros x. rewrite elem_of_setdiff1d. split.
      * intros Hx. destruct (decide (x ∈ te)); [by right|by left].
      * intros [[? _]|?]; [done|by apply Hsub].
Qed.

Lemma balanced_split_exact_witness :
  length [[1; 2]; [2; 3]; [1; 3]] = length [1; 2; 3] ∧
  length [[3]; [1]; [2]] = length [1; 2; 3] ∧
  (∀ id, id ∈ [1; 2; 3] ->
         Spec.occurrences id (concat [[1; 2]; [2; 3]; [1; 3]]) = 2) ∧
  ∀ i tr te,
    [[3]; [1]; [2]] !! i = Some tr -> [[1; 2]; [2; 3]; [1; 3]] !! i = Some te ->
    (∀ x, x ∈ tr -> x ∉ te) ∧ (∀ x, x ∈ [1; 2; 3] <-> x ∈ tr ∨ x ∈ te).
Proof.
  apply (balanced_split_exact [0; 1; 0; 1; 0]%nat [1; 2; 3] 2 None
           [[3]; [1]; [2]] [[1; 2]; [2; 3]; [1; 3]]).
  - apply NoDup_ListNoDup. repeat constructor; cbn; lia.
  - cbn. lia.
  - vm_compute. reflexivity.
Defined.

(** * Further properties of the code *)

(** ** The segmenter: when it returns *)

Section segment_total.

Context (fs cap nb_unique_reps : Z) (mr : list Z).

Lemma length_slice_fill {A : Type} (l : list A) (lo hi : Z) (v : A) :
  length (Np.slice_fill l lo hi v) = length l.
Proof.
  unfold Np.slice_fill. cbv zeta.
  assert (∀ i, (Np.slice_bound (length l) i <= length l)%nat) as Hb.
  { intros i. unfold Np.slice_bound. case_decide; lia. }
  pose proof (Hb lo). pose proof (Hb hi).
  destruct (decide (_ < _)%nat); [|done].
  rewrite !length_app, length_take, length_replicate, length_drop. lia.
Qed.

(** The loop preserves the lengths of its two arrays. *)
Lemma body_lengths (i : nat) (st st' : Seg.state) :
  Seg.body fs cap nb_unique_reps mr (Z.of_nat i) st = Ok st' ->
  length (Seg.st_rep st') = length (Seg.st_rep st) ∧
  length (Seg.st_rep_regions st') = length (Seg.st_rep_regions st).
Proof.
  intros Hb. apply body_Ok in Hb as (a & b & _ & _ & Hst). cbv zeta in Hst.
  case_decide; subst st'; cbn; by rewrite length_slice_fill, !length_insert.
Qed.

Lemma loop_lengths (n i : nat) (st st' : Seg.state) :
  Seg.loop fs cap nb_unique_reps mr (map Z.of_nat (seq i n)) st = Ok st' ->
  length (Seg.st_rep st') = length (Seg.st_rep st) ∧
  length (Seg.st_rep_regions st') = length (Seg.st_rep_regions st).
Proof.
  revert i st. induction n as [|n IH]; intros i st H.
  - cbn in H. by simplify_eq.
  - cbn [seq map Seg.loop] in H.
    destruct (Seg.body fs cap nb_unique_reps mr (Z.of_nat i) st) as [st1|] eqn:Hb;
      cbn in H; [|done].
    apply IH in H as [-> ->]. by eapply body_lengths.
Qed.

(** The loop runs to its end as long as the transitions it reads exist. *)
Lemma loop_total (n i : nat) (st : Seg.state) :
  length (Seg.st_rep_regions st) = length mr ->
  (n = 0%nat ∨ 2 * (i + n) < length mr)%nat ->
  ∃ st', Seg.loop fs cap nb_unique_reps mr (map Z.of_nat (seq i n)) st = Ok st'.
Proof.
  revert i st. induction n as [|n IH]; intros i st Hrr Hn.
  - by exists st.
  - destruct Hn as [|Hn]; [done|]. cbn [seq map Seg.loop].
    destruct (lookup_lt_is_Some_2 mr (2 * i + 1)) as [a Ha]; [lia|].
    destruct (lookup_lt_is_Some_2 mr (2 * i + 2)) as [b Hb]; [lia|].
    assert (Spec.rests mr !! i = Some (a, b)) as Hab by (by apply rests_lookup).
    pose proof (body_run fs cap nb_unique_reps mr i st a b Hab ltac:(lia)) as Hrun.
    cbv zeta in Hrun. rewrite Hrun. cbn [mbind result_bind rbind].
    apply IH; [|lia].
    case_decide; cbn; by rewrite !length_insert.
Qed.

End segment_total.

Lemma segment_outcome (fs : Z) (emg : list (list Q)) (rep0 move : list Z)
    (cap : Z) :
  match Seg.segment fs emg rep0 move cap with
  | Ok _ => (2 <= length (Seg.move_regions move))%nat
  | Raise e => e = IndexError ∧ (length (Seg.move_regions move) < 2)%nat
  end.
Proof.
  unfold Seg.segment. cbv zeta.
  set (mr := Seg.move_regions move).
  destruct mr as [|t0 [|t1 mr']] eqn:Hmr.
  - cbn. split; [done|lia].
  - cbn. split; [done|lia].
  - rewrite <- Hmr.
    assert (2 <= length mr)%nat as Hlen by (rewrite Hmr; cbn; lia).
    change (Np.get mr 0) with (Np.get mr (Z.of_nat 0)).
    rewrite (get_nat mr 0 t0) by (by rewrite Hmr).
    cbn [mbind result_bind rbind].
    pose proof (round_half_bounds (Z.of_nat (length mr))) as Hr.
    destruct (loop_total fs cap (Z.of_nat (length (Np.unique rep0)) - 1) mr
                (Z.to_nat (Np.round_half (Z.of_nat (length mr)) - 1)) 0
                (Seg.State (replicate (length rep0) 0) (replicate (length mr) 0)
                   (Np.round_half t0) 0 1)) as [st Hst].
    { cbn. by rewrite length_replicate. }
    { lia. }
    unfold Np.range. rewrite Hst. cbn [mbind result_bind rbind].
    apply loop_lengths in Hst as [_ Hrr]. cbn in Hrr. rewrite length_replicate in Hrr.
    unfold Np.get, Np.set.
    rewrite (norm_index_neg (length mr) (-1)) by lia.
    cbn [mbind result_bind rbind].
    destruct (lookup_lt_is_Some_2 mr (Z.to_nat (-1 + Z.of_nat (length mr))))
      as [tl ->]; [lia|].
    rewrite (norm_index_neg _ (-2)) by lia.
    cbn [mbind result_bind rbind].
    rewrite length_insert, (norm_index_neg _ (-1)) by lia.
    cbn [mbind result_bind rbind]. done.
Qed.

(** The segmenter returns exactly when the movement stream changes label
    at least twice; with fewer transitions it raises [IndexError], from
    [move_regions[0]] or from [rep_regions[-2]]. *)
Theorem segment_returns_iff (fs : Z) (emg : list (list Q)) (rep0 move : list Z)
    (cap : Z) :
  match Seg.segment fs emg rep0 move cap with
  | Ok _ => (2 <= length (Seg.move_regions move))%nat
  | Raise e => e = IndexError ∧ (length (Seg.move_regions move) < 2)%nat
  end.
Proof. exact (segment_outcome fs emg rep0 move cap). Qed.

Section constant.

Lemma diff_constant (x : Z) (l : list Z) :
  (∀ z, z ∈ l -> z = x) -> ∀ i, Np.nonzero_from i (Np.diff (x :: l)) = [].
Proof.
  revert x. induction l as [|y l IH]; intros x Hc i; [done|].
  change (Np.diff (x :: y :: l)) with (Np.wrap8 (y - x) :: Np.diff (y :: l)).
  assert (y = x) as -> by (apply Hc; left).
  cbn [Np.nonzero_from]. rewrite Z.sub_diag.
  rewrite decide_True by done. apply IH. intros z Hz. apply Hc. by right.
Qed.

End constant.

(** A movement stream that never changes label, all rest for instance,
    makes the segmenter raise [IndexError]. *)
Theorem segment_constant_stream (fs : Z) (emg : list (list Q)) (rep0 move : list Z)
    (cap : Z) :
  (∀ x y, x ∈ move -> y ∈ move -> x = y) ->
  Seg.segment fs emg rep0 move cap = Raise IndexError.
Proof.
  intros Hc.
  assert (Seg.move_regions move = []) as Hmr.
  { unfold Seg.move_regions, Np.nonzero. destruct move as [|x l]; [done|].
    apply diff_constant. intros z Hz. apply Hc; [by right|left]. }
  unfold Seg.segment. cbv zeta. by rewrite Hmr.
Qed.

Lemma segment_constant_stream_witness :
  Seg.segment 100 (Ex.emg_of 4) [0; 1; 1; 0] (replicate 4 0) 999 = Raise IndexError.
Proof.
  apply (segment_constant_stream 100 (Ex.emg_of 4) [0; 1; 1; 0] (replicate 4 0) 999).
  intros x y Hx Hy. apply elem_of_replicate in Hx as [-> _].
  by apply elem_of_replicate in Hy as [-> _].
Defined.

Lemma segment_move_kept (fs : Z) (emg : list (list Q)) (rep0 move : list Z)
    (cap : Z) (o : Seg.output) :
  Seg.segment fs emg rep0 move cap = Ok o -> Seg.move o = move.
Proof.
  unfold Seg.segment. cbv zeta. intros H.
  destruct (Np.get _ 0) as [t0|]; cbn in H; [|done].
  destruct (Seg.loop _ _ _ _ _ _) as [st|]; cbn in H; [|done].
  destruct (Np.get _ (-1)) as [tl|]; cbn in H; [|done].
  destruct (Np.set _ (-2) _) as [rr1|]; cbn in H; [|done].
  destruct (Np.set rr1 (-1) _) as [rr2|]; cbn in H; [|done].
  by simplify_eq.
Qed.

(** Whenever the segmenter returns, the signal and the movement stream
    come back as they were given, the repetition stream has the length of
    the raw one, the boundary table has one cell per transition, and the
    truncation counter is not negative. *)
Theorem segment_frame (fs : Z) (emg : list (list Q)) (rep0 move : list Z)
    (cap : Z) (o : Seg.output) :
  Seg.segment fs emg rep0 move cap = Ok o ->
  Seg.emg o = emg ∧ Seg.move o = move ∧
  length (Seg.rep o) = length rep0 ∧
  length (Seg.rep_regions o) = length (Seg.move_regions move) ∧
  0 <= Seg.nb_capped o.
Proof.
  unfold Seg.segment. cbv zeta. intros H.
  destruct (Np.get _ 0) as [t0|] eqn:Ht0; cbn in H; [|done].
  destruct (Seg.loop _ _ _ _ _ _) as [st|] eqn:Hl; cbn in H; [|done].
  destruct (Np.get _ (-1)) as [tl|] eqn:Htl; cbn in H; [|done].
  destruct (Np.set _ (-2) _) as [rr1|] eqn:H1; cbn in H; [|done].
  destruct (Np.set rr1 (-1) _) as [rr2|] eqn:H2; cbn in H; [|done].
  simplify_eq. cbn.
  unfold Np.range in Hl. pose proof Hl as Hcap.
  apply loop_lengths in Hl as [Hrep Hrr]. cbn in Hrep, Hrr.
  rewrite length_replicate in Hrep, Hrr.
  apply loop_nb_capped in Hcap. cbn [Seg.st_nb_capped] in Hcap.
  unfold Np.set in H1, H2.
  destruct (Np.norm_index _ (-2)) as [k1|]; cbn in H1; [|done].
  destruct (Np.norm_index _ (-1)) as [k2|]; cbn in H2; [|done].
  simplify_eq. split_and!; [done|done| | |lia].
  - by rewrite length_slice_fill.
  - by rewrite !length_insert.
Qed.

Lemma segment_frame_witness :
  Ex.emg_of 10 = Ex.emg_of 10 ∧ Ex.move10 = Ex.move10 ∧
  length [0; 0; 1; 1; 1; 1; 1; 1; 0; 0] = length Ex.move10 ∧
  length [2; 7] = length (Seg.move_regions Ex.move10) ∧
  0 <= 0.
Proof.
  apply (segment_frame 100 (Ex.emg_of 10) Ex.move10 Ex.move10 999
           (Seg.Output (Ex.emg_of 10) [0; 0; 1; 1; 1; 1; 1; 1; 0; 0] Ex.move10
              [2; 7] 0)).
  vm_compute. reflexivity.
Defined.

(** The copy of the segmenter in the unrefined importers returns what the
    importers' own returns, the signal left out, whenever the signal is as
    long as the raw repetition stream. *)
Theorem unrefined_segment_agrees (fs : Z) (emg : list (list Q)) (rep0 move : list Z)
    (cap : Z) :
  length emg = length rep0 ->
  Unrefined.segment fs rep0 move cap =
  (o ← Seg.segment fs emg rep0 move cap; Ok (Notions.unrefined o)).
Proof.
  intros Hn. unfold Unrefined.segment, Seg.segment. cbv zeta.
  destruct (Np.get _ 0) as [t0|] eqn:Ht0; cbn [mbind result_bind rbind]; [|done].
  destruct (Seg.loop _ _ _ _ _ _) as [st|] eqn:Hl; cbn [mbind result_bind rbind];
    [|done].
  destruct (Np.get _ (-1)) as [tl|] eqn:Htl; cbn [mbind result_bind rbind]; [|done].
  unfold Np.range in Hl. apply loop_lengths in Hl as [Hrep _]. cbn in Hrep.
  rewrite length_replicate in Hrep. rewrite Hrep, Hn.
  destruct (Np.set _ (-2) _) as [rr1|] eqn:H1; cbn [mbind result_bind rbind]; [|done].
  destruct (Np.set rr1 (-1) _) as [rr2|] eqn:H2; cbn [mbind result_bind rbind]; done.
Qed.

Lemma unrefined_segment_agrees_witness :
  Unrefined.segment 100 Ex.move340 Ex.move340 1 =
  (o ← Seg.segment 100 (Ex.emg_of 340) Ex.move340 Ex.move340 1;
   Ok (Notions.unrefined o)).
Proof.
  apply (unrefined_segment_agrees 100 (Ex.emg_of 340) Ex.move340 Ex.move340 1).
  vm_compute. reflexivity.
Defined.

(** ** The segmenter: blocks and movements *)

Section cover.

(** Each block the walk closes starts no later than the first sample of
    its movement, which follows the transition [q] before it, and ends no
    later than the last sample of the rest [ab] after it. *)
Lemma walk_cover (c p s : Z) (evs : list (Z * Z)) (j : nat) (se : Z * Z) :
  0 <= c -> Spec.chain p evs -> s <= p + 1 ->
  (Spec.walk c s evs).1 !! j = Some se ->
  ∃ ab q,
    evs !! j = Some ab ∧ (p :: map snd evs) !! j = Some q ∧
    s <= se.1 <= q + 1 ∧ (1 <= c -> ab.1 <= se.2) ∧ se.2 <= ab.2.
Proof.
  intros Hc. revert p s j.
  induction evs as [|[a b] evs IH]; intros p s j Hch Hs Hj; [done|].
  destruct Hch as (Hpa & Hab & Hch); cbn [fst snd] in *.
  pose proof (round_half_bounds (a + b)) as Hr.
  cbn [Spec.walk] in Hj. unfold Spec.over_cap in Hj; cbn [fst snd] in Hj.
  destruct (decide (c < Np.round_half (a + b) + 1 - a)) as [Hcap|Hcap];
    cbn [fst snd] in Hj; destruct j as [|j]; cbn in Hj; simplify_eq.
  - exists (a, b), p. cbn. split_and!; try done; lia.
  - destruct (IH b (b - c) j Hch ltac:(lia) Hj) as (ab & q & H1 & H2 & H3 & H4 & H5).
    exists ab, q. cbn. split_and!; try done; lia.
  - exists (a, b), p. cbn. split_and!; try done; lia.
  - destruct (IH b (Np.round_half (a + b) + 1) j Hch ltac:(lia) Hj)
      as (ab & q & H1 & H2 & H3 & H4 & H5).
    exists ab, q. cbn. split_and!; try done; lia.
Qed.

Lemma walk_cursor_ge (c p s : Z) (evs : list (Z * Z)) :
  0 <= c -> Spec.chain p evs -> s <= p + 1 -> s <= (Spec.walk c s evs).2.
Proof.
  intros Hc. revert p s. induction evs as [|[a b] evs IH]; intros p s Hch Hs; [done|].
  destruct Hch as (Hpa & Hab & Hch); cbn [fst snd] in *.
  pose proof (round_half_bounds (a + b)) as Hr.
  cbn [Spec.walk]. unfold Spec.over_cap; cbn [fst snd].
  destruct (decide (c < Np.round_half (a + b) + 1 - a)) as [Hcap|Hcap];
    cbn [fst snd].
  - pose proof (IH b (b - c) Hch ltac:(lia)). lia.
  - pose proof (IH b (Np.round_half (a + b) + 1) Hch ltac:(lia)). lia.
Qed.

Lemma chain_le (p : Z) (evs : list (Z * Z)) (j : nat) (ab : Z * Z) :
  Spec.chain p evs -> evs !! j = Some ab -> ab.2 <= Spec.chain_end p evs.
Proof.
  revert p j. induction evs as [|[a b] evs IH]; intros p j Hch Hj; [done|].
  destruct Hch as (Hpa & Hab & Hch). cbn [Spec.chain_end snd].
  destruct j as [|j]; cbn in Hj.
  - simplify_eq. cbn. by apply chain_end_ge.
  - by eapply IH.
Qed.

(** The transition before the last movement. *)
Lemma chain_end_lookup (k : nat) (p : Z) (t : list Z) :
  length t = (2 * k + 1)%nat ->
  (p :: t) !! (2 * k)%nat = Some (Spec.chain_end p (Spec.rows t)).
Proof.
  revert p t. induction k as [|k IH]; intros p [|a [|b t]] Hlen;
    cbn in Hlen; try lia.
  - done.
  - replace (2 * S k)%nat with (S (S (2 * k))) by lia.
    cbn [Spec.rows Spec.chain_end snd lookup list_lookup].
    apply (IH b t). lia.
Qed.

Lemma prev_transition (t0 : Z) (t : list Z) (j : nat) (q : Z) :
  (t0 :: map snd (Spec.rows t)) !! j = Some q -> (t0 :: t) !! (2 * j)%nat = Some q.
Proof.
  revert t0 t. induction j as [|j IH]; intros t0 t H; [done|].
  destruct t as [|a [|b t]]; cbn in H; try done.
  replace (2 * S j)%nat with (S (S (2 * j))) by lia.
  cbn [lookup list_lookup]. by apply IH.
Qed.

End cover.

(** On a valid input every block lies within the signal and starts no
    later than the first sample of its movement (the one following the
    transition [u]); when the cap is at least one sample long the block
    also reaches the last sample [v] of that movement, so that no
    movement sample is left out of its block. *)
Theorem blocks_enclose_movements (fs : Z) (emg : list (list Q)) (rep0 move : list Z)
    (cap : Z) :
  Spec.valid_input fs emg move cap ->
  ∃ o,
    Seg.segment fs emg rep0 move cap = Ok o ∧
    ∀ (j : nat) se,
      Spec.rows (Seg.rep_regions o) !! j = Some se ->
      ∃ u v,
        Seg.move_regions move !! (2 * j)%nat = Some u ∧
        Seg.move_regions move !! (2 * j + 1)%nat = Some v ∧
        0 <= se.1 <= u + 1 ∧ se.2 <= Z.of_nat (length emg) - 1 ∧
        (1 <= cap * fs -> v <= se.2).
Proof.
  intros (Hn & [k Hk] & Hc).
  destruct (segment_paired fs emg rep0 move cap k Hk) as (o & Ho & Hrows & _).
  destruct (valid_input_chain emg move k Hk Hn) as (Ht0 & Hch & Hend & Htl).
  set (mr := Seg.move_regions move) in *.
  set (c := cap * fs) in *.
  assert (Spec.lead_gap mr <= mr !!! 0%nat) as Hlead.
  { unfold Spec.lead_gap. pose proof (round_half_bounds (mr !!! 0%nat)). lia. }
  assert (0 <= Spec.lead_gap mr) as Hlead0.
  { unfold Spec.lead_gap. pose proof (round_half_bounds (mr !!! 0%nat)). lia. }
  destruct mr as [|t0 t] eqn:Hmr; [cbn in Hk; lia|].
  cbn [lookup_total list_lookup_total] in *.
  unfold Spec.rests in *. cbn [tail] in *.
  assert (length t = (2 * k + 1)%nat) as Hlt by (cbn in Hk; lia).
  replace (length (t0 :: t) - 1)%nat with (S (2 * k)) in * by (cbn; lia).
  destruct (lookup_lt_is_Some_2 (t0 :: t) (S (2 * k))) as [tl Htl'];
    [cbn; lia|].
  rewrite (list_lookup_total_correct _ _ _ Htl') in *.
  set (w := Spec.walk c (Spec.lead_gap (t0 :: t)) (Spec.rows t)) in *.
  assert (length w.1 = k) as Hlw.
  { unfold w. rewrite length_walk. by apply length_rows_odd. }
  exists o. split; [done|]. intros j se Hj. rewrite Hrows in Hj.
  destruct (decide (j < k)%nat) as [Hjk|Hjk].
  - rewrite lookup_app_l in Hj by lia.
    destruct (walk_cover c t0 (Spec.lead_gap (t0 :: t)) (Spec.rows t) j se Hc Hch
                ltac:(lia) Hj)
      as ([a b] & q & H1 & H2 & H3 & H4 & H5).
    cbn [fst snd] in *.
    exists q, a. split_and!; try lia.
    + by apply prev_transition.
    + apply rows_lookup in H1 as [H1 _].
      replace (2 * j + 1)%nat with (S (2 * j)) by lia. done.
    + pose proof (chain_le t0 _ j (a, b) Hch H1). cbn in *. lia.
  - assert (j = k) as Hjk'.
    { apply lookup_lt_Some in Hj. rewrite length_app in Hj. cbn in Hj. lia. }
    subst j.
    rewrite lookup_app_r in Hj by lia.
    replace (k - length w.1)%nat with 0%nat in Hj by lia.
    cbn in Hj. injection Hj as <-. cbn [fst snd].
    exists (Spec.chain_end t0 (Spec.rows t)), tl.
    destruct (walk_rows c Hc t0 (Spec.lead_gap (t0 :: t)) (Spec.rows t) Hch
                ltac:(lia) ltac:(lia)) as (_ & Hw & _).
    pose proof (walk_cursor_ge c t0 (Spec.lead_gap (t0 :: t)) (Spec.rows t) Hc Hch
                  ltac:(lia)) as Hge.
    fold w in Hw, Hge.
    unfold Spec.end_idx. replace (length (t0 :: t) - 1)%nat with (S (2 * k)) by (cbn; lia).
    rewrite (list_lookup_total_correct _ _ _ Htl').
    pose proof (round_half_bounds (Z.of_nat (length emg) + tl)).
    split_and!; try lia.
    + by apply chain_end_lookup.
    + by replace (2 * k + 1)%nat with (S (2 * k)) by lia.
Qed.

Lemma blocks_enclose_movements_witness :
  ∃ o,
    Seg.segment 100 (Ex.emg_of 340) Ex.move340 Ex.move340 1 = Ok o ∧
    ∀ (j : nat) se,
      Spec.rows (Seg.rep_regions o) !! j = Some se ->
      ∃ u v,
        Seg.move_regions Ex.move340 !! (2 * j)%nat = Some u ∧
        Seg.move_regions Ex.move340 !! (2 * j + 1)%nat = Some v ∧
        0 <= se.1 <= u + 1 ∧ se.2 <= Z.of_nat (length (Ex.emg_of 340)) - 1 ∧
        (1 <= 1 * 100 -> v <= se.2).
Proof.
  apply (blocks_enclose_movements 100 (Ex.emg_of 340) Ex.move340 Ex.move340 1).
  split_and!; [reflexivity| |lia]. exists 1%nat. reflexivity.
Defined.

(** With a cap of zero every rest is capped, and each block but the last
    stops one sample before the end of its movement. *)
Remark zero_cap_cuts_movement :
  (o ← Seg.segment 100 (Ex.emg_of 12) Ex.move12 Ex.move12 0;
   Ok (Seg.move_regions Ex.move12, Spec.rows (Seg.rep_regions o)))
  = Ok ([1; 3; 7; 9], [(0, 2); (7, 9)]).
Proof. vm_compute. reflexivity. Qed.

(** ** The segmenter: the labels follow the blocks *)

Section paint.

Lemma iter_next_label (nb : Z) (j : nat) :
  Nat.iter j (Notions.next_label nb) 1 = Notions.block_label nb j.
Proof.
  unfold Notions.block_label. case_decide as Hnb.
  - induction j as [|j IH]; [cbn; by rewrite Z.mod_0_l by lia|].
    rewrite Nat.iter_succ, IH. unfold Notions.next_label.
    pose proof (Z.mod_pos_bound (Z.of_nat j) nb ltac:(lia)) as Hm.
    replace (Z.of_nat (S j)) with (Z.of_nat j + 1) by lia.
    case_decide as Hw.
    + assert (Z.of_nat j `mod` nb = nb - 1) as Heq by lia.
      rewrite <- Z.add_mod_idemp_l, Heq by lia.
      replace (nb - 1 + 1) with nb by lia. rewrite Z.mod_same by lia. done.
    + rewrite <- Z.add_mod_idemp_l by lia.
      rewrite (Z.mod_small (_ + 1)) by lia. done.
  - induction j as [|j IH]; [done|].
    rewrite Nat.iter_succ, IH. unfold Notions.next_label.
    rewrite decide_True by lia. done.
Qed.

Lemma iter_S_r {A : Type} (f : A -> A) (n : nat) (x : A) :
  Nat.iter (S n) f x = Nat.iter n f (f x).
Proof. apply Nat.iter_succ_r. Qed.

Lemma ordered_start (hi : Z) (rows : list (Z * Z)) (j : nat) (se : Z * Z) :
  Notions.ordered hi rows -> rows !! j = Some se -> hi <= se.1 ∧ se.1 <= se.2.
Proof.
  revert hi j. induction rows as [|r rows IH]; intros hi j Ho Hj; [done|].
  destruct Ho as (H1 & H2 & Ho). destruct j as [|j]; cbn in Hj.
  - by simplify_eq.
  - destruct (IH _ _ Ho Hj). lia.
Qed.

Lemma length_paint (nb hi l : Z) (rows : list (Z * Z)) :
  Notions.ordered hi rows ->
  Forall (fun se => se.2 + 1 <= hi + Z.of_nat (length (Notions.paint nb hi l rows))) rows.
Proof.
  revert hi l. induction rows as [|[s e] rows IH]; intros hi l Ho; [constructor|].
  destruct Ho as (H1 & H2 & Ho); cbn [fst snd] in *.
  cbn [Notions.paint fst snd]. rewrite !length_app, !length_replicate.
  specialize (IH (e + 1) (Notions.next_label nb l) Ho).
  constructor; [cbn; lia|].
  eapply Forall_impl; [exact IH|]. intros se Hse; cbn beta in *. lia.
Qed.

(** A sample inside a block carries the block's index. *)
Lemma paint_inside (nb hi l : Z) (rows : list (Z * Z)) (j : nat) (se : Z * Z) (p : Z) :
  Notions.ordered hi rows -> rows !! j = Some se -> se.1 <= p <= se.2 ->
  Notions.paint nb hi l rows !! Z.to_nat (p - hi) =
  Some (Np.wrap8 (Nat.iter j (Notions.next_label nb) l)).
Proof.
  revert hi l j. induction rows as [|[s e] rows IH]; intros hi l j Ho Hj Hp; [done|].
  destruct Ho as (H1 & H2 & Ho); cbn [fst snd] in *.
  cbn [Notions.paint fst snd]. destruct j as [|j]; cbn in Hj.
  - simplify_eq. cbn [fst snd] in *.
    rewrite lookup_app_r by (rewrite length_replicate; lia).
    rewrite length_replicate, lookup_app_l by (rewrite length_replicate; lia).
    apply lookup_replicate_2. lia.
  - destruct (ordered_start _ _ _ _ Ho Hj) as [Hs He].
    rewrite lookup_app_r by (rewrite length_replicate; lia).
    rewrite length_replicate, lookup_app_r by (rewrite length_replicate; lia).
    rewrite length_replicate, iter_S_r.
    replace (Z.to_nat (p - hi) - Z.to_nat (s - hi) - Z.to_nat (e + 1 - s))%nat
      with (Z.to_nat (p - (e + 1))) by lia.
    by apply IH.
Qed.

(** A sample outside every block carries 0. *)
Lemma paint_outside (nb hi l : Z) (rows : list (Z * Z)) (q : nat) (x : Z) :
  Notions.ordered hi rows ->
  Notions.paint nb hi l rows !! q = Some x ->
  (∀ se, se ∈ rows -> ¬ se.1 <= hi + Z.of_nat q <= se.2) -> x = 0.
Proof.
  revert hi l q. induction rows as [|[s e] rows IH]; intros hi l q Ho Hq Hout; [done|].
  destruct Ho as (H1 & H2 & Ho); cbn [fst snd] in *.
  cbn [Notions.paint fst snd] in Hq.
  apply lookup_app_Some in Hq as [Hq|[Hl Hq]].
  { by apply lookup_replicate in Hq as [-> _]. }
  rewrite length_replicate in Hl, Hq.
  apply lookup_app_Some in Hq as [Hq|[Hl' Hq]].
  { apply lookup_replicate in Hq as [_ Hq]. exfalso.
    apply (Hout (s, e)); [left|]. cbn. lia. }
  rewrite length_replicate in Hl', Hq.
  eapply (IH (e + 1)); [done|exact Hq|].
  intros se Hse. specialize (Hout se ltac:(by right)). lia.
Qed.

Context (fs cap nb : Z) (mr : list Z) (N : nat).

Local Abbreviation c := (cap * fs).

(** The loop fills the blocks it closes: its label stream is the one
    [Notions.paint] describes, and the blocks are in order. *)
Lemma loop_paint (evs : list (Z * Z)) (i : nat) (st st' : Seg.state)
    (p : Z) (pre : list Z) :
  0 <= c ->
  Seg.loop fs cap nb mr (map Z.of_nat (seq i (length evs))) st = Ok st' ->
  (forall j ab, evs !! j = Some ab -> Spec.rests mr !! (i + j)%nat = Some ab) ->
  Spec.chain p evs -> Spec.caps_fit c evs ->
  Spec.chain_end p evs <= Z.of_nat N - 2 ->
  Seg.st_last_end_idx st <= p + 1 -> (c <= 1 -> Seg.st_last_end_idx st <= p) ->
  Seg.st_rep st = pre ++ replicate (N - length pre) 0 ->
  Z.of_nat (length pre) <= Seg.st_last_end_idx st ->
  let w := Spec.walk c (Seg.st_last_end_idx st) evs in
  let pre' := pre ++ Notions.paint nb (Z.of_nat (length pre)) (Seg.st_cur_rep st) w.1 in
  Seg.st_rep st' = pre' ++ replicate (N - length pre') 0 ∧
  Z.of_nat (length pre') <= Seg.st_last_end_idx st' ∧
  Seg.st_last_end_idx st' <= Spec.chain_end p evs + 1 ∧
  Notions.ordered (Z.of_nat (length pre)) w.1 ∧
  Seg.st_cur_rep st' = Nat.iter (length evs) (Notions.next_label nb) (Seg.st_cur_rep st) ∧
  Seg.st_last_end_idx st' = w.2.
Proof.
  intros Hc. revert i st p pre.
  induction evs as [|[a b] evs IH];
    intros i st p pre Hl Hev Hch Hfit Hend Hs Hs1 Hrep Hhi.
  - cbn in Hl. simplify_eq. cbn. rewrite app_nil_r. split_and!; try done; lia.
  - cbn [length seq map Seg.loop] in Hl.
    destruct (Seg.body fs cap nb mr (Z.of_nat i) st) as [st1|] eqn:Hb;
      cbn in Hl; [|done].
    assert (Spec.rests mr !! i = Some (a, b)) as Hab.
    { rewrite <- (Nat.add_0_r i). by apply Hev. }
    apply body_Ok in Hb as (a' & b' & Hab' & _ & Hst). cbv zeta in Hst.
    rewrite Hab in Hab'. injection Hab' as <- <-.
    destruct Hch as (Hpa & Hlt & Hch); cbn [fst snd] in *.
    apply Forall_cons in Hfit as [Hfit1 Hfit]. cbn [fst snd] in Hfit1.
    pose proof (round_half_bounds (a + b)) as Hr.
    cbn [Spec.chain_end snd] in Hend |- *.
    assert (b <= Z.of_nat N - 2) as HbN
      by (pose proof (chain_end_ge b evs Hch); lia).
    assert (forall j ab, evs !! j = Some ab ->
                         Spec.rests mr !! (S i + j)%nat = Some ab) as Hev'.
    { intros j ab Hj. replace (S i + j)%nat with (i + S j)%nat by lia.
      by apply Hev. }
    set (s := Seg.st_last_end_idx st) in *.
    set (l := Seg.st_cur_rep st) in *.
    cbv zeta. cbn [Spec.walk]. unfold Spec.over_cap in *; cbn [fst snd] in *.
    cbn [length]. rewrite iter_S_r.
    destruct (decide (c < Np.round_half (a + b) + 1 - a)) as [Hcap|Hcap];
      subst st1; cbn [fst snd Notions.paint Notions.ordered].
    + specialize (Hfit1 Hcap).
      rewrite Hrep, (slice_fill_zeros N pre (length pre)) in Hl by lia.
      match type of Hl with
      | Seg.loop _ _ _ _ _ ?s1 = _ =>
          pose proof (IH (S i) s1 b
                        (pre ++ replicate (Z.to_nat s - length pre) 0
                             ++ replicate (Z.to_nat (a + c - s)) (Np.wrap8 l))
                        Hl Hev' Hch Hfit Hend
                        ltac:(cbn; lia) ltac:(cbn; lia)) as IH'
      end.
      cbn [Seg.st_rep Seg.st_last_end_idx Seg.st_cur_rep] in IH'.
      rewrite !length_app, !length_replicate in IH'.
      replace (length pre + (Z.to_nat s - length pre + Z.to_nat (a + c - s)))%nat
        with (Z.to_nat (a + c)) in IH' by lia.
      specialize (IH' ltac:(reflexivity) ltac:(lia)). cbv zeta in IH'.
      destruct IH' as (H1 & H2 & H3 & H4 & H5 & H6).
      replace (Z.of_nat (Z.to_nat (a + c))) with (a + c - 1 + 1) in H1, H2, H4 by lia.
      replace (Z.to_nat (s - Z.of_nat (length pre)))
        with (Z.to_nat s - length pre)%nat by lia.
      replace (a + c - 1 + 1 - s) with (a + c - s) by lia.
      fold (Notions.next_label nb l) in H1, H2, H4, H5.
      rewrite !length_app, !length_replicate.
      split_and!; try done; try lia.
      rewrite H1, <- !app_assoc. do 4 f_equal. f_equal. lia.
    + rewrite Hrep, (slice_fill_zeros N pre (length pre)) in Hl by lia.
      set (m := Np.round_half (a + b) + 1) in *.
      match type of Hl with
      | Seg.loop _ _ _ _ _ ?s1 = _ =>
          pose proof (IH (S i) s1 b
                        (pre ++ replicate (Z.to_nat s - length pre) 0
                             ++ replicate (Z.to_nat (m - s)) (Np.wrap8 l))
                        Hl Hev' Hch Hfit Hend
                        ltac:(cbn; lia) ltac:(cbn; lia)) as IH'
      end.
      cbn [Seg.st_rep Seg.st_last_end_idx Seg.st_cur_rep] in IH'.
      rewrite !length_app, !length_replicate in IH'.
      replace (length pre + (Z.to_nat s - length pre + Z.to_nat (m - s)))%nat
        with (Z.to_nat m) in IH' by lia.
      specialize (IH' ltac:(reflexivity) ltac:(lia)). cbv zeta in IH'.
      destruct IH' as (H1 & H2 & H3 & H4 & H5 & H6).
      replace (Z.of_nat (Z.to_nat m)) with (m - 1 + 1) in H1, H2, H4 by lia.
      replace (Z.to_nat (s - Z.of_nat (length pre)))
        with (Z.to_nat s - length pre)%nat by lia.
      replace (m - 1 + 1 - s) with (m - s) by lia.
      fold (Notions.next_label nb l) in H1, H2, H4, H5.
      rewrite !length_app, !length_replicate.
      split_and!; try done; try lia.
      rewrite H1, <- !app_assoc. do 4 f_equal. f_equal. lia.
Qed.

End paint.

Lemma segment_labels (fs : Z) (emg : list (list Q)) (rep0 move : list Z)
    (cap : Z) :
  Spec.valid_input fs emg move cap ->
  length rep0 = length emg ->
  Spec.caps_fit (cap * fs) (Spec.rests (Seg.move_regions move)) ->
  ∃ o,
    Seg.segment fs emg rep0 move cap = Ok o ∧
    let nb := Z.of_nat (length (Np.unique rep0)) - 1 in
    let rows := Spec.rows (Seg.rep_regions o) in
    (∀ (j : nat) se p,
       rows !! j = Some se -> se.1 <= p <= se.2 ->
       Seg.rep o !! Z.to_nat p = Some (Np.wrap8 (Notions.block_label nb j))) ∧
    (∀ (q : nat) x,
       Seg.rep o !! q = Some x ->
       (∀ se, se ∈ rows -> ¬ se.1 <= Z.of_nat q <= se.2) -> x = 0).
Proof.
  intros (Hn & [k Hk] & Hc) Hrep0 Hfit.
  destruct (segment_paired fs emg rep0 move cap k Hk) as (o & Ho & Hrows & _).
  destruct (valid_input_chain emg move k Hk Hn) as (Ht0 & Hch & Hend & Htl).
  pose proof (segment_Ok fs emg rep0 move cap o Ho) as (t0 & st & Hg & Hl & _ & _ & Hrep).
  set (mr := Seg.move_regions move) in *.
  set (nb := Z.of_nat (length (Np.unique rep0)) - 1) in *.
  set (N := length rep0).
  assert (mr !!! 0%nat = t0) as Ht.
  { change 0 with (Z.of_nat 0) in Hg. apply get_nonneg in Hg; [|lia].
    by apply list_lookup_total_correct. }
  rewrite Ht in *.
  assert (length (Spec.rests mr) = k) as Hlk.
  { apply length_rows_odd. destruct mr; cbn in *; lia. }
  rewrite Hk in Hl. replace (Z.of_nat (2 * S k)) with (2 * Z.of_nat (S k)) in Hl by lia.
  rewrite round_half_even in Hl. unfold Np.range in Hl.
  replace (Z.to_nat (Z.of_nat (S k) - 1)) with (length (Spec.rests mr)) in Hl by lia.
  pose proof (round_half_bounds t0) as Hr0.
  pose proof (loop_paint fs cap nb mr N (Spec.rests mr) 0 _ st t0 [] Hc Hl
                ltac:(done) Hch Hfit ltac:(unfold N; lia)
                ltac:(cbn; lia) ltac:(cbn; lia)
                ltac:(cbn; by rewrite Nat.sub_0_r) ltac:(cbn; lia)) as Hp.
  cbn [Seg.st_last_end_idx Seg.st_cur_rep length app] in Hp. cbv zeta in Hp.
  replace (Np.round_half t0) with (Spec.lead_gap mr) in Hp
    by (unfold Spec.lead_gap; by rewrite Ht).
  set (w := Spec.walk (cap * fs) (Spec.lead_gap mr) (Spec.rests mr)) in *.
  change (Z.of_nat 0) with 0 in Hp.
  set (pre := Notions.paint nb 0 1 w.1) in *.
  destruct Hp as (Hst & Hlen & Hcur_le & Hord & Hcur & Hlast).
  rewrite Hlk, iter_next_label in Hcur.
  set (e := Spec.end_idx (Z.of_nat (length emg)) mr) in *.
  assert (w.2 < e ∧ e <= Z.of_nat N) as [Hwe HeN].
  { unfold e, Spec.end_idx.
    pose proof (round_half_bounds
                  (Z.of_nat (length emg) + mr !!! (length mr - 1)%nat)).
    unfold N. lia. }
  rewrite Hst, Hlast, Hcur in Hrep.
  rewrite (slice_fill_zeros N pre (length pre)) in Hrep by lia.
  assert (length w.1 = k) as Hlw by (unfold w; by rewrite length_walk).
  exists o. split; [done|]. cbv zeta. rewrite Hrows, Hrep. split.
  - intros j se p Hj Hp.
    destruct (decide (j < k)%nat) as [Hjk|Hjk].
    + rewrite lookup_app_l in Hj by lia.
      pose proof (paint_inside nb 0 1 w.1 j se p Hord Hj Hp) as Hin.
      rewrite Z.sub_0_r, iter_next_label in Hin. fold pre in Hin.
      apply lookup_app_l_Some. by apply lookup_app_l_Some.
    + assert (j = k) as Hjk'.
      { apply lookup_lt_Some in Hj. rewrite length_app in Hj. cbn in Hj. lia. }
      subst j. rewrite lookup_app_r in Hj by lia.
      replace (k - length w.1)%nat with 0%nat in Hj by lia.
      cbn in Hj. injection Hj as <-. cbn [fst snd] in Hp.
      rewrite lookup_app_l by (rewrite !length_app, !length_replicate; lia).
      rewrite lookup_app_r by lia.
      rewrite lookup_app_r by (rewrite length_replicate; lia).
      apply lookup_replicate_2. rewrite length_replicate. lia.
  - intros q x Hq Hout.
    apply lookup_app_Some in Hq as [Hq|[_ Hq]];
      [|by apply lookup_replicate in Hq as [-> _]].
    apply lookup_app_Some in Hq as [Hq|[Hl1 Hq]].
    { apply (paint_outside nb 0 1 w.1 q x Hord Hq).
      intros se Hse. rewrite Z.add_0_l. apply Hout, elem_of_app. by left. }
    apply lookup_app_Some in Hq as [Hq|[Hl2 Hq]];
      [by apply lookup_replicate in Hq as [-> _]|].
    rewrite length_replicate in Hl2, Hq.
    apply lookup_replicate in Hq as [_ Hq]. exfalso.
    apply (Hout (w.2, e - 1)); [apply elem_of_app; right; left|]. cbn. fold pre in Hl1. lia.
Qed.

(** On a valid input whose raw repetition stream is as long as the signal
    and whose capped rests are at least twice the cap long, the repetition
    stream returned follows the boundary table: every sample of the [j]-th
    block carries the index of that block, [j mod nb_unique_reps + 1] as an
    [int8], and a sample outside every block carries 0. *)
Theorem rep_labels_follow_blocks (fs : Z) (emg : list (list Q)) (rep0 move : list Z)
    (cap : Z) :
  Spec.valid_input fs emg move cap ->
  length rep0 = length emg ->
  Spec.caps_fit (cap * fs) (Spec.rests (Seg.move_regions move)) ->
  ∃ o,
    Seg.segment fs emg rep0 move cap = Ok o ∧
    let nb := Z.of_nat (length (Np.unique rep0)) - 1 in
    let rows := Spec.rows (Seg.rep_regions o) in
    (∀ (j : nat) se p,
       rows !! j = Some se -> se.1 <= p <= se.2 ->
       Seg.rep o !! Z.to_nat p = Some (Np.wrap8 (Notions.block_label nb j))) ∧
    (∀ (q : nat) x,
       Seg.rep o !! q = Some x ->
       (∀ se, se ∈ rows -> ¬ se.1 <= Z.of_nat q <= se.2) -> x = 0).
Proof. exact (segment_labels fs emg rep0 move cap). Qed.

Lemma rep_labels_follow_blocks_witness :
  ∃ o,
    Seg.segment 100 (Ex.emg_of 340) Ex.move340 Ex.move340 1 = Ok o ∧
    let nb := Z.of_nat (length (Np.unique Ex.move340)) - 1 in
    let rows := Spec.rows (Seg.rep_regions o) in
    (∀ (j : nat) se p,
       rows !! j = Some se -> se.1 <= p <= se.2 ->
       Seg.rep o !! Z.to_nat p = Some (Np.wrap8 (Notions.block_label nb j))) ∧
    (∀ (q : nat) x,
       Seg.rep o !! q = Some x ->
       (∀ se, se ∈ rows -> ¬ se.1 <= Z.of_nat q <= se.2) -> x = 0).
Proof.
  apply (rep_labels_follow_blocks 100 (Ex.emg_of 340) Ex.move340 Ex.move340 1).
  - split_and!; [reflexivity| |lia]. exists 1%nat. reflexivity.
  - reflexivity.
  - repeat constructor. cbn. intros _. lia.
Defined.

(** ** The segmenter: what the blocks leave out *)

(** C1 (as amended).  On a valid input the segmenter returns, and the block
    lengths of its boundary table add up to the signal length minus the
    samples left unassigned before the first block (up to the midpoint
    between the stream start and the first transition), after the last
    block (from the midpoint between the last transition and the stream
    end), and between two blocks at every rest the cap truncated.  When the
    raw repetition stream is as long as the signal and holds at most 256
    distinct values, and no capped rest is shorter than twice the cap, the
    samples left out are exactly the label-0 samples of the output: a
    sample carries 0 if and only if it lies in no block, and the samples
    that carry a repetition index number the sum of the block lengths. *)
Theorem block_lengths_account (fs : Z) (emg : list (list Q)) (rep0 move : list Z)
    (cap : Z) :
  Spec.valid_input fs emg move cap ->
  ∃ o,
    Seg.segment fs emg rep0 move cap = Ok o ∧
    Spec.block_length_sum (Seg.rep_regions o) =
      Z.of_nat (length emg)
      - Spec.lead_gap (Seg.move_regions move)
      - Spec.tail_gap (Z.of_nat (length emg)) (Seg.move_regions move)
      - Spec.sum_list (map (Spec.trunc_gap (cap * fs))
                         (Spec.rests (Seg.move_regions move))) ∧
    (length rep0 = length emg ->
     Z.of_nat (length (Np.unique rep0)) <= 256 ->
     Spec.caps_fit (cap * fs) (Spec.rests (Seg.move_regions move)) ->
     Spec.assigned (Seg.rep o) = Spec.block_length_sum (Seg.rep_regions o) ∧
     ∀ (q : nat) x,
       Seg.rep o !! q = Some x ->
       (x = 0 <->
        ∀ se, se ∈ Spec.rows (Seg.rep_regions o) -> ¬ se.1 <= Z.of_nat q <= se.2)).
Proof.
  intros Hv. pose proof Hv as (Hn & [k Hk] & Hc).
  destruct (segment_paired fs emg rep0 move cap k Hk) as (o & Ho & Hrows & _).
  exists o. split; [done|]. split.
  - unfold Spec.block_length_sum. rewrite Hrows, map_app, sum_list_app, walk_sum.
    unfold Spec.tail_gap. cbn. lia.
  - intros Hrep Hu Hfit. split; [by eapply segment_assigned|].
    destruct (segment_labels fs emg rep0 move cap Hv Hrep Hfit)
      as (o' & Ho' & Hin & Hout).
    rewrite Ho in Ho'. injection Ho' as <-. cbv zeta in Hin, Hout.
    intros q x Hq. split; [|by apply Hout].
    intros -> se [j Hj]%list_elem_of_lookup Hse.
    pose proof (Hin j se (Z.of_nat q) Hj Hse) as Hl.
    rewrite Nat2Z.id, Hq in Hl. injection Hl as Hl.
    symmetry in Hl. revert Hl. apply wrap8_nonzero.
    unfold Notions.block_label. case_decide; [|lia].
    pose proof (Z.mod_pos_bound (Z.of_nat j)
                  (Z.of_nat (length (Np.unique rep0)) - 1) ltac:(lia)).
    lia.
Qed.

Lemma block_lengths_account_witness :
  ∃ o,
    Seg.segment 100 (Ex.emg_of 340) Ex.move340 Ex.move340 1 = Ok o ∧
    Spec.block_length_sum (Seg.rep_regions o) =
      Z.of_nat (length (Ex.emg_of 340))
      - Spec.lead_gap (Seg.move_regions Ex.move340)
      - Spec.tail_gap (Z.of_nat (length (Ex.emg_of 340))) (Seg.move_regions Ex.move340)
      - Spec.sum_list (map (Spec.trunc_gap (1 * 100))
                         (Spec.rests (Seg.move_regions Ex.move340))) ∧
    (length Ex.move340 = length (Ex.emg_of 340) ->
     Z.of_nat (length (Np.unique Ex.move340)) <= 256 ->
     Spec.caps_fit (1 * 100) (Spec.rests (Seg.move_regions Ex.move340)) ->
     Spec.assigned (Seg.rep o) = Spec.block_length_sum (Seg.rep_regions o) ∧
     ∀ (q : nat) x,
       Seg.rep o !! q = Some x ->
       (x = 0 <->
        ∀ se, se ∈ Spec.rows (Seg.rep_regions o) -> ¬ se.1 <= Z.of_nat q <= se.2)).
Proof.
  apply (block_lengths_account 100 (Ex.emg_of 340) Ex.move340 Ex.move340 1).
  split; [vm_compute; reflexivity|].
  split; [exists 1%nat; vm_compute; reflexivity | lia].
Defined.

(** On that stream: 230 samples in two blocks, 110 samples left at 0. *)
Remark block_lengths_example :
  (o ← Seg.segment 100 (Ex.emg_of 340) Ex.move340 Ex.move340 1;
   Ok (Spec.block_length_sum (Seg.rep_regions o), Spec.assigned (Seg.rep o),
       Spec.lead_gap (Seg.move_regions Ex.move340),
       Spec.tail_gap 340 (Seg.move_regions Ex.move340),
       map (Spec.trunc_gap 100) (Spec.rests (Seg.move_regions Ex.move340))))
  = Ok (230, 230, 4, 6, [100]).
Proof. vm_compute. reflexivity. Qed.

(** C1 as stated fails: without any truncation the blocks of a 10-sample
    stream cover 6 samples, the first and last two staying unassigned. *)
Lemma block_lengths_miss_stream_ends :
  ¬ (∀ o,
       Seg.segment 100 (Ex.emg_of 10) Ex.move10 Ex.move10 999 = Ok o ->
       Spec.block_length_sum (Seg.rep_regions o) =
         Z.of_nat (length (Ex.emg_of 10))
         - Spec.sum_list (map (Spec.trunc_gap (999 * 100))
                            (Spec.rests (Seg.move_regions Ex.move10)))).
Proof.
  intros H.
  pose proof (H _ ltac:(vm_compute; reflexivity)) as H'.
  vm_compute in H'. discriminate H'.
Qed.

(** ** The label remappers *)

Section force.

Lemma replace_val_eq (old new x : Z) :
  x = old -> Notions.replace_val old new x = new.
Proof. intros ->. unfold Notions.replace_val. by rewrite decide_True. Qed.

Lemma replace_val_ne (old new x : Z) :
  x ≠ old -> Notions.replace_val old new x = x.
Proof. intros H. unfold Notions.replace_val. by rewrite decide_False. Qed.

Lemma replace_eq_map (old new : Z) (a : list Z) :
  Importers.replace_eq old new a = map (Notions.replace_val old new) a.
Proof. reflexivity. Qed.

End force.

(** Settles the innermost replacement of a chain by arithmetic. *)
Ltac replace_step :=
  match goal with
  | |- context [Notions.replace_val ?o ?n ?y] =>
      lazymatch y with
      | context [Notions.replace_val] => fail
      | _ => first [ rewrite (replace_val_eq o n y) by lia
                   | rewrite (replace_val_ne o n y) by lia ]
      end
  end.

Lemma remap_force_map (base : Z) (a : list Z) :
  40 <= base ->
  Importers.remap_force base a = map (Notions.force_label base) a.
Proof.
  intros Hb. unfold Importers.remap_force.
  rewrite !replace_eq_map, !map_map. apply map_ext. intros x.
  unfold Notions.force_label.
  repeat (case_decide; [subst x; by repeat replace_step|]).
  by repeat replace_step.
Qed.

(** Above a base of at least 40 the nine in-place replacements of
    [import_db2] and [import_db3] act as one table: the force labels
    1, 2, 4, 6, 8, 9, 16, 32, 40 become [base + 1 .. base + 9] and every
    other label is kept. *)
Theorem remap_force_table (base : Z) (a : list Z) :
  40 <= base ->
  Importers.remap_force base a = map (Notions.force_label base) a.
Proof. apply remap_force_map. Qed.

Lemma remap_force_table_witness :
  Importers.remap_force 40 [0; 1; 2; 4; 6; 8; 9; 16; 32; 40; 0] =
  map (Notions.force_label 40) [0; 1; 2; 4; 6; 8; 9; 16; 32; 40; 0].
Proof. apply (remap_force_table 40). lia. Defined.

(** Below 40 a replaced label can be replaced again: with a base of 39 the
    labels 1 and 40 both end as 48. *)
Remark remap_force_collision :
  Importers.remap_force 39 [0; 1; 40; 0] = [0; 48; 48; 0].
Proof. reflexivity. Qed.

Section streams.

Lemma set_last {A : Type} (l l' : list A) (v : A) :
  Np.set l (-1) v = Ok l' -> ∃ front x, l = front ++ [x] ∧ l' = front ++ [v].
Proof.
  destruct l as [|x l _] using rev_ind; [done|].
  unfold Np.set. rewrite length_app. cbn [length].
  rewrite norm_index_neg by lia. cbn [mbind result_bind rbind].
  replace (Z.to_nat (-1 + Z.of_nat (length l + 1))) with (length l + 0)%nat by lia.
  rewrite insert_app_r. cbn. intros [= <-]. eauto.
Qed.

Lemma unrefined_segment_move (fs : Z) (rep0 move : list Z) (cap : Z)
    (u : Unrefined.output) :
  Unrefined.segment fs rep0 move cap = Ok u -> Unrefined.move u = move.
Proof.
  unfold Unrefined.segment. cbv zeta. intros H.
  destruct (Np.get _ 0) as [t0|]; cbn in H; [|done].
  destruct (Seg.loop _ _ _ _ _ _) as [st|]; cbn in H; [|done].
  destruct (Np.get _ (-1)) as [tl|]; cbn in H; [|done].
  destruct (Np.set _ (-2) _) as [rr1|]; cbn in H; [|done].
  destruct (Np.set rr1 (-1) _) as [rr2|]; cbn in H; [|done].
  by simplify_eq.
Qed.

Lemma py_max_elem (l : list Z) (m : Z) :
  Np.py_max l = Ok m -> m ∈ l ∧ Forall (fun x => x <= m) l.
Proof.
  intros H. split; [|by apply py_max_ge].
  destruct l as [|x t]; cbn in H; [done|]. injection H as <-.
  revert x. induction t as [|y t IH]; intros x; cbn [foldl]; [left|].
  pose proof (IH (Z.max x y)) as Hm. apply elem_of_cons in Hm as [Hm|Hm].
  - rewrite Hm. destruct (Z.max_spec x y) as [[_ ->]|[_ ->]]; [right; left|left].
  - by do 2 right.
Qed.

Lemma py_max_squeezed_Ok (l : list Z) (m : Z) :
  Importers.py_max_squeezed l = Ok m -> Np.py_max l = Ok m ∧ (2 <= length l)%nat.
Proof. destruct l as [|x [|y l]]; [done..|]. intros H. split; [done|cbn; lia]. Qed.

Lemma py_max_squeezed_runs (l : list Z) :
  (2 <= length l)%nat -> ∃ m, Importers.py_max_squeezed l = Ok m.
Proof. destruct l as [|x [|y l]]; cbn; [lia..|]. eauto. Qed.

(** A value within the range of a type is stored as it is. *)
Lemma wrap_id (dt : Importers.dtype) (z : Z) :
  Importers.dtype_min dt <= z <= Importers.dtype_max dt -> Importers.wrap dt z = z.
Proof.
  intros Hz. unfold Importers.wrap. rewrite Z.mod_small; [lia|].
  destruct dt; cbn in *; lia.
Qed.

Lemma dtype_min_nonpos (dt : Importers.dtype) : Importers.dtype_min dt <= 0.
Proof. destruct dt; cbn; lia. Qed.

(** The replacements of [import_db3] are those of [remap_force] as long as
    the new labels fit the files' type. *)
Lemma remap_force_in_fits (dt : Importers.dtype) (last_mov : Z) (a : list Z) :
  -1 <= last_mov -> last_mov + 9 <= Importers.dtype_max dt ->
  Importers.remap_force_in dt last_mov a = Importers.remap_force last_mov a.
Proof.
  intros H1 H2. pose proof (dtype_min_nonpos dt).
  unfold Importers.remap_force_in. by rewrite !wrap_id by lia.
Qed.

Lemma offset_nonzero_above (dt : Importers.dtype) (m b : Z) (l : list Z) :
  0 <= m -> m + b <= Importers.dtype_max dt ->
  Forall (fun x => 0 <= x <= b) l ->
  Forall (fun y => y = 0 ∨ m < y <= m + b) (Importers.offset_nonzero dt m l).
Proof.
  intros Hm Hb Hl. unfold Importers.offset_nonzero. apply Forall_forall.
  intros y (x & -> & Hx)%elem_of_map. rewrite Forall_forall in Hl.
  specialize (Hl x Hx). cbn beta in Hl. pose proof (dtype_min_nonpos dt).
  case_decide; [|lia]. rewrite wrap_id by lia. lia.
Qed.

(** The signal and the labels are built side by side: once both come out,
    [import_db1] is the segmenter run on them. *)
Lemma import_db1_parts (dt : Importers.dtype) (e1 e2 e3 : Importers.mat_file)
    (cap : Z) (emg : Stack.array2) (move : list Z) :
  Importers.stack_emg e1 e2 e3 = Ok emg ->
  Importers.remap_db1 dt e1 e2 e3 = Ok move ->
  Importers.import_db1 dt e1 e2 e3 cap =
  Seg.segment 100 (Stack.rows emg)
    (Importers.mf_rerepetition e1 ++ Importers.mf_rerepetition e2
       ++ Importers.mf_rerepetition e3)
    (map Np.wrap8 move) cap.
Proof.
  unfold Importers.stack_emg, Importers.remap_db1, Importers.import_db1. cbv zeta.
  intros He Hm.
  destruct (Stack.vstack _ (Importers.mf_emg e2)) as [emg2|]; cbn in He |- *; [|done].
  destruct (Importers.py_max_squeezed _) as [m1|]; cbn in Hm |- *; [|done].
  rewrite He. cbn.
  destruct (Np.py_max _) as [m2|]; cbn in Hm |- *; [|done].
  injection Hm as <-. by rewrite <- !app_assoc.
Qed.

End streams.

(** C8 (as amended).  [import_db1] checks no range.  When the signals of the
    three files stack and the first exercise holds at least two samples,
    the remapper returns, and [import_db1] fails only as the segmenter
    does on a stream of fewer than two transitions; otherwise it returns,
    and the movement labels it returns are the remapped ids cast to [int8]
    by wrap-around, ids within [-128, 127] being kept as they are. *)
Theorem remapped_labels_wrap (dt : Importers.dtype) (e1 e2 e3 : Importers.mat_file)
    (cap : Z) (emg : Stack.array2) :
  Importers.stack_emg e1 e2 e3 = Ok emg ->
  (2 <= length (Importers.mf_restimulus e1))%nat ->
  ∃ move,
    Importers.remap_db1 dt e1 e2 e3 = Ok move ∧
    match Importers.import_db1 dt e1 e2 e3 cap with
    | Ok o =>
        Seg.move o = map Np.wrap8 move ∧
        Forall (fun x => -128 <= x <= 127) (Seg.move o) ∧
        ∀ (i : nat) x,
          move !! i = Some x -> -128 <= x <= 127 -> Seg.move o !! i = Some x
    | Raise e =>
        e = IndexError ∧
        (length (Seg.move_regions (map Np.wrap8 move)) < 2)%nat
    end.
Proof.
  intros He H1.
  assert (∃ move, Importers.remap_db1 dt e1 e2 e3 = Ok move) as [move Hm].
  { unfold Importers.remap_db1. cbv zeta.
    destruct (py_max_squeezed_runs _ H1) as [m1 Hm1]. rewrite Hm1. cbn.
    destruct (Importers.mf_restimulus e1) as [|x l]; [cbn in H1; lia|]. cbn. eauto. }
  exists move. split; [done|].
  rewrite (import_db1_parts dt e1 e2 e3 cap emg move He Hm).
  pose proof (segment_outcome 100 (Stack.rows emg)
                (Importers.mf_rerepetition e1 ++ Importers.mf_rerepetition e2
                   ++ Importers.mf_rerepetition e3) (map Np.wrap8 move) cap) as Ho.
  destruct (Seg.segment _ _ _ _ _) as [o|e] eqn:Hs; [|done].
  apply segment_move_kept in Hs as ->. split_and!; [done| |].
  - apply Forall_forall. intros x (y & -> & _)%elem_of_map. apply wrap8_range.
  - intros i x Hi Hx.
    change (map Np.wrap8 move) with (Np.wrap8 <$> move).
    rewrite list_lookup_fmap, Hi. cbn. by rewrite wrap8_id.
Qed.

Lemma remapped_labels_wrap_witness :
  ∃ move,
    Importers.remap_db1 Importers.UInt8 (Ex.file_of 1 1) (Ex.file_of 1 1)
      (Ex.file_of 1 1) = Ok move ∧
    match Importers.import_db1 Importers.UInt8 (Ex.file_of 1 1) (Ex.file_of 1 1)
            (Ex.file_of 1 1) 999 with
    | Ok o =>
        Seg.move o = map Np.wrap8 move ∧
        Forall (fun x => -128 <= x <= 127) (Seg.move o) ∧
        ∀ (i : nat) x,
          move !! i = Some x -> -128 <= x <= 127 -> Seg.move o !! i = Some x
    | Raise e =>
        e = IndexError ∧
        (length (Seg.move_regions (map Np.wrap8 move)) < 2)%nat
    end.
Proof.
  apply (remapped_labels_wrap Importers.UInt8 (Ex.file_of 1 1) (Ex.file_of 1 1)
           (Ex.file_of 1 1) 999
           (Stack.Array2 2 (Ex.emg2_of 4 ++ Ex.emg2_of 4 ++ Ex.emg2_of 4))).
  - vm_compute. reflexivity.
  - cbn. lia.
Defined.

(** C8 as stated fails: with label 127 in the first exercise, the second
    exercise's label 1 is remapped to 128, and [import_db1] returns it as
    -128 instead of failing. *)
Lemma remap_overflow_is_silent :
  ¬ (∀ move,
       Importers.remap_db1 Importers.UInt8 (Ex.file_of 127 127) (Ex.file_of 1 1)
         (Ex.file_of 1 1) = Ok move ->
       Exists (fun x => ¬ (-128 <= x <= 127)) move ->
       is_ok (Importers.import_db1 Importers.UInt8 (Ex.file_of 127 127)
                (Ex.file_of 1 1) (Ex.file_of 1 1) 999) = false).
Proof.
  intros H.
  pose proof (H _ ltac:(vm_compute; reflexivity)) as H'.
  assert (is_ok (Importers.import_db1 Importers.UInt8 (Ex.file_of 127 127)
                   (Ex.file_of 1 1) (Ex.file_of 1 1) 999) = false) as Hf.
  { apply H'. do 5 apply Exists_cons_tl. apply Exists_cons_hd. lia. }
  vm_compute in Hf. discriminate Hf.
Qed.

(** What the importer returns on that input: the twelve rows of the three
    signals, and the labels 128 and 129 as -128 and -127. *)
Remark remap_overflow_labels :
  (o ← Importers.import_db1 Importers.UInt8 (Ex.file_of 127 127) (Ex.file_of 1 1)
         (Ex.file_of 1 1) 999;
   Ok (length (Seg.emg o), Seg.move o))
  = Ok (12%nat, [0; 127; 127; 0; 0; -128; -128; 0; 0; -127; -127; 0]).
Proof. vm_compute. reflexivity. Qed.

(** The spec's example: three sessions labelled [0, 1, 2, 0]. *)
Remark remap_db1_example :
  Importers.remap_db1 Importers.UInt8 (Ex.file_of 1 2) (Ex.file_of 1 2)
    (Ex.file_of 1 2)
  = Ok [0; 1; 2; 0; 0; 3; 4; 0; 0; 5; 6; 0].
Proof. reflexivity. Qed.

(** Whenever [import_db2] returns, its movement stream is the
    [restimulus] of the first two exercises followed by the [stimulus] of
    the third with its last sample set to rest and its force labels
    renumbered 41 to 49, cast to [int8]; it ends at rest. *)
Theorem import_db2_movements (e1 e2 e3 : Importers.mat_file) (cap : Z)
    (o : Seg.output) :
  Importers.import_db2 e1 e2 e3 cap = Ok o ->
  ∃ front x,
    Importers.mf_stimulus e3 = front ++ [x] ∧
    Seg.move o =
      map Np.wrap8 (Importers.mf_restimulus e1 ++ Importers.mf_restimulus e2
                      ++ map (Notions.force_label 40) (front ++ [0])) ∧
    last (Seg.move o) = Some 0.
Proof.
  unfold Importers.import_db2. cbv zeta. intros H.
  destruct (Stack.vstack _ (Importers.mf_emg e2)) as [emg2|]; cbn in H; [|done].
  destruct (Stack.vstack emg2 _) as [emg3|]; cbn in H; [|done].
  destruct (Np.set (Importers.mf_repetition e3) _ _) as [rep3|]; cbn in H; [|done].
  destruct (Np.set (Importers.mf_stimulus e3) _ _) as [stim|] eqn:Hs; cbn in H; [|done].
  apply set_last in Hs as (front & x & Hf & ->).
  apply segment_move_kept in H as Hm.
  rewrite remap_force_map, <- app_assoc in Hm by lia.
  exists front, x. split_and!; [done..|].
  rewrite Hm, !map_app, !app_assoc. cbn [map]. by rewrite last_snoc.
Qed.

Lemma import_db2_movements_witness :
  ∃ front x,
    Importers.mf_stimulus (Ex.file_of 2 2) = front ++ [x] ∧
    [0; 1; 1; 0; 0; 1; 1; 0; 0; 42; 42; 0] =
      map Np.wrap8 (Importers.mf_restimulus (Ex.file_of 1 1)
                      ++ Importers.mf_restimulus (Ex.file_of 1 1)
                      ++ map (Notions.force_label 40) (front ++ [0])) ∧
    last [0; 1; 1; 0; 0; 1; 1; 0; 0; 42; 42; 0] = Some 0.
Proof.
  apply (import_db2_movements (Ex.file_of 1 1) (Ex.file_of 1 1) (Ex.file_of 2 2) 999
           (Seg.Output (Ex.emg2_of 4 ++ Ex.emg2_of 4 ++ Ex.emg2_of 4)
              [1; 1; 1; 1; 1; 1; 1; 1; 1; 1; 1; 0]
              [0; 1; 1; 0; 0; 1; 1; 0; 0; 42; 42; 0]
              [0; 3; 4; 7; 8; 10] 0)).
  vm_compute. reflexivity.
Defined.

(** Whenever [import_db2_unrefined] returns, its movement stream is the
    [stimulus] of the first two exercises followed by the [stimulus] of
    the third with its last sample set to rest and its force labels
    renumbered 41 to 49, cast to [int8]; it ends at rest. *)
Theorem import_db2_unrefined_movements (e1 e2 e3 : Importers.mat_file) (cap : Z)
    (u : Unrefined.output) :
  Unrefined.import_db2_unrefined e1 e2 e3 cap = Ok u ->
  ∃ front x,
    Importers.mf_stimulus e3 = front ++ [x] ∧
    Unrefined.move u =
      map Np.wrap8 (Importers.mf_stimulus e1 ++ Importers.mf_stimulus e2
                      ++ map (Notions.force_label 40) (front ++ [0])) ∧
    last (Unrefined.move u) = Some 0.
Proof.
  unfold Unrefined.import_db2_unrefined. cbv zeta. intros H.
  destruct (Np.set (Importers.mf_repetition e3) _ _) as [rep3|]; cbn in H; [|done].
  destruct (Np.set (Importers.mf_stimulus e3) _ _) as [stim|] eqn:Hs; cbn in H; [|done].
  apply set_last in Hs as (front & x & Hf & ->).
  apply unrefined_segment_move in H as Hm.
  rewrite remap_force_map, <- app_assoc in Hm by lia.
  exists front, x. split_and!; [done..|].
  rewrite Hm, !map_app, !app_assoc. cbn [map]. by rewrite last_snoc.
Qed.

Lemma import_db2_unrefined_movements_witness :
  ∃ front x,
    Importers.mf_stimulus (Ex.file_of 2 2) = front ++ [x] ∧
    [0; 1; 1; 0; 0; 1; 1; 0; 0; 42; 42; 0] =
      map Np.wrap8 (Importers.mf_stimulus (Ex.file_of 1 1)
                      ++ Importers.mf_stimulus (Ex.file_of 1 1)
                      ++ map (Notions.force_label 40) (front ++ [0])) ∧
    last [0; 1; 1; 0; 0; 1; 1; 0; 0; 42; 42; 0] = Some 0.
Proof.
  apply (import_db2_unrefined_movements (Ex.file_of 1 1) (Ex.file_of 1 1)
           (Ex.file_of 2 2) 999
           (Unrefined.Output
              [1; 1; 1; 1; 1; 1; 1; 1; 1; 1; 1; 0]
              [0; 1; 1; 0; 0; 1; 1; 0; 0; 42; 42; 0]
              [0; 3; 4; 7; 8; 10] 0)).
  vm_compute. reflexivity.
Defined.

(** On label streams whose labels lie between 0 and a bound [b], with
    [3 * b] within the range of the files' integer type, whenever the
    remapper of [import_db1] returns, rest stays 0 and every gesture id of
    an exercise is greater than every id of the exercises before it: the
    second exercise is shifted by the largest id [m1] of the first, the
    third by the largest id [m2] of the first two. *)
Theorem remap_db1_separates (dt : Importers.dtype) (e1 e2 e3 : Importers.mat_file)
    (b : Z) (move : list Z) :
  Forall (fun x => 0 <= x <= b) (Importers.mf_restimulus e1) ->
  Forall (fun x => 0 <= x <= b) (Importers.mf_restimulus e2) ->
  Forall (fun x => 0 <= x <= b) (Importers.mf_restimulus e3) ->
  3 * b <= Importers.dtype_max dt ->
  Importers.remap_db1 dt e1 e2 e3 = Ok move ->
  ∃ m1 m2,
    move = Importers.mf_restimulus e1
             ++ Importers.offset_nonzero dt m1 (Importers.mf_restimulus e2)
             ++ Importers.offset_nonzero dt m2 (Importers.mf_restimulus e3) ∧
    0 <= m1 <= m2 ∧
    Forall (fun x => 0 <= x <= m1) (Importers.mf_restimulus e1) ∧
    Forall (fun y => y = 0 ∨ m1 < y <= m2)
      (Importers.offset_nonzero dt m1 (Importers.mf_restimulus e2)) ∧
    Forall (fun y => y = 0 ∨ m2 < y)
      (Importers.offset_nonzero dt m2 (Importers.mf_restimulus e3)).
Proof.
  intros H1 H2 H3 Hb. unfold Importers.remap_db1. cbv zeta. intros H.
  destruct (Importers.py_max_squeezed _) as [m1|] eqn:Hm1; cbn in H; [|done].
  destruct (Np.py_max (_ ++ _)) as [m2|] eqn:Hm2; cbn in H; [|done].
  injection H as <-.
  apply py_max_squeezed_Ok in Hm1 as [Hm1 _].
  apply py_max_elem in Hm1 as [Hin1 Hle1].
  apply py_max_elem in Hm2 as [Hin2 Hle2].
  assert (0 <= m1 <= b) as Hm1 by (rewrite Forall_forall in H1; by apply H1).
  pose proof (offset_nonzero_above dt m1 b _ ltac:(lia) ltac:(lia) H2) as Ha.
  apply Forall_app in Hle2 as [Hle2a Hle2b].
  assert (m1 <= m2) as Hm12 by (rewrite Forall_forall in Hle2a; by apply Hle2a).
  assert (m2 <= 2 * b) as Hm2b.
  { apply elem_of_app in Hin2 as [Hin2|Hin2].
    - rewrite Forall_forall in H1. specialize (H1 m2 Hin2). cbn beta in H1. lia.
    - rewrite Forall_forall in Ha. specialize (Ha m2 Hin2). cbn beta in Ha. lia. }
  exists m1, m2. rewrite <- app_assoc. split_and!; [done|lia|done| | |].
  - rewrite Forall_forall in H1, Hle1 |- *. intros x Hx.
    specialize (H1 x Hx). specialize (Hle1 x Hx). cbn beta in *. lia.
  - rewrite Forall_forall in Ha, Hle2b |- *. intros y Hy.
    specialize (Ha y Hy). specialize (Hle2b y Hy). cbn beta in *. lia.
  - eapply Forall_impl;
      [apply (offset_nonzero_above dt m2 b); [lia|lia|exact H3]|].
    intros y Hy. cbn beta in *. lia.
Qed.

Lemma remap_db1_separates_witness :
  ∃ m1 m2,
    [0; 1; 2; 0; 0; 3; 4; 0; 0; 5; 6; 0] =
      Importers.mf_restimulus (Ex.file_of 1 2)
        ++ Importers.offset_nonzero Importers.UInt8 m1
             (Importers.mf_restimulus (Ex.file_of 1 2))
        ++ Importers.offset_nonzero Importers.UInt8 m2
             (Importers.mf_restimulus (Ex.file_of 1 2)) ∧
    0 <= m1 <= m2 ∧
    Forall (fun x => 0 <= x <= m1) (Importers.mf_restimulus (Ex.file_of 1 2)) ∧
    Forall (fun y => y = 0 ∨ m1 < y <= m2)
      (Importers.offset_nonzero Importers.UInt8 m1
         (Importers.mf_restimulus (Ex.file_of 1 2))) ∧
    Forall (fun y => y = 0 ∨ m2 < y)
      (Importers.offset_nonzero Importers.UInt8 m2
         (Importers.mf_restimulus (Ex.file_of 1 2))).
Proof.
  apply (remap_db1_separates Importers.UInt8 (Ex.file_of 1 2) (Ex.file_of 1 2)
           (Ex.file_of 1 2) 2 [0; 1; 2; 0; 0; 3; 4; 0; 0; 5; 6; 0]).
  - repeat constructor; cbn; lia.
  - repeat constructor; cbn; lia.
  - repeat constructor; cbn; lia.
  - cbn. lia.
  - reflexivity.
Defined.

(** A first exercise of a single sample cannot be imported by
    [import_db1]: its label vector is squeezed to a 0-dimensional array, and
    [max(move)] raises [TypeError] once the signal of the second file is
    stacked (a [ValueError] if that fails); [import_db1_unrefined], which
    loads no signal, raises [TypeError]. *)
Theorem import_db1_single_sample (dt : Importers.dtype)
    (e1 e2 e3 : Importers.mat_file) (cap : Z) :
  length (Importers.mf_restimulus e1) = 1%nat ->
  length (Importers.mf_stimulus e1) = 1%nat ->
  Importers.import_db1 dt e1 e2 e3 cap =
    Raise (if is_ok (Stack.vstack
                       (Stack.atleast_2d (Stack.squeeze (Importers.mf_emg e1)))
                       (Importers.mf_emg e2))
           then TypeError else ValueError) ∧
  Unrefined.import_db1_unrefined dt e1 e2 e3 cap = Raise TypeError.
Proof.
  intros H1 H2. split.
  - unfold Importers.import_db1, Stack.vstack. cbv zeta.
    destruct (Importers.mf_restimulus e1) as [|x [|y l]]; try done.
    by case_decide.
  - unfold Unrefined.import_db1_unrefined. cbv zeta.
    by destruct (Importers.mf_stimulus e1) as [|x [|y l]].
Qed.

Lemma import_db1_single_sample_witness :
  Importers.import_db1 Importers.UInt8 Ex.file_one_sample (Ex.file_of 1 1)
    (Ex.file_of 1 1) 999 =
    Raise (if is_ok (Stack.vstack
                       (Stack.atleast_2d
                          (Stack.squeeze (Importers.mf_emg Ex.file_one_sample)))
                       (Importers.mf_emg (Ex.file_of 1 1)))
           then TypeError else ValueError) ∧
  Unrefined.import_db1_unrefined Importers.UInt8 Ex.file_one_sample (Ex.file_of 1 1)
    (Ex.file_of 1 1) 999 = Raise TypeError.
Proof.
  apply (import_db1_single_sample Importers.UInt8 Ex.file_one_sample
           (Ex.file_of 1 1) (Ex.file_of 1 1) 999); reflexivity.
Defined.

(** Beyond that range the shifted ids wrap around in the files' type: with
    [uint8] labels 200, 100 and 1 in the three exercises, the second
    exercise comes out as 44, below the first, and the third as 201. *)
Remark remap_db1_wraps_in_file_type :
  Importers.remap_db1 Importers.UInt8 (Ex.file_of 200 200) (Ex.file_of 100 100)
    (Ex.file_of 1 1)
  = Ok [0; 200; 200; 0; 0; 44; 44; 0; 0; 201; 201; 0].
Proof. reflexivity. Qed.

(** ** Index lookup in general *)

Section lookup_general.

Lemma idxs_read (a vals : list Z) :
  Lookup.take_idxs a (concat (map (Np.where_eq a) vals)) =
  Ok (concat (map (fun v => filter (fun x => x = v) a) vals)).
Proof.
  rewrite take_idxs_Ok by apply idxs_range.
  pose proof (idxs_grouped (fun x => x) vals a) as H.
  rewrite map_id in H. by rewrite H.
Qed.

End lookup_general.

(** [get_idxs] raises [ValueError] when [to_find] is empty and returns
    otherwise.  The positions returned are those of [in_array] holding a
    value of [to_find], none out of range; reading [in_array] there gives,
    for each value of [to_find] in turn, its occurrences in [in_array]; and
    no position is returned twice when [to_find] holds no value twice. *)
Theorem get_idxs_positions (in_array to_find : list Z) :
  match Lookup.get_idxs in_array to_find with
  | Raise e => e = ValueError ∧ to_find = []
  | Ok r =>
      to_find ≠ [] ∧
      (∀ i, i ∈ Lookup.ravel r <->
            ∃ (k : nat) x, i = Z.of_nat k ∧ in_array !! k = Some x ∧ x ∈ to_find) ∧
      Lookup.take_idxs in_array (Lookup.ravel r) =
        Ok (concat (map (fun v => filter (fun x => x = v) in_array) to_find)) ∧
      (NoDup to_find -> NoDup (Lookup.ravel r))
  end.
Proof.
  destruct to_find as [|v vs] eqn:Hv; [done|]. rewrite <- Hv.
  rewrite get_idxs_Ok by (by rewrite Hv). rewrite ravel_squeeze.
  split_and!.
  - by rewrite Hv.
  - intros i. rewrite elem_of_concat. split.
    + intros (l & Hil & (x & -> & Hx)%elem_of_map).
      apply elem_of_where_eq in Hil as (k & -> & Hk). eauto.
    + intros (k & x & -> & Hk & Hx). exists (Np.where_eq in_array x). split.
      * apply elem_of_where_eq. eauto.
      * apply elem_of_map. eauto.
  - apply idxs_read.
  - intros Hnd. apply NoDup_concat_map; [done| |].
    + intros x. apply sorted_lt_NoDup, where_eq_sorted.
    + intros x y i Hxy (k & -> & Hk)%elem_of_where_eq (k' & Hkk & Hk')%elem_of_where_eq.
      assert (k = k') as -> by lia. congruence.
Qed.

(** ** Window extraction: signals shorter than a window *)

(** On a signal shorter than the window there is no candidate position, and
    [get_windows] raises [IndexError] instead of returning no window; an
    increment of zero is a [ValueError]. *)
Theorem get_windows_short_signal (which_reps : list Z) (L S : Z)
    (emg : list (list Q)) (movements repetitons : list Z)
    (which_moves : option (list Z)) :
  1 <= L -> 0 <= S -> Z.of_nat (length emg) < L ->
  Win.get_windows which_reps L S emg movements repetitons which_moves =
  Raise (if decide (S = 0) then ValueError else IndexError).
Proof.
  intros HL HS Hn. unfold Win.get_windows, Win.window_targets, Np.range3.
  destruct (decide (S = 0)) as [HS0|HS0]; [reflexivity|].
  rewrite (decide_True (P := 0 < S)) by lia.
  assert ((Z.of_nat (length emg) - (L - 1) + S - 1) `div` S <= 0) as Hd.
  { assert ((Z.of_nat (length emg) - (L - 1) + S - 1) `div` S < 1); [|lia].
    apply Z.div_lt_upper_bound; lia. }
  replace (Z.to_nat ((Z.of_nat (length emg) - (L - 1) + S - 1) `div` S))
    with 0%nat by lia.
  done.
Qed.

Lemma get_windows_short_signal_witness :
  Win.get_windows [1] 5 2 (Ex.emg_of 4) (replicate 4 1) (replicate 4 1) None =
  Raise (if decide (2 = 0) then ValueError else IndexError).
Proof.
  apply (get_windows_short_signal [1] 5 2 (Ex.emg_of 4) (replicate 4 1)
           (replicate 4 1) None); cbn; lia.
Defined.

(** ** Normalisation: in place, on the training rows *)

Section training.

Lemma elem_of_range (n : nat) (i : Z) :
  i ∈ Np.range (Z.of_nat n) <-> ∃ k : nat, i = Z.of_nat k ∧ (k < n)%nat.
Proof.
  unfold Np.range. rewrite Nat2Z.id, elem_of_map. split.
  - intros (k & -> & Hk). exists k. split; [done|].
    apply list_elem_of_In, in_seq in Hk. lia.
  - intros (k & -> & Hk). exists k. split; [done|].
    apply list_elem_of_In, in_seq. lia.
Qed.

Lemma NoDup_range (n : nat) : NoDup (Np.range (Z.of_nat n)).
Proof.
  unfold Np.range. rewrite Nat2Z.id.
  apply (NoDup_fmap_2 Z.of_nat), NoDup_ListNoDup, seq_NoDup.
Qed.

Lemma range_read (a : list Z) :
  map (Spec.label_at a) (Np.range (Z.of_nat (length a))) = a.
Proof.
  unfold Np.range. rewrite Nat2Z.id. apply list_eq. intros i.
  change (map ?f ?l) with (f <$> l). rewrite !list_lookup_fmap.
  destruct (decide (i < length a)%nat) as [Hi|Hi].
  - rewrite lookup_seq_lt by done. cbn. unfold Spec.label_at. rewrite Nat2Z.id.
    destruct (lookup_lt_is_Some_2 a i Hi) as [x Hx].
    by rewrite (list_lookup_total_correct _ _ _ Hx).
  - rewrite lookup_seq_ge by lia. cbn. symmetry. apply lookup_ge_None. lia.
Qed.

Lemma range_label_at (n : nat) (i : Z) :
  0 <= i < Z.of_nat n -> Spec.label_at (Np.range (Z.of_nat n)) i = i.
Proof.
  intros Hi. unfold Spec.label_at, Np.range. rewrite Nat2Z.id.
  apply list_lookup_total_correct.
  change (map ?f ?l) with (f <$> l). rewrite list_lookup_fmap.
  rewrite lookup_seq_lt by lia. cbn. f_equal. lia.
Qed.

(** What [get_idxs] finds in [a]: the positions of [a], grouped. *)
Lemma idxs_positions (a vals : list Z) :
  concat (map (Np.where_eq a) vals) =
  Spec.grouped (Spec.label_at a) vals (Np.range (Z.of_nat (length a))).
Proof.
  rewrite <- idxs_grouped, range_read.
  rewrite <- (map_id (concat _)) at 1. apply map_ext_in. intros i Hi.
  pose proof (idxs_range a vals) as Hr. rewrite Forall_forall in Hr.
  apply list_elem_of_In, Hr in Hi. by rewrite range_label_at.
Qed.

Lemma get_idxs_inv (a vals : list Z) (t : Lookup.ndarray) :
  Lookup.get_idxs a vals = Ok t ->
  vals ≠ [] ∧ t = Lookup.squeeze (concat (map (Np.where_eq a) vals)).
Proof.
  intros H. destruct vals as [|v vals]; [done|]. split; [done|].
  rewrite get_idxs_Ok in H by done. by injection H as <-.
Qed.

Lemma squeeze_Arr1_inv (l l' : list Z) :
  Lookup.squeeze l = Lookup.Arr1 l' -> l' = l ∧ length l ≠ 1%nat.
Proof. destruct l as [|x [|y l]]; cbn; intros H; by simplify_eq. Qed.

(** Reading [a] at positions none of which is negative succeeds only
    within [a]. *)
Lemma take_idxs_inv {A : Type} (a : list A) (idx : list Z) (r : list A) :
  Forall (fun i => 0 <= i) idx ->
  Lookup.take_idxs a idx = Ok r ->
  Forall (fun i => 0 <= i < Z.of_nat (length a)) idx.
Proof.
  intros Hn. revert r. induction Hn as [|i idx Hi _ IH]; intros r H; [done|].
  cbn [Lookup.take_idxs] in H.
  destruct (Np.get a i) as [x|] eqn:Hx; cbn in H; [|done].
  destruct (Lookup.take_idxs a idx) as [xs|] eqn:Hxs; cbn in H; [|done].
  constructor; [|by eapply IH].
  apply get_nonneg in Hx; [|done]. apply lookup_lt_Some in Hx. lia.
Qed.

(** Whenever [normalise_emg] gets as far as fitting its scaler, it fits it
    on the rows at the training positions, all of which lie within
    [movements] when movements are filtered. *)
Lemma normalise_emg_targets (h : Norm.heap) (emg : Norm.ref)
    (reps train_reps : list Z) (movements which_moves : option (list Z))
    (res : Norm.ref * Norm.heap) :
  Norm.normalise_emg h emg reps train_reps movements which_moves = Ok res ->
  let ts := Spec.train_targets reps train_reps movements which_moves in
  (∃ X sc,
     Lookup.take_idxs (h !!! emg) ts = Ok X ∧
     Norm.fit false X = Ok sc ∧
     res = Norm.transform sc h emg) ∧
  (∀ wm mv, which_moves = Some wm -> movements = Some mv ->
            Forall (fun i => 0 <= i < Z.of_nat (length mv))
              (Spec.grouped (Spec.label_at reps) train_reps
                 (Np.range (Z.of_nat (length reps))))).
Proof.
  unfold Norm.normalise_emg, Spec.train_targets. cbv zeta. intros H.
  destruct (Lookup.get_idxs reps train_reps) as [tt|] eqn:Htt; cbn in H; [|done].
  apply get_idxs_inv in Htt as [Htr ->].
  rewrite idxs_positions in H.
  set (ts0 := Spec.grouped (Spec.label_at reps) train_reps
                (Np.range (Z.of_nat (length reps)))) in *.
  assert (Forall (fun i => 0 <= i < Z.of_nat (length reps)) ts0) as Hr0.
  { unfold ts0. rewrite <- idxs_positions. apply idxs_range. }
  assert ((X ← Lookup.take_idxs (h !!! emg) ts0;
           sc ← Norm.fit false X; Ok (Norm.transform sc h emg)) = Ok res ->
          ∃ X sc, Lookup.take_idxs (h !!! emg) ts0 = Ok X ∧
                  Norm.fit false X = Ok sc ∧ res = Norm.transform sc h emg)
    as Hfit.
  { intros Hres.
    destruct (Lookup.take_idxs (h !!! emg) ts0) as [X|] eqn:HX; cbn in Hres; [|done].
    destruct (Norm.fit false X) as [sc|] eqn:Hsc; cbn in Hres; [|done].
    injection Hres as <-. by exists X, sc. }
  destruct which_moves as [wm|], movements as [mv|]; cbn in H.
  - destruct (Lookup.squeeze ts0) as [t|ts] eqn:Hsq.
    { destruct (Np.get mv t); cbn in H; [|done].
      destruct (Lookup.get_idxs _ wm); cbn in H; done. }
    apply squeeze_Arr1_inv in Hsq as [-> _].
    destruct (Lookup.take_idxs mv ts0) as [msel|] eqn:Hmsel; cbn in H; [|done].
    apply take_idxs_inv in Hmsel as Hin;
      [|eapply Forall_impl; [exact Hr0|]; intros i Hi; cbn beta in *; lia].
    rewrite take_idxs_Ok in Hmsel by done. injection Hmsel as <-.
    destruct (Lookup.get_idxs _ wm) as [mt|] eqn:Hmt; cbn in H; [|done].
    apply get_idxs_inv in Hmt as [Hwm ->].
    pose proof (idxs_range (map (Spec.label_at mv) ts0) wm) as Hks.
    rewrite length_map in Hks.
    destruct (Lookup.squeeze _) as [k|ks] eqn:Hsq in H.
    { destruct (Np.get ts0 k); cbn in H; done. }
    apply squeeze_Arr1_inv in Hsq as [-> _].
    rewrite take_idxs_Ok in H by done. cbn [mbind result_bind rbind] in H.
    rewrite idxs_grouped in H.
    split.
    + destruct (Lookup.take_idxs (h !!! emg) _) as [X|] eqn:HX; cbn in H; [|done].
      destruct (Norm.fit false X) as [sc|] eqn:Hsc; cbn in H; [|done].
      injection H as <-. by exists X, sc.
    + intros wm' mv' [= <-] [= <-]. done.
  - destruct (Lookup.squeeze ts0) as [t|ts] eqn:Hsq; [done|].
    apply squeeze_Arr1_inv in Hsq as [-> _].
    split; [by apply Hfit|]. by intros wm' mv' _ [=].
  - destruct (Lookup.squeeze ts0) as [t|ts] eqn:Hsq; [done|].
    apply squeeze_Arr1_inv in Hsq as [-> _].
    split; [by apply Hfit|]. by intros wm' mv' [=].
  - destruct (Lookup.squeeze ts0) as [t|ts] eqn:Hsq; [done|].
    apply squeeze_Arr1_inv in Hsq as [-> _].
    split; [by apply Hfit|]. by intros wm' mv' [=].
Qed.

End training.

(** C9 (as amended).  Whenever [normalise_emg] returns, it has scaled the
    caller's array in place: the reference it returns is the one it was
    given, the buffer behind it holds the whole array scaled by a scaler
    fitted on the rows at the training positions, and every other buffer is
    left as it was.  The training positions are exactly the positions of
    [reps] holding a repetition of [train_reps] and, when [movements] and
    [which_moves] are both given, a movement of [which_moves]; none is
    taken twice when the sets asked for hold no value twice. *)
Theorem normalise_emg_in_place (h : Norm.heap) (emg : Norm.ref)
    (reps train_reps : list Z) (movements which_moves : option (list Z))
    (r : Norm.ref) (h' : Norm.heap) :
  Norm.normalise_emg h emg reps train_reps movements which_moves = Ok (r, h') ->
  let ts := Spec.train_targets reps train_reps movements which_moves in
  r = emg ∧
  (∃ X sc,
     Lookup.take_idxs (h !!! emg) ts = Ok X ∧
     Norm.fit false X = Ok sc ∧
     h' !! emg = Some (Norm.scale_matrix sc (h !!! emg))) ∧
  (∀ i, i ∈ ts <->
        ∃ (k : nat) x,
          i = Z.of_nat k ∧ reps !! k = Some x ∧ x ∈ train_reps ∧
          ∀ wm mv, which_moves = Some wm -> movements = Some mv ->
                   ∃ m, mv !! k = Some m ∧ m ∈ wm) ∧
  (NoDup train_reps -> (∀ wm, which_moves = Some wm -> NoDup wm) -> NoDup ts) ∧
  ∀ r', r' ≠ emg -> h' !! r' = h !! r'.
Proof.
  intros H ts.
  destruct (normalise_emg_targets _ _ _ _ _ _ _ H) as [(X & sc & HX & Hsc & Hres) Hin].
  fold ts in HX.
  assert (Norm.sc_copy sc = false) as Hcopy.
  { unfold Norm.fit in Hsc. destruct X; simplify_eq. done. }
  unfold Norm.transform in Hres. rewrite Hcopy in Hres. injection Hres as -> ->.
  set (ts0 := Spec.grouped (Spec.label_at reps) train_reps
                (Np.range (Z.of_nat (length reps)))) in *.
  assert (∀ i, i ∈ ts0 <->
               ∃ (k : nat) x, i = Z.of_nat k ∧ reps !! k = Some x ∧ x ∈ train_reps)
    as Hts0.
  { intros i. unfold ts0. rewrite elem_of_grouped, elem_of_range. split.
    - intros [(k & -> & Hk) Hl]. unfold Spec.label_at in Hl.
      rewrite Nat2Z.id in Hl.
      destruct (lookup_lt_is_Some_2 reps k Hk) as [x Hx].
      rewrite (list_lookup_total_correct _ _ _ Hx) in Hl. eauto.
    - intros (k & x & -> & Hx & Hl). split.
      + exists k. split; [done|]. by eapply lookup_lt_Some.
      + unfold Spec.label_at. rewrite Nat2Z.id.
        by rewrite (list_lookup_total_correct _ _ _ Hx). }
  split_and!.
  - done.
  - exists X, sc. split_and!; [done..|]. apply lookup_insert_eq.
  - intros i. unfold ts, Spec.train_targets. cbv zeta. fold ts0.
    destruct which_moves as [wm|], movements as [mv|].
    + rewrite elem_of_grouped, Hts0.
      specialize (Hin wm mv eq_refl eq_refl). rewrite Forall_forall in Hin.
      split.
      * intros [(k & x & -> & Hx & Hl) Hm]. exists k, x. split_and!; [done..|].
        intros wm' mv' [= <-] [= <-].
        assert (Z.of_nat k ∈ ts0) as Hk by (apply Hts0; eauto).
        apply Hin in Hk.
        destruct (lookup_lt_is_Some_2 mv k ltac:(lia)) as [m Hmk].
        exists m. split; [done|]. unfold Spec.label_at in Hm.
        by rewrite Nat2Z.id, (list_lookup_total_correct _ _ _ Hmk) in Hm.
      * intros (k & x & -> & Hx & Hl & Hm). split; [eauto|].
        destruct (Hm wm mv eq_refl eq_refl) as (m & Hmk & Hmw).
        unfold Spec.label_at.
        by rewrite Nat2Z.id, (list_lookup_total_correct _ _ _ Hmk).
    + rewrite Hts0. split.
      * intros (k & x & -> & Hx & Hl). exists k, x. split_and!; [done..|].
        by intros wm' mv' _ [=].
      * intros (k & x & -> & Hx & Hl & _). eauto.
    + rewrite Hts0. split.
      * intros (k & x & -> & Hx & Hl). exists k, x. split_and!; [done..|].
        by intros wm' mv' [=].
      * intros (k & x & -> & Hx & Hl & _). eauto.
    + rewrite Hts0. split.
      * intros (k & x & -> & Hx & Hl). exists k, x. split_and!; [done..|].
        by intros wm' mv' [=].
      * intros (k & x & -> & Hx & Hl & _). eauto.
  - intros Hnr Hnm.
    assert (NoDup ts0) as Hnd0.
    { unfold ts0. rewrite grouped_Permutation by done.
      apply NoDup_filter, NoDup_range. }
    unfold ts, Spec.train_targets. cbv zeta. fold ts0.
    destruct which_moves as [wm|], movements as [mv|]; try done.
    rewrite grouped_Permutation by (by apply Hnm). by apply NoDup_filter.
  - intros r' Hr'. by apply lookup_insert_ne.
Qed.

Lemma normalise_emg_in_place_witness :
  let ts := Spec.train_targets [1; 1] [1] None None in
  0%nat = 0%nat ∧
  (∃ X sc,
     Lookup.take_idxs (Ex.heap0 !!! 0%nat) ts = Ok X ∧
     Norm.fit false X = Ok sc ∧
     Ex.heap0_scaled !! 0%nat
     = Some (Norm.scale_matrix sc (Ex.heap0 !!! 0%nat))) ∧
  (∀ i, i ∈ ts <->
        ∃ (k : nat) x,
          i = Z.of_nat k ∧ [1; 1] !! k = Some x ∧ x ∈ [1] ∧
          ∀ wm mv, @None (list Z) = Some wm -> @None (list Z) = Some mv ->
                   ∃ m, mv !! k = Some m ∧ m ∈ wm) ∧
  (NoDup [1] -> (∀ wm, @None (list Z) = Some wm -> NoDup wm) -> NoDup ts) ∧
  ∀ r', r' ≠ 0%nat ->
        Ex.heap0_scaled !! r' = Ex.heap0 !! r'.
Proof.
  apply (normalise_emg_in_place Ex.heap0 0%nat [1; 1] [1] None None 0%nat
           Ex.heap0_scaled).
  vm_compute. reflexivity.
Defined.

(** C9 as stated fails: after the call the caller's two-sample buffer holds
    the scaled values -1 and 1 instead of 1 and 3, and the array returned is
    that very buffer. *)
Lemma normalise_emg_overwrites_input :
  ¬ (∀ r h',
       Norm.normalise_emg Ex.heap0 0%nat [1; 1] [1] None None = Ok (r, h') ->
       h' !! 0%nat = Ex.heap0 !! 0%nat ∧ r ≠ 0%nat).
Proof.
  intros H.
  destruct (H 0%nat Ex.heap0_scaled
              ltac:(vm_compute; reflexivity)) as [_ Hr].
  by apply Hr.
Qed.

(** ** Normalisation: too few training samples *)

Section few_samples.

Lemma length_idxs (a vals : list Z) :
  NoDup vals ->
  length (concat (map (Np.where_eq a) vals)) =
  length (filter (fun x => x ∈ vals) a).
Proof.
  intros Hnd.
  pose proof (idxs_grouped (fun x => x) vals a) as H. rewrite map_id in H.
  rewrite <- (length_map (Spec.label_at a)), H.
  by rewrite (grouped_Permutation (fun x => x) vals a Hnd).
Qed.

End few_samples.

(** Without a movement filter, [normalise_emg] raises [ValueError] when
    fewer than two samples carry one of the training repetitions: the
    scaler is given no row, or a single row as a 1-dimensional array. *)
Theorem normalise_emg_needs_two_samples (h : Norm.heap) (emg : Norm.ref)
    (reps train_reps : list Z) (which_moves : option (list Z)) :
  NoDup train_reps ->
  (length (filter (fun x => x ∈ train_reps) reps) < 2)%nat ->
  Norm.normalise_emg h emg reps train_reps None which_moves = Raise ValueError.
Proof.
  intros Hnd Hlen. unfold Norm.normalise_emg.
  destruct train_reps as [|v vs] eqn:Hv; [by destruct which_moves|].
  rewrite <- Hv in *.
  rewrite get_idxs_Ok by (by rewrite Hv). cbn [mbind result_bind rbind].
  rewrite <- (length_idxs reps train_reps Hnd) in Hlen.
  destruct (concat (map (Np.where_eq reps) train_reps)) as [|i [|j l]];
    cbn in Hlen; [| |lia].
  - destruct which_moves; reflexivity.
  - destruct which_moves; reflexivity.
Qed.

Lemma normalise_emg_needs_two_samples_witness :
  Norm.normalise_emg Ex.heap0 0%nat [1; 2] [1] None None = Raise ValueError.
Proof.
  apply (normalise_emg_needs_two_samples Ex.heap0 0%nat [1; 2] [1] None).
  - apply NoDup_singleton.
  - vm_compute. lia.
Defined.

(** ** One-hot encoding *)

Section categorical.

Lemma unit_row_lookup (nb j i : nat) :
  (i < nb)%nat ->
  Notions.unit_row nb j !! i = Some (if decide (i = j) then 1%Q else 0%Q).
Proof.
  intros Hi. unfold Notions.unit_row.
  change (map ?f ?l) with (f <$> l).
  rewrite list_lookup_fmap, lookup_seq_lt by done. done.
Qed.

Lemma length_unit_row (nb j : nat) : length (Notions.unit_row nb j) = nb.
Proof. unfold Notions.unit_row. by rewrite length_map, length_seq. Qed.

(** Setting one cell of a row of zeros gives a unit row. *)
Lemma insert_unit_row (nb j : nat) :
  <[j := 1%Q]> (replicate nb 0%Q) = Notions.unit_row nb j.
Proof.
  apply list_eq. intros i.
  destruct (decide (i < nb)%nat) as [Hi|Hi].
  - rewrite unit_row_lookup by done.
    destruct (decide (i = j)) as [->|Hij].
    + rewrite list_lookup_insert_eq by (by rewrite length_replicate). done.
    + rewrite list_lookup_insert_ne by done. by apply lookup_replicate_2.
  - rewrite !lookup_ge_None_2; [done| |].
    + rewrite length_unit_row. lia.
    + rewrite length_insert, length_replicate. lia.
Qed.

Lemma norm_index_mod (nb k : Z) :
  1 <= nb -> - nb <= k < nb ->
  Np.norm_index (Z.to_nat nb) k = Ok (Z.to_nat (k `mod` nb)).
Proof.
  intros Hnb Hk. destruct (decide (0 <= k)).
  - rewrite norm_index_nonneg, Z.mod_small by lia. done.
  - rewrite norm_index_neg by lia. do 2 f_equal.
    rewrite Z2Nat.id by lia.
    rewrite <- (Z.mod_small (k + nb) nb) by lia.
    rewrite <- (Z.mul_1_l nb) at 1. by rewrite Z.mod_add by lia.
Qed.

Lemma norm_index_out (n : nat) (k : Z) :
  ¬ (- Z.of_nat n <= k < Z.of_nat n) -> Np.norm_index n k = Raise IndexError.
Proof. intros H. unfold Np.norm_index. by rewrite !decide_False by lia. Qed.

(** [row[k] = 1] on a row of zeros. *)
Lemma set_zero_row (nb k : Z) :
  1 <= nb ->
  Np.set (replicate (Z.to_nat nb) 0%Q) k 1%Q =
  if decide (- nb <= k < nb) then
    Ok (Notions.unit_row (Z.to_nat nb) (Z.to_nat (k `mod` nb)))
  else Raise IndexError.
Proof.
  intros Hnb. unfold Np.set. rewrite length_replicate. case_decide as Hk.
  - rewrite norm_index_mod by done. cbn [mbind result_bind rbind].
    by rewrite insert_unit_row.
  - by rewrite norm_index_out by (rewrite Z2Nat.id by lia; done).
Qed.

(** One pass of the assignment over the rows still to set. *)
Lemma set_cells_rows (nb : Z) (done_rows : list (list Q)) (ys : list Z) :
  1 <= nb ->
  Cat.set_cells
    (done_rows ++ replicate (length ys) (replicate (Z.to_nat nb) 0%Q))
    (zip (map Z.of_nat (seq (length done_rows) (length ys))) ys) =
  if decide (Forall (fun k => - nb <= k < nb) ys) then
    Ok (done_rows
          ++ map (fun k => Notions.unit_row (Z.to_nat nb) (Z.to_nat (k `mod` nb))) ys)
  else Raise IndexError.
Proof.
  intros Hnb. revert done_rows. induction ys as [|y ys IH]; intros done_rows.
  - cbn. rewrite decide_True by constructor. done.
  - cbn [length seq map zip zip_with replicate Cat.set_cells].
    unfold Cat.set_cell.
    rewrite get_nat with (x := replicate (Z.to_nat nb) 0%Q)
      by (by rewrite list_lookup_middle).
    cbn [mbind result_bind rbind]. rewrite set_zero_row by done.
    destruct (decide (- nb <= y < nb)) as [Hy|Hy].
    + cbn [mbind result_bind rbind].
      rewrite set_nat by (rewrite length_app; cbn; lia).
      cbn [mbind result_bind rbind].
      rewrite insert_app_r_alt by lia. rewrite Nat.sub_diag. cbn [insert list_insert].
      rewrite cons_middle, app_assoc.
      specialize (IH (done_rows ++ [Notions.unit_row (Z.to_nat nb) (Z.to_nat (y `mod` nb))])).
      rewrite length_app in IH. cbn [length] in IH.
      replace (length done_rows + 1)%nat with (S (length done_rows)) in IH by lia.
      rewrite IH. destruct (decide (Forall _ ys)) as [Hys|Hys].
      * rewrite decide_True by (by constructor). by rewrite <- app_assoc.
      * rewrite decide_False; [done|]. by intros [_ ?]%Forall_cons.
    + cbn [mbind result_bind rbind].
      rewrite decide_False; [done|]. by intros [? _]%Forall_cons.
Qed.

Lemma to_categorical_given (y : list Z) (nb : Z) :
  1 <= nb ->
  Cat.to_categorical y (Some nb) =
  if decide (Forall (fun k => - nb <= k < nb) y) then
    Ok (map (fun k => Notions.unit_row (Z.to_nat nb) (Z.to_nat (k `mod` nb))) y)
  else Raise IndexError.
Proof.
  intros Hnb. unfold Cat.to_categorical, Cat.zeros.
  rewrite decide_False by lia. cbn [mbind result_bind rbind].
  rewrite decide_False by lia. cbn [mbind result_bind rbind].
  unfold Np.range. rewrite Nat2Z.id.
  apply (set_cells_rows nb [] y Hnb).
Qed.

Lemma decode_unit_row (nb j : nat) :
  (j < nb)%nat -> Notions.decode (Notions.unit_row nb j) = Some (Z.of_nat j).
Proof.
  intros Hj. unfold Notions.decode.
  assert (list_find (fun q => Qeq_bool q 1 = true) (Notions.unit_row nb j)
          = Some (j, 1%Q)) as ->; [|done].
  apply list_find_Some. split_and!.
  - rewrite unit_row_lookup by done. by rewrite decide_True.
  - done.
  - intros i q Hi Hij. rewrite unit_row_lookup in Hi by lia.
    rewrite decide_False in Hi by lia. by simplify_eq.
Qed.

End categorical.

(** With at least one class, [to_categorical] returns the one-hot matrix
    when every label lies in [-nb_classes, nb_classes): the row of a label
    holds a single 1, at the position of the label, a negative label
    counting from the last class.  Otherwise it raises [IndexError]. *)
Theorem to_categorical_one_hot (y : list Z) (nb_classes : Z) :
  1 <= nb_classes ->
  Cat.to_categorical y (Some nb_classes) =
  if decide (Forall (fun k => - nb_classes <= k < nb_classes) y) then
    Ok (map (fun k => Notions.unit_row (Z.to_nat nb_classes)
                        (Z.to_nat (k `mod` nb_classes))) y)
  else Raise IndexError.
Proof. apply to_categorical_given. Qed.

Lemma to_categorical_one_hot_witness :
  Cat.to_categorical [2; 0; -1] (Some 3) =
  if decide (Forall (fun k => - 3 <= k < 3) [2; 0; -1]) then
    Ok (map (fun k => Notions.unit_row (Z.to_nat 3) (Z.to_nat (k `mod` 3))) [2; 0; -1])
  else Raise IndexError.
Proof. apply (to_categorical_one_hot [2; 0; -1] 3). lia. Defined.

(** What the encoder returns on that input, and on a label out of range. *)
Remark to_categorical_example :
  Cat.to_categorical [2; 0; -1] (Some 3) =
    Ok [[0%Q; 0%Q; 1%Q]; [1%Q; 0%Q; 0%Q]; [0%Q; 0%Q; 1%Q]] ∧
  Cat.to_categorical [2; 3] (Some 3) = Raise IndexError.
Proof. split; reflexivity. Qed.

(** Without [nb_classes], or with [nb_classes = 0], the number of classes is
    the largest label plus one: on a non-empty vector of labels none of
    which is negative the encoder returns, every row having that many
    cells; on an empty vector it raises [ValueError]. *)
Theorem to_categorical_default (y : list Z) :
  Forall (fun k => 0 <= k) y ->
  Cat.to_categorical y (Some 0) = Cat.to_categorical y None ∧
  match y with
  | [] => Cat.to_categorical y None = Raise ValueError
  | _ =>
      ∃ m, m ∈ y ∧ Forall (fun k => k <= m) y ∧
           Cat.to_categorical y None =
           Ok (map (fun k => Notions.unit_row (Z.to_nat (m + 1)) (Z.to_nat k)) y)
  end.
Proof.
  intros Hy. split; [reflexivity|].
  destruct y as [|y0 ys] eqn:Heq; [reflexivity|]. rewrite <- Heq in *.
  destruct (Np.py_max y) as [m|] eqn:Hm; [|by rewrite Heq in Hm].
  pose proof (py_max_elem y m Hm) as [Hin Hle].
  assert (0 <= m) as Hm0 by (rewrite Forall_forall in Hy; by apply Hy).
  exists m. split_and!; [done..|].
  transitivity (Cat.to_categorical y (Some (m + 1))).
  { unfold Cat.to_categorical. rewrite Hm. cbn [mbind result_bind rbind].
    by rewrite decide_False by lia. }
  rewrite to_categorical_given by lia.
  rewrite decide_True.
  - f_equal. apply map_ext_in. intros k Hk%list_elem_of_In.
    rewrite Forall_forall in Hy, Hle. specialize (Hy k Hk). specialize (Hle k Hk).
    cbn beta in *. by rewrite Z.mod_small by lia.
  - rewrite Forall_forall in Hy, Hle |- *. intros k Hk.
    specialize (Hy k Hk). specialize (Hle k Hk). cbn beta in *. lia.
Qed.

Lemma to_categorical_default_witness :
  Cat.to_categorical [1; 0; 2] (Some 0) = Cat.to_categorical [1; 0; 2] None ∧
  ∃ m, m ∈ [1; 0; 2] ∧ Forall (fun k => k <= m) [1; 0; 2] ∧
       Cat.to_categorical [1; 0; 2] None =
       Ok (map (fun k => Notions.unit_row (Z.to_nat (m + 1)) (Z.to_nat k)) [1; 0; 2]).
Proof.
  apply (to_categorical_default [1; 0; 2]). repeat constructor; lia.
Defined.

(** Decoding undoes the encoding: on labels in [0, nb_classes) the
    position of the 1 in each row of the matrix is the label encoded. *)
Theorem to_categorical_round_trip (y : list Z) (nb_classes : Z) :
  Forall (fun k => 0 <= k < nb_classes) y ->
  1 <= nb_classes ->
  ∃ M, Cat.to_categorical y (Some nb_classes) = Ok M ∧
       map Notions.decode M = map Some y.
Proof.
  intros Hy Hnb. rewrite to_categorical_given by done.
  rewrite decide_True.
  2:{ eapply Forall_impl; [exact Hy|]. intros k Hk; cbn beta in *. lia. }
  eexists. split; [done|]. rewrite map_map. apply map_ext_in.
  intros k Hk%list_elem_of_In. rewrite Forall_forall in Hy. specialize (Hy k Hk).
  rewrite Z.mod_small by lia. rewrite decode_unit_row by lia.
  by rewrite Z2Nat.id by lia.
Qed.

Lemma to_categorical_round_trip_witness :
  ∃ M, Cat.to_categorical [2; 0; 1; 2] (Some 3) = Ok M ∧
       map Notions.decode M = map Some [2; 0; 1; 2].
Proof.
  apply (to_categorical_round_trip [2; 0; 1; 2] 3); [|lia].
  repeat constructor; lia.
Defined.

(** ** Stacking the recordings *)

Section stacking.

(** Unless the first array is a single column of several (or no) samples,
    squeezing it and making it 2-dimensional again gives it back. *)
Lemma squeeze_atleast_2d (a : Stack.array2) :
  Stack.wf a ->
  (Stack.cols a ≠ 1 ∨ length (Stack.rows a) = 1)%nat ->
  Stack.atleast_2d (Stack.squeeze a) = a.
Proof.
  destruct a as [c rs]. unfold Stack.wf, Stack.squeeze. cbn [Stack.cols Stack.rows].
  intros Hwf Hc.
  destruct rs as [|r [|r' rs]].
  - destruct c as [|[|c]]; [done|cbn in Hc; lia|done].
  - apply Forall_cons in Hwf as [Hr _].
    destruct c as [|[|c]]; cbn; [by rewrite Hr| |by rewrite Hr].
    destruct r as [|x [|y r]]; cbn in Hr; try lia. done.
  - destruct c as [|[|c]]; [done|cbn in Hc; lia|done].
Qed.

(** Stacking under such a first array succeeds when the column counts
    agree, and keeps the rows in order. *)
Lemma stack_rows (a b c ab abc : Stack.array2) :
  Stack.wf a ->
  (Stack.cols a ≠ 1 ∨ length (Stack.rows a) = 1)%nat ->
  Stack.vstack (Stack.atleast_2d (Stack.squeeze a)) b = Ok ab ->
  Stack.vstack ab c = Ok abc ->
  Stack.cols b = Stack.cols a ∧ Stack.cols c = Stack.cols a ∧
  Stack.rows abc = Stack.rows a ++ Stack.rows b ++ Stack.rows c.
Proof.
  intros Hwf Hc. rewrite squeeze_atleast_2d by done. unfold Stack.vstack.
  intros Hab Habc.
  destruct (decide (Stack.cols a = Stack.cols b)) as [H1|H1]; [|done].
  injection Hab as <-. cbn [Stack.cols Stack.rows] in Habc.
  destruct (decide (Stack.cols a = Stack.cols c)) as [H2|H2]; [|done].
  injection Habc as <-. cbn [Stack.rows]. by rewrite <- app_assoc.
Qed.

(** A single column of several (or no) samples is squeezed to a row, under
    which no single-column array can be stacked. *)
Lemma stack_single_column (a b : Stack.array2) :
  Stack.wf a ->
  Stack.cols a = 1%nat -> length (Stack.rows a) ≠ 1%nat -> Stack.cols b = 1%nat ->
  Stack.vstack (Stack.atleast_2d (Stack.squeeze a)) b = Raise ValueError.
Proof.
  destruct a as [c rs]. unfold Stack.wf. cbn [Stack.cols Stack.rows].
  intros Hwf -> Hn Hb. unfold Stack.squeeze. cbn [Stack.cols Stack.rows].
  assert (length (concat rs) = length rs) as Hlen.
  { clear Hn. induction Hwf as [|r rs Hr _ IH]; [done|].
    cbn. rewrite length_app, IH, Hr. done. }
  destruct rs as [|r [|r' rs]]; [| done |];
    cbn [Stack.atleast_2d]; unfold Stack.vstack; cbn [Stack.cols];
    rewrite decide_False; try done; rewrite Hlen, Hb; cbn; lia.
Qed.

Lemma segment_emg_kept (fs : Z) (emg : list (list Q)) (rep0 move : list Z)
    (cap : Z) (o : Seg.output) :
  Seg.segment fs emg rep0 move cap = Ok o -> Seg.emg o = emg.
Proof.
  unfold Seg.segment. cbv zeta. intros H.
  destruct (Np.get _ 0) as [t0|]; cbn in H; [|done].
  destruct (Seg.loop _ _ _ _ _ _) as [st|]; cbn in H; [|done].
  destruct (Np.get _ (-1)) as [tl|]; cbn in H; [|done].
  destruct (Np.set _ (-2) _) as [rr1|]; cbn in H; [|done].
  destruct (Np.set rr1 (-1) _) as [rr2|]; cbn in H; [|done].
  by simplify_eq.
Qed.

(** Whichever importer returns, the signal it returns is the stack of the
    three signals. *)
Lemma importers_stack (dt : Importers.dtype) (e1 e2 e3 : Importers.mat_file)
    (cap : Z) (o : Seg.output) :
  Importers.import_db1 dt e1 e2 e3 cap = Ok o ∨
  Importers.import_db2 e1 e2 e3 cap = Ok o ∨
  Importers.import_db3 dt e1 e2 e3 cap = Ok o ->
  ∃ emg2 emg,
    Stack.vstack (Stack.atleast_2d (Stack.squeeze (Importers.mf_emg e1)))
      (Importers.mf_emg e2) = Ok emg2 ∧
    Stack.vstack emg2 (Importers.mf_emg e3) = Ok emg ∧
    Seg.emg o = Stack.rows emg.
Proof.
  intros [H|[H|H]].
  - unfold Importers.import_db1 in H. cbv zeta in H.
    destruct (Stack.vstack _ (Importers.mf_emg e2)) as [emg2|] eqn:H2; cbn in H; [|done].
    destruct (Importers.py_max_squeezed _) as [m1|]; cbn in H; [|done].
    destruct (Stack.vstack emg2 _) as [emg|] eqn:H3; cbn in H; [|done].
    destruct (Np.py_max _) as [m2|]; cbn in H; [|done].
    apply segment_emg_kept in H. by exists emg2, emg.
  - unfold Importers.import_db2 in H. cbv zeta in H.
    destruct (Stack.vstack _ (Importers.mf_emg e2)) as [emg2|] eqn:H2; cbn in H; [|done].
    destruct (Stack.vstack emg2 _) as [emg|] eqn:H3; cbn in H; [|done].
    destruct (Np.set (Importers.mf_repetition e3) _ _); cbn in H; [|done].
    destruct (Np.set (Importers.mf_stimulus e3) _ _); cbn in H; [|done].
    apply segment_emg_kept in H. by exists emg2, emg.
  - unfold Importers.import_db3 in H. cbv zeta in H.
    destruct (Stack.vstack _ (Importers.mf_emg e2)) as [emg2|] eqn:H2; cbn in H; [|done].
    destruct (Np.py_max _) as [m|]; cbn in H; [|done].
    destruct (Stack.vstack emg2 _) as [emg|] eqn:H3; cbn in H; [|done].
    apply segment_emg_kept in H. by exists emg2, emg.
Qed.

End stacking.

(** Whenever [import_db1], [import_db2] or [import_db3] returns on files
    whose first signal is not a single column of several samples, the
    three signals have the same number of channels and the signal returned
    holds their rows, in the order of the files. *)
Theorem importers_return_stacked_signal (dt : Importers.dtype)
    (e1 e2 e3 : Importers.mat_file) (cap : Z) (o : Seg.output) :
  Stack.wf (Importers.mf_emg e1) ->
  (Stack.cols (Importers.mf_emg e1) ≠ 1 ∨
   length (Stack.rows (Importers.mf_emg e1)) = 1)%nat ->
  Importers.import_db1 dt e1 e2 e3 cap = Ok o ∨
  Importers.import_db2 e1 e2 e3 cap = Ok o ∨
  Importers.import_db3 dt e1 e2 e3 cap = Ok o ->
  Stack.cols (Importers.mf_emg e2) = Stack.cols (Importers.mf_emg e1) ∧
  Stack.cols (Importers.mf_emg e3) = Stack.cols (Importers.mf_emg e1) ∧
  Seg.emg o =
    Stack.rows (Importers.mf_emg e1) ++ Stack.rows (Importers.mf_emg e2)
      ++ Stack.rows (Importers.mf_emg e3).
Proof.
  intros Hwf Hc H.
  apply importers_stack in H as (emg2 & emg & H2 & H3 & ->).
  by apply (stack_rows _ _ _ emg2 emg Hwf Hc).
Qed.

Lemma importers_return_stacked_signal_witness :
  Stack.cols (Importers.mf_emg (Ex.file_of 1 1))
    = Stack.cols (Importers.mf_emg (Ex.file_of 1 1)) ∧
  Stack.cols (Importers.mf_emg (Ex.file_of 2 2))
    = Stack.cols (Importers.mf_emg (Ex.file_of 1 1)) ∧
  Ex.emg2_of 4 ++ Ex.emg2_of 4 ++ Ex.emg2_of 4 =
    Stack.rows (Importers.mf_emg (Ex.file_of 1 1))
      ++ Stack.rows (Importers.mf_emg (Ex.file_of 1 1))
      ++ Stack.rows (Importers.mf_emg (Ex.file_of 2 2)).
Proof.
  apply (importers_return_stacked_signal Importers.UInt8 (Ex.file_of 1 1)
           (Ex.file_of 1 1) (Ex.file_of 2 2) 999
           (Seg.Output (Ex.emg2_of 4 ++ Ex.emg2_of 4 ++ Ex.emg2_of 4)
              [1; 1; 1; 1; 1; 1; 1; 1; 1; 1; 1; 0]
              [0; 1; 1; 0; 0; 1; 1; 0; 0; 42; 42; 0]
              [0; 3; 4; 7; 8; 10] 0)).
  - repeat constructor.
  - left. cbn. lia.
  - right. left. vm_compute. reflexivity.
Defined.

(** On recordings of a single channel with several samples in the first
    file, none of the importers returns: [np.squeeze] turns the first
    signal into a row, and stacking the second signal under it raises
    [ValueError] before any label is read. *)
Theorem importers_single_channel (dt : Importers.dtype)
    (e1 e2 e3 : Importers.mat_file) (cap : Z) :
  Stack.wf (Importers.mf_emg e1) ->
  Stack.cols (Importers.mf_emg e1) = 1%nat ->
  length (Stack.rows (Importers.mf_emg e1)) ≠ 1%nat ->
  Stack.cols (Importers.mf_emg e2) = 1%nat ->
  Importers.import_db1 dt e1 e2 e3 cap = Raise ValueError ∧
  Importers.import_db2 e1 e2 e3 cap = Raise ValueError ∧
  Importers.import_db3 dt e1 e2 e3 cap = Raise ValueError ∧
  ∀ db, Importers.import_subject dt e1 e2 e3 db cap = Raise ValueError.
Proof.
  intros Hwf H1 Hn H2.
  pose proof (stack_single_column _ _ Hwf H1 Hn H2) as Hs.
  assert (Importers.import_db1 dt e1 e2 e3 cap = Raise ValueError) as Hd1
    by (unfold Importers.import_db1; cbv zeta; by rewrite Hs).
  assert (Importers.import_db2 e1 e2 e3 cap = Raise ValueError) as Hd2
    by (unfold Importers.import_db2; cbv zeta; by rewrite Hs).
  split_and!; [done|done| |].
  - unfold Importers.import_db3. cbv zeta. by rewrite Hs.
  - intros db. unfold Importers.import_subject. by repeat case_decide.
Qed.

Lemma importers_single_channel_witness :
  Importers.import_db1 Importers.UInt8 Ex.file1 Ex.file1 Ex.file1 999
    = Raise ValueError ∧
  Importers.import_db2 Ex.file1 Ex.file1 Ex.file1 999 = Raise ValueError ∧
  Importers.import_db3 Importers.UInt8 Ex.file1 Ex.file1 Ex.file1 999
    = Raise ValueError ∧
  ∀ db, Importers.import_subject Importers.UInt8 Ex.file1 Ex.file1 Ex.file1 db 999
        = Raise ValueError.
Proof.
  apply (importers_single_channel Importers.UInt8 Ex.file1 Ex.file1 Ex.file1 999).
  - repeat constructor.
  - reflexivity.
  - cbn. lia.
  - reflexivity.
Defined.

(** When the first array is not a single column of several samples,
    [import_db2_acc] returns the rows of the three arrays in order if the
    arrays have the same number of columns, and raises [ValueError] if
    they do not. *)
Theorem import_db2_acc_stacks (acc1 acc2 acc3 : Stack.array2) :
  Stack.wf acc1 ->
  (Stack.cols acc1 ≠ 1 ∨ length (Stack.rows acc1) = 1)%nat ->
  Stack.import_db2_acc acc1 acc2 acc3 =
  if decide (Stack.cols acc1 = Stack.cols acc2 ∧ Stack.cols acc1 = Stack.cols acc3)
  then Ok (Stack.Array2 (Stack.cols acc1)
             (Stack.rows acc1 ++ Stack.rows acc2 ++ Stack.rows acc3))
  else Raise ValueError.
Proof.
  intros Hwf Hc. unfold Stack.import_db2_acc. cbv zeta.
  rewrite squeeze_atleast_2d by done. unfold Stack.vstack.
  destruct (decide (Stack.cols acc1 = Stack.cols acc2)) as [H12|H12];
    cbn [mbind result_bind rbind Stack.cols Stack.rows].
  - destruct (decide (Stack.cols acc1 = Stack.cols acc3)) as [H13|H13].
    + rewrite decide_True by done. by rewrite <- app_assoc.
    + rewrite decide_False by tauto. done.
  - rewrite decide_False by tauto. done.
Qed.

Lemma import_db2_acc_stacks_witness :
  Stack.import_db2_acc (Stack.Array2 2 [[1%Q; 2%Q]; [3%Q; 4%Q]])
    (Stack.Array2 2 [[5%Q; 6%Q]]) (Stack.Array2 2 []) =
  if decide (2%nat = 2%nat ∧ 2%nat = 2%nat)
  then Ok (Stack.Array2 2 ([[1%Q; 2%Q]; [3%Q; 4%Q]] ++ [[5%Q; 6%Q]] ++ []))
  else Raise ValueError.
Proof.
  apply (import_db2_acc_stacks (Stack.Array2 2 [[1%Q; 2%Q]; [3%Q; 4%Q]])
           (Stack.Array2 2 [[5%Q; 6%Q]]) (Stack.Array2 2 [])).
  - repeat constructor.
  - left. cbn. lia.
Defined.

(** A first array of a single column and a number of samples other than
    one is turned into a row by [np.squeeze]; stacking a single-column
    array under it then raises [ValueError].  The importers stack their
    [emg] arrays in the same way. *)
Theorem import_db2_acc_single_column (acc1 acc2 acc3 : Stack.array2) :
  Stack.wf acc1 ->
  Stack.cols acc1 = 1%nat -> length (Stack.rows acc1) ≠ 1%nat ->
  Stack.cols acc2 = 1%nat ->
  Stack.import_db2_acc acc1 acc2 acc3 = Raise ValueError.
Proof.
  destruct acc1 as [c rs]. unfold Stack.wf. cbn [Stack.cols Stack.rows].
  intros Hwf -> Hn H2. unfold Stack.import_db2_acc, Stack.squeeze. cbv zeta.
  cbn [Stack.cols Stack.rows].
  assert (length (concat rs) = length rs) as Hlen.
  { clear Hn. induction Hwf as [|r rs Hr _ IH]; [done|].
    cbn. rewrite length_app, IH, Hr. done. }
  destruct rs as [|r [|r' rs]]; [| done |];
    cbn [Stack.atleast_2d]; unfold Stack.vstack; cbn [Stack.cols];
    rewrite decide_False; try done; rewrite Hlen, H2; cbn; lia.
Qed.

Lemma import_db2_acc_single_column_witness :
  Stack.import_db2_acc (Stack.Array2 1 [[1%Q]; [2%Q]; [3%Q]])
    (Stack.Array2 1 [[4%Q]]) (Stack.Array2 1 [[5%Q]]) = Raise ValueError.
Proof.
  apply (import_db2_acc_single_column (Stack.Array2 1 [[1%Q]; [2%Q]; [3%Q]])
           (Stack.Array2 1 [[4%Q]]) (Stack.Array2 1 [[5%Q]])).
  - repeat constructor.
  - reflexivity.
  - cbn. lia.
  - reflexivity.
Defined.

(** ** Split generators: the random mode *)

Section combos.

Lemma combinations_elem (l : list Z) (r : nat) (row : list Z) (x : Z) :
  row ∈ Split.combinations l r -> x ∈ row -> x ∈ l.
Proof.
  intros [Hs _]%combinations_sublist Hx. by eapply elem_of_sublist.
Qed.

Lemma NoDup_combinations (l : list Z) (r : nat) :
  NoDup l -> NoDup (Split.combinations l r).
Proof.
  intros Hnd. revert r. induction Hnd as [|x l Hx Hnd IH]; intros [|r];
    cbn [Split.combinations].
  1,3: apply NoDup_singleton.
  1: apply NoDup_nil_2.
  apply NoDup_app. split_and!.
  - apply (NoDup_fmap_2 (cons x)), IH.
  - intros row (t & -> & _)%elem_of_map Hrow.
    apply Hx. eapply combinations_elem; [exact Hrow|left].
  - apply IH.
Qed.

Lemma seq_shift_map (c m : nat) :
  map (fun k => Z.of_nat c + Z.of_nat k) (seq 0 m) = map Z.of_nat (seq c m).
Proof.
  revert c. induction m as [|m IH]; intros c; [done|].
  cbn [seq map]. f_equal; [lia|].
  rewrite <- seq_shift, map_map. rewrite <- (IH (S c)).
  apply map_ext. intros k. lia.
Qed.

Lemma broadcast_row_cases (width : nat) (v : list Z) :
  (length v = width ∧ Split.broadcast_row width v = Ok v) ∨
  (length v ≠ width ∧
   ((∃ x, v = [x] ∧ Split.broadcast_row width v = Ok (replicate width x)) ∨
    Split.broadcast_row width v = Raise ValueError)).
Proof.
  unfold Split.broadcast_row. case_decide; [by left|right]. split; [done|].
  destruct v as [|x [|y v]]; eauto.
Qed.

(** [table[k, :] = v] on a row of the table, for a [v] of the row's width. *)
Lemma set_row_middle (pre post : list (list Z)) (z v : list Z) (w k : nat) :
  length v = w -> length pre = k ->
  Split.set_row (pre ++ z :: post) w (Z.of_nat k) v = Ok (pre ++ v :: post).
Proof.
  intros Hv <-. unfold Split.set_row, Split.broadcast_row.
  rewrite norm_index_nonneg by (rewrite length_app; cbn; lia).
  rewrite decide_True by done. cbn [mbind result_bind rbind].
  rewrite Nat2Z.id, insert_app_r_alt, Nat.sub_diag by lia. done.
Qed.

End combos.

Section rand.

Context (rep_ids : list Z) (nb_test : Z).
Context (Hnd : NoDup rep_ids) (Hnb : 1 <= nb_test).

Local Abbreviation combos := (Split.combinations rep_ids (Z.to_nat nb_test)).
Local Abbreviation width :=
  (Z.to_nat (Z.of_nat (length rep_ids) - nb_test)).

Lemma combo_width (row : list Z) :
  row ∈ combos -> length (Split.setdiff1d rep_ids row) = width.
Proof.
  intros Hrow. destruct (combos_rows rep_ids nb_test Hnd row Hrow) as (Hl & Hndr & Hsub).
  pose proof (length_setdiff1d rep_ids row Hnd Hndr Hsub). lia.
Qed.

(** One pass of the loop, on a valid draw. *)
Lemma rand_loop_step (draws : list nat) (w : nat) (i : Z) (idxs : list Z)
    (pool train test : list (list Z)) (d : nat) (combo : list Z) :
  pool !! d = Some combo ->
  Split.rand_loop (d :: draws) rep_ids nb_test w (i :: idxs) (pool, train, test) =
  Split.lift (test_reps ← Split.set_row test (Z.to_nat nb_test) i combo;
              row ← Np.get test_reps i;
              train_reps ← Split.set_row train w i (Split.setdiff1d rep_ids row);
              Ok (delete d pool, train_reps, test_reps))
    (Split.rand_loop draws rep_ids nb_test w idxs).
Proof.
  intros Hd. destruct pool as [|c0 pool]; [done|].
  cbn [Split.rand_loop fst snd]. by rewrite Hd.
Qed.

(** The folds the loop adds are drawn from the pool without replacement. *)
Lemma rand_loop_folds (draws : list nat) (rest trest done_rows tdone : list (list Z))
    (pool train test : list (list Z)) :
  NoDup pool -> (∀ row, row ∈ pool -> row ∈ combos) ->
  (∀ row, row ∈ done_rows -> row ∉ pool) -> NoDup done_rows ->
  length tdone = length done_rows -> length trest = length rest ->
  Split.rand_loop draws rep_ids nb_test width
    (map Z.of_nat (seq (length done_rows) (length rest)))
    (pool, tdone ++ trest, done_rows ++ rest) = Some (Ok (train, test)) ->
  ∃ new,
    length new = length rest ∧ test = done_rows ++ new ∧
    train = tdone ++ map (Split.setdiff1d rep_ids) new ∧
    NoDup (done_rows ++ new) ∧ ∀ row, row ∈ new -> row ∈ combos.
Proof.
  revert draws trest done_rows tdone pool.
  induction rest as [|z rest IH];
    intros draws trest done_rows tdone pool Hp Hpc Hdp Hdn Hlt Hlr H.
  - destruct trest; [|done].
    assert (train = tdone ++ [] ∧ test = done_rows ++ []) as [-> ->]
      by (destruct draws; cbn in H; by simplify_eq).
    exists []. rewrite !app_nil_r. split_and!; try done.
    intros row Hrow. by apply elem_of_nil in Hrow.
  - destruct trest as [|tz trest]; [done|].
    cbn [length seq map] in H.
    destruct draws as [|d draws]; [by destruct pool|].
    destruct (pool !! d) as [combo|] eqn:Hd.
    2:{ destruct pool; [done|]. cbn [Split.rand_loop fst snd] in H.
        by rewrite Hd in H. }
    rewrite (rand_loop_step _ _ _ _ _ _ _ _ _ Hd) in H.
    assert (combo ∈ pool) as Hcp by (by eapply list_elem_of_lookup_2).
    assert (combo ∈ combos) as Hcc by (by apply Hpc).
    destruct (combos_rows rep_ids nb_test Hnd combo Hcc) as (Hcl & _ & _).
    rewrite set_row_middle in H by done. cbn [mbind result_bind rbind] in H.
    rewrite get_nat with (x := combo) in H by (by rewrite list_lookup_middle).
    cbn [mbind result_bind rbind] in H.
    rewrite set_row_middle in H by (done || by apply combo_width).
    cbn [mbind result_bind rbind Split.lift] in H.
    rewrite (cons_middle combo), (cons_middle (Split.setdiff1d rep_ids combo)),
      !app_assoc in H.
    assert (NoDup (delete d pool)) as Hp'.
    { eapply sublist_NoDup; [exact Hp|apply sublist_delete]. }
    assert (combo ∉ delete d pool) as Hcd.
    { rewrite <- (take_drop_middle pool d combo Hd) in Hp.
      rewrite delete_take_drop.
      apply NoDup_app in Hp as (_ & Hp1 & Hp2). apply NoDup_cons in Hp2 as [Hp2 _].
      intros [Hin|Hin]%elem_of_app; [|done]. apply (Hp1 _ Hin). left. }
    replace (S (length done_rows)) with (length (done_rows ++ [combo])) in H
      by (rewrite length_app; cbn; lia).
    apply (IH draws trest (done_rows ++ [combo])
             (tdone ++ [Split.setdiff1d rep_ids combo]) (delete d pool)) in H.
    + destruct H as (new & Hln & -> & -> & Hnn & Hnc).
      exists (combo :: new). rewrite <- !app_assoc in *. cbn [app map length] in *.
      split_and!; try done; [lia|].
      intros row [->|Hrow]%elem_of_cons; [done|by apply Hnc].
    + done.
    + intros row Hrow. apply Hpc. by eapply list_elem_of_delete_inv.
    + intros row [Hrow| ->%list_elem_of_singleton]%elem_of_app; [|done].
      intros Hin. apply (Hdp row Hrow). by eapply list_elem_of_delete_inv.
    + apply NoDup_app. split_and!; [done| |apply NoDup_singleton].
      intros row Hrow ->%list_elem_of_singleton. by apply (Hdp combo).
    + rewrite !length_app. cbn. lia.
    + cbn in Hlr. lia.
Qed.

End rand.

Section rand_init.

(** [table[0, :] = v] *)
Lemma set_row_0 (table table' : list (list Z)) (w : nat) (v : list Z) :
  Split.set_row table w 0 v = Ok table' ->
  ∃ r0 z rest,
    table = z :: rest ∧ table' = r0 :: rest ∧ Split.broadcast_row w v = Ok r0.
Proof.
  unfold Split.set_row. destruct table as [|z rest]; [done|].
  rewrite norm_index_nonneg by (cbn; lia). cbn [mbind result_bind rbind].
  destruct (Split.broadcast_row w v) as [r0|]; cbn; [|done].
  intros [= <-]. eauto 6.
Qed.

Lemma find_base_Ok (combos : list (list Z)) (row : list Z) (k : nat) :
  Split.find_base combos row = Ok k -> combos !! k = Some row.
Proof.
  unfold Split.find_base.
  destruct (list_find _ combos) as [[k' r']|] eqn:Hfind; [|done].
  intros [= <-]. by apply list_find_Some in Hfind as (Hk & -> & _).
Qed.

Lemma find_base_None (combos : list (list Z)) (row : list Z) :
  row ∉ combos -> Split.find_base combos row = Raise IndexError.
Proof.
  intros Hrow. unfold Split.find_base.
  destruct (list_find _ combos) as [[k' r']|] eqn:Hfind; [|done].
  apply list_find_Some in Hfind as (Hk & -> & _).
  exfalso. apply Hrow. by eapply list_elem_of_lookup_2.
Qed.

Lemma NoDup_delete_lookup {A : Type} (l : list A) (k : nat) (x : A) :
  NoDup l -> l !! k = Some x -> NoDup (delete k l) ∧ x ∉ delete k l.
Proof.
  intros Hnd Hk. split.
  - eapply sublist_NoDup; [exact Hnd|apply sublist_delete].
  - rewrite <- (take_drop_middle l k x Hk) in Hnd.
    rewrite delete_take_drop.
    apply NoDup_app in Hnd as (_ & H1 & H2). apply NoDup_cons in H2 as [H2 _].
    intros [Hin|Hin]%elem_of_app; [|done]. apply (H1 _ Hin). left.
Qed.

End rand_init.

(** For distinct repetition ids, whenever the random generator returns it
    returns [nb_splits] folds, no test set occurring twice: every test row
    holds [nb_test] of the ids, in the order of [rep_ids], the train row of
    a fold is the set difference of the ids and its test row, and a [base]
    of [nb_test] ids is the test row of the first fold. *)
Theorem gen_split_rand_folds (draws : list nat) (rep_ids : list Z)
    (nb_test nb_splits : Z) (base : option (list Z)) (train test : list (list Z)) :
  NoDup rep_ids ->
  Split.gen_split_rand draws rep_ids nb_test nb_splits base = Some (Ok (train, test)) ->
  Z.of_nat (length test) = nb_splits ∧ length train = length test ∧
  NoDup test ∧
  (∀ te, te ∈ test -> te `sublist_of` rep_ids ∧ Z.of_nat (length te) = nb_test) ∧
  (∀ i te, test !! i = Some te -> train !! i = Some (Split.setdiff1d rep_ids te)) ∧
  (∀ b, base = Some b -> Z.of_nat (length b) = nb_test -> test !! 0%nat = Some b).
Proof.
  intros Hnd H. unfold Split.gen_split_rand in H. cbv zeta in H.
  unfold Split.all_combos, Split.zeros2 in H.
  destruct (decide (nb_test < 0)); [done|].
  destruct (decide (nb_test = 0)); [done|]. cbn [Split.lift] in H.
  destruct (decide (nb_splits < 0 ∨ _)); [done|]. cbn [Split.lift] in H.
  destruct (decide (nb_splits < 0 ∨ _)); [done|]. cbn [Split.lift] in H.
  assert (1 <= nb_test) as Hnb by lia.
  set (combos := Split.combinations rep_ids (Z.to_nat nb_test)) in *.
  set (w := Z.to_nat (Z.of_nat (length rep_ids) - nb_test)) in *.
  set (zt := replicate (Z.to_nat nb_test) 0) in *.
  set (zw := replicate w 0) in *.
  assert (NoDup combos) as Hndc by (by apply NoDup_combinations).
  assert (∃ done_rows tdone rest trest pool,
            Split.rand_loop draws rep_ids nb_test w
              (map Z.of_nat (seq (length done_rows) (length rest)))
              (pool, tdone ++ trest, done_rows ++ rest) = Some (Ok (train, test)) ∧
            NoDup pool ∧ (∀ row, row ∈ pool -> row ∈ combos) ∧
            (∀ row, row ∈ done_rows -> (row ∉ pool) ∧ row ∈ combos) ∧ NoDup done_rows ∧
            tdone = map (Split.setdiff1d rep_ids) done_rows ∧
            length trest = length rest ∧
            Z.of_nat (length done_rows + length rest) = nb_splits ∧
            (∀ b, base = Some b -> Z.of_nat (length b) = nb_test ->
                  done_rows !! 0%nat = Some b))
    as (done_rows & tdone & rest & trest & pool & Hloop & Hp & Hpc & Hdp & Hdn & Htd
        & Hlr & Hlen & Hbase).
  { destruct base as [b|]; cbn [Split.lift] in H.
    - destruct (Split.set_row _ (Z.to_nat nb_test) 0 b) as [test1|] eqn:Ht1;
        cbn [mbind result_bind rbind Split.lift] in H; [|done].
      apply set_row_0 in Ht1 as (r0 & z & rest & Hz & -> & Hb).
      change (Np.get (r0 :: rest) 0) with (Np.get (r0 :: rest) (Z.of_nat 0)) in H.
      rewrite (get_nat (r0 :: rest) 0 r0 eq_refl) in H.
      cbn [mbind result_bind rbind Split.lift] in H.
      destruct (Split.set_row _ w 0 _) as [train1|] eqn:Ht2;
        cbn [mbind result_bind rbind Split.lift] in H; [|done].
      apply set_row_0 in Ht2 as (r1 & z' & trest & Hz' & -> & Hb').
      destruct (Split.find_base combos r0) as [k|] eqn:Hk;
        cbn [mbind result_bind rbind Split.lift] in H; [|done].
      apply find_base_Ok in Hk.
      assert (r0 ∈ combos) as Hr0 by (by eapply list_elem_of_lookup_2).
      unfold Split.broadcast_row in Hb'.
      rewrite decide_True in Hb' by (by apply combo_width). injection Hb' as <-.
      destruct (NoDup_delete_lookup combos k r0 Hndc Hk) as [Hnd' Hnin].
      assert (length rest = length trest ∧
              Z.to_nat nb_splits = S (length rest)) as [Hl1 Hl2].
      { apply (f_equal length) in Hz, Hz'. rewrite length_replicate in Hz, Hz'.
        cbn in Hz, Hz'. lia. }
      exists [r0], [Split.setdiff1d rep_ids r0], rest, trest, (delete k combos).
      split_and!; try done.
      + rewrite <- H. f_equal.
        replace (Z.to_nat (nb_splits - 1)) with (length rest) by lia.
        symmetry. apply (seq_shift_map 1).
      + intros row Hrow. by eapply list_elem_of_delete_inv.
      + intros row ->%list_elem_of_singleton. done.
      + apply NoDup_singleton.
      + cbn [length]. lia.
      + intros b' [= <-] Hlb. unfold Split.broadcast_row in Hb.
        rewrite decide_True in Hb by lia. by injection Hb as <-.
    - exists [], [], (replicate (Z.to_nat nb_splits) zt),
        (replicate (Z.to_nat nb_splits) zw), combos.
      rewrite !length_replicate. split_and!; try done.
      + rewrite <- H. f_equal.
        replace (Z.to_nat (nb_splits - 0)) with (Z.to_nat nb_splits) by lia.
        symmetry. apply (seq_shift_map 0).
      + intros row Hrow. by apply elem_of_nil in Hrow.
      + apply NoDup_nil_2.
      + cbn. lia. }
  assert (length tdone = length done_rows) as Hlt by (by rewrite Htd, length_map).
  apply (rand_loop_folds rep_ids nb_test Hnd Hnb) in Hloop
    as (new & Hln & -> & -> & Hnn & Hnc); try done.
  2:{ intros row Hrow. by apply Hdp. }
  rewrite Htd, <- map_app.
  split_and!.
  - rewrite length_app. lia.
  - by rewrite length_map.
  - done.
  - intros te [Hte|Hte]%elem_of_app.
    + apply Hdp in Hte as [_ Hte].
      apply combinations_sublist in Hte as [? ?]. split; [done|lia].
    + apply Hnc in Hte. apply combinations_sublist in Hte as [? ?]. split; [done|lia].
  - intros i te Hi. change (map ?f ?l) with (f <$> l).
    by rewrite list_lookup_fmap, Hi.
  - intros b Hb Hlb. apply lookup_app_l_Some. by apply Hbase.
Qed.

Lemma gen_split_rand_folds_witness :
  Z.of_nat (length [[1; 2]; [2; 3]]) = 2 ∧
  length [[3]; [1]] = length [[1; 2]; [2; 3]] ∧
  NoDup [[1; 2]; [2; 3]] ∧
  (∀ te, te ∈ [[1; 2]; [2; 3]] ->
         te `sublist_of` [1; 2; 3] ∧ Z.of_nat (length te) = 2) ∧
  (∀ i te, [[1; 2]; [2; 3]] !! i = Some te ->
           [[3]; [1]] !! i = Some (Split.setdiff1d [1; 2; 3] te)) ∧
  (∀ b, Some [1; 2] = Some b -> Z.of_nat (length b) = 2 ->
        [[1; 2]; [2; 3]] !! 0%nat = Some b).
Proof.
  apply (gen_split_rand_folds [1]%nat [1; 2; 3] 2 2 (Some [1; 2])
           [[3]; [1]] [[1; 2]; [2; 3]]).
  - apply NoDup_ListNoDup. repeat constructor; cbn; lia.
  - vm_compute. reflexivity.
Defined.

(** ** Split generators: running out of combinations, and bases *)

Section exhaust.

Context (rep_ids : list Z) (nb_test : Z).

Lemma set_row_cases (table : list (list Z)) (w i : nat) (v : list Z) :
  (i < length table)%nat ->
  Split.set_row table w (Z.of_nat i) v = Raise ValueError ∨
  ∃ row, Split.set_row table w (Z.of_nat i) v = Ok (<[i := row]> table).
Proof.
  intros Hi. unfold Split.set_row. rewrite norm_index_nonneg by lia.
  cbn [mbind result_bind rbind]. rewrite Nat2Z.id.
  destruct (broadcast_row_cases w v) as [[_ ->]|[_ [(x & _ & ->)| ->]]];
    cbn [mbind result_bind rbind]; eauto.
Qed.

(** With fewer combinations left than folds to draw, the loop ends in the
    [ValueError] of [randint] on an empty range, unless a row assignment
    raises one before. *)
Lemma rand_loop_exhausts (draws : list nat) (w i m : nat)
    (pool train test : list (list Z))
    (r : result (list (list Z) * list (list Z))) :
  (length pool < m)%nat -> (i + m <= length test)%nat ->
  length train = length test ->
  Split.rand_loop draws rep_ids nb_test w (map Z.of_nat (seq i m))
    (pool, train, test) = Some r ->
  r = Raise ValueError.
Proof.
  revert draws i pool train test.
  induction m as [|m IH]; intros draws i pool train test Hp Hi Hl H; [lia|].
  cbn [seq map] in H.
  destruct draws as [|d draws].
  { destruct pool; cbn in H; by simplify_eq. }
  destruct (pool !! d) as [combo|] eqn:Hd.
  2:{ destruct pool; cbn [Split.rand_loop fst snd] in H; [by simplify_eq|].
      by rewrite Hd in H. }
  rewrite (rand_loop_step rep_ids nb_test _ _ _ _ _ _ _ _ _ Hd) in H.
  destruct (set_row_cases test (Z.to_nat nb_test) i combo ltac:(lia))
    as [Hs|[row Hs]]; rewrite Hs in H; cbn [mbind result_bind rbind Split.lift] in H;
    [by simplify_eq|].
  rewrite get_nat with (x := row) in H
    by (apply list_lookup_insert_eq; lia).
  cbn [mbind result_bind rbind] in H.
  destruct (set_row_cases train w i (Split.setdiff1d rep_ids row) ltac:(lia))
    as [Hs'|[row' Hs']]; rewrite Hs' in H;
    cbn [mbind result_bind rbind Split.lift] in H; [by simplify_eq|].
  apply IH in H; [done| | |].
  - pose proof (lookup_lt_Some _ _ _ Hd). rewrite length_delete by eauto. lia.
  - rewrite length_insert. lia.
  - by rewrite !length_insert.
Qed.

End exhaust.

Section base.

Lemma set_row_head (z v : list Z) (rest : list (list Z)) (w : nat) :
  length v = w -> Split.set_row (z :: rest) w 0 v = Ok (v :: rest).
Proof. intros Hv. by apply (set_row_middle [] rest z v w 0). Qed.

Lemma get_head {A : Type} (x : A) (l : list A) : Np.get (x :: l) 0 = Ok x.
Proof. apply (get_nat (x :: l) 0 x eq_refl). Qed.

End base.

(** When more folds are asked for than there are combinations of
    [nb_test] ids, the random generator cannot return: every execution
    ends in a [ValueError]. *)
Theorem gen_split_rand_exhausts (draws : list nat) (rep_ids : list Z)
    (nb_test nb_splits : Z) (r : result (list (list Z) * list (list Z))) :
  Z.of_nat (length (Split.combinations rep_ids (Z.to_nat nb_test))) < nb_splits ->
  Split.gen_split_rand draws rep_ids nb_test nb_splits None = Some r ->
  r = Raise ValueError.
Proof.
  intros Hlt H. unfold Split.gen_split_rand in H. cbv zeta in H.
  unfold Split.all_combos, Split.zeros2 in H.
  destruct (decide (nb_test < 0)); [cbn in H; by simplify_eq|].
  destruct (decide (nb_test = 0)); [cbn in H; by simplify_eq|]. cbn [Split.lift] in H.
  destruct (decide (nb_splits < 0 ∨ _)); [cbn in H; by simplify_eq|]. cbn [Split.lift] in H.
  destruct (decide (nb_splits < 0 ∨ _)); [cbn in H; by simplify_eq|]. cbn [Split.lift] in H.
  replace (Z.to_nat (nb_splits - 0)) with (Z.to_nat nb_splits) in H by lia.
  assert (map (fun k => 0 + Z.of_nat k) (seq 0 (Z.to_nat nb_splits))
          = map Z.of_nat (seq 0 (Z.to_nat nb_splits))) as Hseq
    by apply (seq_shift_map 0).
  rewrite Hseq in H.
  apply rand_loop_exhausts in H; [done| | |].
  - lia.
  - rewrite length_replicate. lia.
  - by rewrite !length_replicate.
Qed.

Lemma gen_split_rand_exhausts_witness :
  Split.gen_split_rand [0; 0]%nat [1; 2] 1 3 None =
    Some (Raise ValueError) ∧
  @Raise (list (list Z) * list (list Z)) ValueError = Raise ValueError.
Proof.
  split; [reflexivity|].
  apply (gen_split_rand_exhausts [0; 0]%nat [1; 2] 1 3 (Raise ValueError)).
  - vm_compute. reflexivity.
  - reflexivity.
Defined.

(** A [base] holding distinct ids of [rep_ids] in another order than
    theirs is not one of the combinations: both generators raise
    [IndexError], from the search for the base's row, whatever the draws. *)
Theorem split_base_not_found (draws : list nat) (rep_ids : list Z) (nb_splits : Z)
    (b : list Z) :
  NoDup rep_ids -> NoDup b -> (∀ x, x ∈ b -> x ∈ rep_ids) -> b ≠ [] ->
  ¬ b `sublist_of` rep_ids -> 1 <= nb_splits ->
  Split.gen_split_balanced draws rep_ids (Z.of_nat (length b)) (Some b)
    = Some (Raise IndexError) ∧
  Split.gen_split_rand draws rep_ids (Z.of_nat (length b)) nb_splits (Some b)
    = Some (Raise IndexError).
Proof.
  intros Hnd Hndb Hsub Hne Hns Hsp.
  assert (length b <= length rep_ids)%nat as Hle.
  { apply submseteq_length. by apply NoDup_submseteq. }
  assert (1 <= length b)%nat as Hlb by (destruct b; [done|cbn; lia]).
  assert (b ∉ Split.combinations rep_ids (length b)) as Hnin.
  { intros [? _]%combinations_sublist. done. }
  pose proof (length_setdiff1d rep_ids b Hnd Hndb Hsub) as Hw.
  split.
  - unfold Split.gen_split_balanced. cbv zeta.
    unfold Split.all_combos, Split.zeros2.
    rewrite !decide_False by lia. cbn [Split.lift]. rewrite !Nat2Z.id.
    destruct (length rep_ids) as [|m] eqn:Hm; [lia|].
    cbn [replicate].
    rewrite set_row_head by done. cbn [mbind result_bind rbind].
    rewrite get_head. cbn [mbind result_bind rbind].
    by rewrite find_base_None.
  - unfold Split.gen_split_rand. cbv zeta.
    unfold Split.all_combos, Split.zeros2.
    rewrite !decide_False by lia. cbn [Split.lift]. rewrite !Nat2Z.id.
    destruct (Z.to_nat nb_splits) as [|m] eqn:Hm; [lia|].
    cbn [replicate].
    rewrite set_row_head by done. cbn [mbind result_bind rbind].
    rewrite get_head. cbn [mbind result_bind rbind].
    rewrite set_row_head by lia. cbn [mbind result_bind rbind].
    by rewrite find_base_None.
Qed.

Lemma split_base_not_found_witness :
  Split.gen_split_balanced [] [1; 2; 3] (Z.of_nat (length [2; 1])) (Some [2; 1])
    = Some (Raise IndexError) ∧
  Split.gen_split_rand [] [1; 2; 3] (Z.of_nat (length [2; 1])) 2 (Some [2; 1])
    = Some (Raise IndexError).
Proof.
  apply (split_base_not_found [] [1; 2; 3] 2 [2; 1]).
  - apply NoDup_ListNoDup. repeat constructor; cbn; lia.
  - apply NoDup_ListNoDup. repeat constructor; cbn; lia.
  - intros x [->|[->|Hx]%elem_of_cons]%elem_of_cons;
      [right; left|left|by apply elem_of_nil in Hx].
  - discriminate.
  - intros Hs. apply sublist_cons_l in Hs as (k1 & k2 & Hk & Hs).
    apply sublist_cons_l in Hs as (k3 & k4 & Hk' & _).
    destruct k1 as [|? [|? [|? ?]]]; simplify_eq/=;
      destruct k3 as [|? [|? ?]]; simplify_eq/=.
    all: match goal with H : [] = ?l ++ _ |- _ => by destruct l end.
  - lia.
Defined.

(** ** Split generators: the folds of the balanced mode *)

Section distinct.

Context (combos : list (list Z)) (nb_splits nb_test first : Z).
Context (fresh : list (list Z)).
Context (Hnb : 0 <= nb_test).
Context (Hrows : ∀ row, row ∈ combos -> length row = Z.to_nat nb_test).

Local Abbreviation inv := (Spec.split_inv combos nb_splits nb_test first).
Local Abbreviation dinv := (Notions.distinct_inv fresh first).

Lemma draw_step_distinct (st st' : Split.state) (d : nat) (combo : list Z) :
  inv st -> dinv st -> Split.st_cur_split st < nb_splits ->
  Split.st_all_combos st !! d = Some combo ->
  Split.draw_step nb_test st d combo = Ok st' ->
  dinv st'.
Proof.
  intros (Hlen & Hfirst & Hcur & Hpool & _ & _) (Hp & Hdn & Hdp & Hf) Hlt Hd H.
  cbv zeta in Hdn, Hdp.
  assert (combo ∈ combos) as Hc by (eapply Hpool, list_elem_of_lookup_2, Hd).
  destruct (NoDup_delete_lookup _ _ _ Hp Hd) as [Hp' Hcd].
  unfold Split.draw_step in H.
  destruct (Split.set_row _ _ _ combo) as [t1|] eqn:Ht1; cbn in H; [|done].
  apply set_row_Ok in Ht1 as [Hi ->]; [|lia|by apply Hrows].
  destruct (Np.py_max _) as [m|] eqn:Hm; cbn in H; [|done].
  set (k := Z.to_nat (Split.st_cur_split st)) in *.
  case_decide as Hgt.
  - destruct (Split.set_row _ _ _ (replicate _ 0)) as [t2|] eqn:Ht2; cbn in H; [|done].
    apply set_row_Ok in Ht2 as [_ ->]; [|lia|by rewrite length_replicate].
    simplify_eq. fold k. unfold Notions.distinct_inv. cbn. fold k.
    rewrite !take_insert_ge by lia.
    split_and!; try done.
    intros row Hrow Hin. apply (Hdp row Hrow). by eapply list_elem_of_delete_inv.
  - simplify_eq. unfold Notions.distinct_inv. cbn.
    replace (Z.to_nat (Split.st_cur_split st + 1)) with (S k) in * by lia.
    assert (take (S k) (<[k := combo]> (Split.st_test_reps st))
            = take k (Split.st_test_reps st) ++ [combo]) as Htake.
    { rewrite (take_S_r _ _ combo) by (by apply list_lookup_insert_eq).
      by rewrite take_insert_ge by lia. }
    rewrite Htake, take_insert_ge by lia.
    split_and!; try done.
    + apply NoDup_app. split_and!; [done| |apply NoDup_singleton].
      intros row Hrow ->%list_elem_of_singleton.
      apply (Hdp combo Hrow). by eapply list_elem_of_lookup_2.
    + intros row [Hrow| ->%list_elem_of_singleton]%elem_of_app; [|done].
      intros Hin. apply (Hdp row Hrow). by eapply list_elem_of_delete_inv.
Qed.

Lemma balanced_loop_distinct (draws : list nat) (copy : list (list Z))
    (st st' : Split.state) :
  inv (Split.State copy fresh first 0) -> dinv (Split.State copy fresh first 0) ->
  inv st -> dinv st ->
  Split.balanced_loop draws nb_splits nb_test copy fresh first st = Some (Ok st') ->
  dinv st'.
Proof.
  intros Hf Hdf. revert st.
  induction draws as [|d draws IH]; intros st Hst Hdst H;
    cbn [Split.balanced_loop] in H.
  - case_decide as Hlt.
    + destruct (Split.st_all_combos _); simplify_eq.
    + by simplify_eq.
  - case_decide as Hlt; [|by simplify_eq].
    destruct (maybe_reset_inv combos nb_splits nb_test first copy fresh st Hf Hst)
      as [Hr Hle].
    assert (dinv (Split.maybe_reset copy fresh first st)) as Hdr.
    { unfold Split.maybe_reset. by case_decide. }
    set (st1 := Split.maybe_reset copy fresh first st) in *.
    destruct (Split.st_all_combos st1) as [|c0 pool] eqn:Hp; [simplify_eq|].
    rewrite <- Hp in H.
    destruct (Split.st_all_combos st1 !! d) as [combo|] eqn:Hd; [|done].
    destruct (Split.draw_step nb_test st1 d combo) as [st2|] eqn:Hs; [|simplify_eq].
    apply (IH st2); [| |done].
    + eapply (draw_step_inv combos nb_splits nb_test first Hnb Hrows); [done| |done..].
      lia.
    + eapply draw_step_distinct; [done|done| |done..]. lia.
Qed.

End distinct.

Section balanced_init.

Context (rep_ids : list Z) (nb_test : Z).
Context (Hnd : NoDup rep_ids) (Hnb : 1 <= nb_test).

Local Abbreviation n := (Z.of_nat (length rep_ids)).
Local Abbreviation combos := (Split.combinations rep_ids (Z.to_nat nb_test)).
Local Abbreviation zeros :=
  (replicate (Z.to_nat n) (replicate (Z.to_nat nb_test) 0)).

(** The state the loop starts from, and resets to, has distinct folds, and
    holds the base in its first row. *)
Lemma init_distinct (base : option (list Z)) (pool fresh : list (list Z)) (first : Z) :
  match base with
  | Some base =>
      test_reps ← Split.set_row zeros (Z.to_nat nb_test) 0 base;
      row ← Np.get test_reps 0;
      k ← Split.find_base combos row;
      Ok (delete k combos, test_reps, 1)
  | None => Ok (combos, zeros, 0)
  end = Ok (pool, fresh, first) ->
  Notions.distinct_inv fresh first (Split.State pool fresh first 0) ∧
  ∀ b, base = Some b -> Z.of_nat (length b) = nb_test ->
       first = 1 ∧ take 1 fresh = [b].
Proof.
  pose proof (NoDup_combinations rep_ids (Z.to_nat nb_test) Hnd) as Hndc.
  destruct base as [b|]; intros H.
  - destruct (Split.set_row _ _ 0 b) as [t1|] eqn:Ht1; cbn in H; [|done].
    apply set_row_0 in Ht1 as (r0 & z & rest & Hz & -> & Hb).
    rewrite get_head in H. cbn in H.
    destruct (Split.find_base combos r0) as [k|] eqn:Hk; cbn in H; [|done].
    apply find_base_Ok in Hk. simplify_eq.
    destruct (NoDup_delete_lookup _ _ _ Hndc Hk) as [Hp' Hnin].
    split.
    + unfold Notions.distinct_inv. cbn. split_and!; try done.
      * apply NoDup_singleton.
      * by intros row ->%list_elem_of_singleton.
    + intros b' [= <-] Hlb. split; [done|]. cbn.
      unfold Split.broadcast_row in Hb. rewrite decide_True in Hb by lia.
      by simplify_eq.
  - simplify_eq. split; [|done].
    unfold Notions.distinct_inv. cbn. split_and!; try done.
    + apply NoDup_nil_2.
    + intros row Hrow. by apply elem_of_nil in Hrow.
Qed.

End balanced_init.

(** For distinct repetition ids, whenever the balanced generator returns,
    no test set occurs in two folds, every test row holds [nb_test] of the
    ids in the order of [rep_ids], and a [base] of [nb_test] ids is the
    test row of the first fold. *)
Theorem gen_split_balanced_folds (draws : list nat) (rep_ids : list Z) (nb_test : Z)
    (base : option (list Z)) (train test : list (list Z)) :
  NoDup rep_ids ->
  Split.gen_split_balanced draws rep_ids nb_test base = Some (Ok (train, test)) ->
  NoDup test ∧
  (∀ te, te ∈ test -> te `sublist_of` rep_ids ∧ Z.of_nat (length te) = nb_test) ∧
  (∀ b, base = Some b -> Z.of_nat (length b) = nb_test -> test !! 0%nat = Some b).
Proof.
  intros Hnd H. unfold Split.gen_split_balanced in H. cbv zeta in H.
  set (n := Z.of_nat (length rep_ids)) in *.
  unfold Split.zeros2, Split.all_combos in H.
  destruct (decide (n < 0 ∨ n - nb_test < 0)); [done|]. cbn [Split.lift] in H.
  destruct (decide (n < 0 ∨ nb_test < 0)); [done|]. cbn [Split.lift] in H.
  destruct (decide (nb_test < 0)); [done|].
  destruct (decide (nb_test = 0)); [done|]. cbn [Split.lift] in H.
  assert (1 <= nb_test) as Hnb by lia.
  set (combos := Split.combinations rep_ids (Z.to_nat nb_test)) in *.
  match type of H with
  | Split.lift ?m _ = _ => destruct m as [[[pool fresh] first]|] eqn:Hinit
  end; [|done].
  cbn [Split.lift] in H.
  pose proof (init_inv rep_ids nb_test Hnd Hnb _ _ _ _ Hinit) as Hinv.
  pose proof (init_distinct rep_ids nb_test Hnd Hnb _ _ _ _ Hinit) as [Hdinv Hbase].
  fold n combos in Hinv.
  destruct (Split.balanced_loop _ _ _ _ _ _ _) as [[st|]|] eqn:Hloop; [|done..].
  cbn [Split.lift] in H.
  destruct (Split.fill_train _ _ _ _ _) as [tr|] eqn:Hfill; [|done].
  cbn [Split.lift] in H. simplify_eq.
  assert (∀ row, row ∈ combos -> length row = Z.to_nat nb_test) as Hrows.
  { intros row Hrow. by destruct (combos_rows rep_ids nb_test Hnd row Hrow). }
  pose proof (balanced_loop_distinct combos n nb_test first fresh ltac:(lia) Hrows
                _ _ _ _ Hinv Hdinv Hinv Hdinv Hloop) as (_ & Hdn & _ & Hf).
  apply (balanced_loop_inv combos n nb_test first ltac:(lia) Hrows) in Hloop
    as [(Hlen & Hfirst & _ & _ & Hdone & _) Hcur]; [|done..].
  cbv zeta in Hdn. rewrite Hcur in Hdn, Hdone.
  rewrite take_ge in Hdn, Hdone by lia.
  split_and!; [done| |].
  - intros te Hte. apply Hdone, combinations_sublist in Hte as [? ?].
    split; [done|lia].
  - intros b Hb Hlb. destruct (Hbase b Hb Hlb) as [-> Hb1].
    change (Z.to_nat 1) with 1%nat in Hf. rewrite Hb1 in Hf.
    destruct (Split.st_test_reps st) as [|r0 rest]; [done|].
    cbn in Hf. by simplify_eq.
Qed.

Lemma gen_split_balanced_folds_witness :
  NoDup [[1; 2]; [2; 3]; [1; 3]] ∧
  (∀ te, te ∈ [[1; 2]; [2; 3]; [1; 3]] ->
         te `sublist_of` [1; 2; 3] ∧ Z.of_nat (length te) = 2) ∧
  (∀ b, Some [1; 2] = Some b -> Z.of_nat (length b) = 2 ->
        [[1; 2]; [2; 3]; [1; 3]] !! 0%nat = Some b).
Proof.
  apply (gen_split_balanced_folds [1; 0]%nat [1; 2; 3] 2 (Some [1; 2])
           [[3]; [1]; [2]] [[1; 2]; [2; 3]; [1; 3]]).
  - apply NoDup_ListNoDup. repeat constructor; cbn; lia.
  - vm_compute. reflexivity.
Defined.
